(** * The funding algebra and the virtual machine of numary/machine

    A shallow embedding of [core/funding.go] and [vm/machine.go].

    Conventions.
    - A Go [uint64] is a [Z] in the range [0, 2^64); every arithmetic
      operation of the source is written with its wrap-around
      ([add64], [sub64]).
    - [core.Account] and [core.Asset] are Go strings; they are [string] here.
    - A Go [error] result is the [Err] case of [res], carrying the message of
      the source.
    - A Go slice is a list whose last element is the most recently appended
      one. *)

From Stdlib Require Import ZArith List Lia Bool.
From stdpp Require Import base option list gmap strings.

Local Open Scope Z_scope.

(** ** Machine integers *)

Definition two64 : Z := 2 ^ 64.
Definition max_u64 : Z := two64 - 1.
Definition is_u64 (z : Z) : Prop := 0 <= z < two64.

Definition add64 (a b : Z) : Z := (a + b) mod two64.
Definition sub64 (a b : Z) : Z := (a - b) mod two64.

(** ** Fallible results *)

Inductive res (A : Type) : Type :=
| OK (a : A)
| Err (msg : string).
Arguments OK {A} a.
Arguments Err {A} msg.

(** ** core/funding.go *)

Record FundingPart : Type := mkPart {
  Amount : Z;
  Account : string
}.

Record Funding : Type := mkFunding {
  Asset : string;
  Parts : list FundingPart;
  Infinite : bool
}.

(** [lhs.Parts[i] != rhs.Parts[i]] compares the two fields of the struct. *)
Definition part_eqb (p q : FundingPart) : bool :=
  (Amount p =? Amount q) && String.eqb (Account p) (Account q).

(** The loop [for i := range lhs.Parts] of [Equals], entered only when both
    slices have the same length. *)
Fixpoint equals_loop (l r : list FundingPart) : bool :=
  match l, r with
  | p :: l', q :: r' => if negb (part_eqb p q) then false else equals_loop l' r'
  | _, _ => true
  end.

Definition Equals (lhs rhs : Funding) : bool :=
  if negb (String.eqb (Asset lhs) (Asset rhs)) then false
  else if negb (Nat.eqb (length (Parts lhs)) (length (Parts rhs))) then false
  else equals_loop (Parts lhs) (Parts rhs).

(** State of the first loop of [Take] and [TakeMax] when it is left:
    the parts appended to [result], those appended to [remainder], what is
    left of [remaining_to_withdraw], and [f.Parts[i:]]. *)
Record take_state : Type := mkTake {
  ts_result : list FundingPart;
  ts_remainder : list FundingPart;
  ts_remaining : Z;
  ts_rest : list FundingPart
}.

(** [for remaining_to_withdraw > 0 && i < len(f.Parts)]: the list argument is
    [f.Parts[i:]]. The loop is the same text in [Take] and in [TakeMax]. *)
Fixpoint take_loop (parts result remainder : list FundingPart)
    (remaining_to_withdraw : Z) : take_state :=
  match parts with
  | [] => mkTake result remainder remaining_to_withdraw []
  | p :: rest =>
      if 0 <? remaining_to_withdraw then
        if remaining_to_withdraw <? Amount p then
          let rem := sub64 (Amount p) remaining_to_withdraw in
          let amt_to_withdraw := remaining_to_withdraw in
          take_loop rest
            (result ++ [mkPart amt_to_withdraw (Account p)])
            (remainder ++ [mkPart rem (Account p)])
            (sub64 remaining_to_withdraw amt_to_withdraw)
        else
          let amt_to_withdraw := Amount p in
          take_loop rest
            (result ++ [mkPart amt_to_withdraw (Account p)])
            remainder
            (sub64 remaining_to_withdraw amt_to_withdraw)
      else mkTake result remainder remaining_to_withdraw parts
  end.

(** The second loop, [for i < len(f.Parts)], copies the rest field by field. *)
Definition copy_parts (parts : list FundingPart) : list FundingPart :=
  map (fun p => mkPart (Amount p) (Account p)) parts.

Definition Take (f : Funding) (amount : Z) : res (Funding * Funding) :=
  let st := take_loop (Parts f) [] [] amount in
  let remainder :=
    mkFunding (Asset f) (ts_remainder st ++ copy_parts (ts_rest st)) (Infinite f) in
  if negb (ts_remaining st =? 0) then
    if Infinite f then
      OK (mkFunding (Asset f)
            (ts_result st ++ [mkPart (ts_remaining st) "world"]) false,
          remainder)
    else Err "insufficient funding"
  else OK (mkFunding (Asset f) (ts_result st) false, remainder).

Definition TakeMax (f : Funding) (amount : Z) : Funding * Funding :=
  let st := take_loop (Parts f) [] [] amount in
  let remainder :=
    mkFunding (Asset f) (ts_remainder st ++ copy_parts (ts_rest st)) (Infinite f) in
  if negb (ts_remaining st =? 0) && Infinite f then
    (mkFunding (Asset f)
       (ts_result st ++ [mkPart (ts_remaining st) "world"]) false,
     remainder)
  else (mkFunding (Asset f) (ts_result st) false, remainder).

(** [res.Parts[len(res.Parts)-1].Amount += other.Parts[0].Amount] followed by
    [append(res.Parts, other.Parts[1:]...)], under the three conditions of the
    [if]; otherwise [append(res.Parts, other.Parts...)]. The assignment also
    writes the array that [f.Parts] points to; only the returned value is
    modelled. *)
Definition concat_parts (parts other : list FundingPart) : list FundingPart :=
  match last parts, other with
  | Some l, o :: other' =>
      if String.eqb (Account l) (Account o) then
        removelast parts ++ mkPart (add64 (Amount l) (Amount o)) (Account l) :: other'
      else parts ++ other
  | _, _ => parts ++ other
  end.

Definition Concat (f other : Funding) : res Funding :=
  if negb (String.eqb (Asset f) (Asset other)) then
    Err "tried to concat different assets"
  else
    let infinite := Infinite f || Infinite other in
    if negb (Infinite f) then
      OK (mkFunding (Asset f) (concat_parts (Parts f) (Parts other)) infinite)
    else OK (mkFunding (Asset f) (Parts f) infinite).

Definition Total (f : Funding) : res Z :=
  if Infinite f then Err "tried to calculate total of infinite funding"
  else OK (fold_left (fun total part => add64 total (Amount part)) (Parts f) 0).

(** [for i := len(f.Parts) - 1; i >= 0; i--] appends the parts last to first. *)
Definition Reverse (f : Funding) : res Funding :=
  if Infinite f then Err "tried to reverse an infinite funding"
  else OK (mkFunding (Asset f) (rev (Parts f)) false).

(** The exact (unbounded) sum of the amounts, used to state properties. *)
Definition sum_amounts (parts : list FundingPart) : Z :=
  fold_right (fun p acc => Amount p + acc) 0 parts.

Definition positive_parts (f : Funding) : Prop :=
  Forall (fun p => 0 < Amount p < two64) (Parts f).

(** ** Declarations the machine uses from outside the sources *)

(** The opcodes that [tick] switches on. *)
Inductive Opcode : Type :=
| OP_APUSH | OP_IPUSH | OP_BUMP | OP_IADD | OP_ISUB | OP_PRINT | OP_FAIL
| OP_ASSET | OP_MONETARY_NEW | OP_MONETARY_ADD | OP_MAKE_ALLOTMENT
| OP_TAKE_ALL | OP_TAKE | OP_TAKE_MAX | OP_FUNDING_ASSEMBLE | OP_FUNDING_SUM
| OP_FUNDING_REVERSE | OP_ALLOC | OP_REPAY | OP_SEND | OP_TX_META.

(** What [vm/machine.go] takes from the packages [core] and [program] without
    their text being available: the portion and allotment values with
    [core.NewAllotment] and [Allotment.Allocate], and the byte value of each
    [program.OP_*] constant, given as the table [opcode_of] ([None] for a byte
    that is no opcode, the [default] branch of the switch). *)
Class Extern : Type := mkExtern {
  Portion : Type;
  Allotment : Type;
  NewAllotment : list Portion -> res Allotment;
  Allocate : Allotment -> Z -> list Z;
  opcode_of : Byte.byte -> option Opcode
}.

Record Monetary : Type := mkMonetary {
  mon_Asset : string;
  mon_Amount : Z
}.

(** [ledger.Posting]; [Amount] is an [int64]. *)
Record Posting : Type := mkPosting {
  post_Source : string;
  post_Destination : string;
  post_Asset : string;
  post_Amount : Z
}.

Inductive ValueType : Type :=
| TYPE_ACCOUNT | TYPE_ASSET | TYPE_NUMBER | TYPE_STRING | TYPE_MONETARY
| TYPE_PORTION | TYPE_ALLOTMENT | TYPE_FUNDING.

(** [map[string]map[string]uint64]; [None] is the nil map. *)
Abbreviation balances := (option (gmap string (gmap string Z))).

Section VM.
Context {ext : Extern}.

(** Modelled from the spec: [core.Value], whose declaration is not among the
    sources; section 3 gives it as a tagged union over these eight variants. *)
Inductive Value : Type :=
| VAccount (a : string)
| VAsset (a : string)
| VNumber (n : Z)
| VString (s : string)
| VMonetary (mon : Monetary)
| VPortion (p : Portion)
| VAllotment (a : Allotment)
| VFunding (f : Funding).

(** Modelled from the spec: [program.Resource] (section 3). *)
Inductive Resource : Type :=
| RConstant (Inner : Value)
| RParameter (Typ : ValueType) (Name : string)
| RMetadata (Typ : ValueType) (SourceAccount : Z) (Key : string).

(** Modelled from the spec: [program.Program] (section 3). [Instructions] is
    a byte slice; [InstructionsSpare] holds the bytes of its array between its
    length and its capacity, which a slice expression may reach.
    [NeededBalances] is a map from an address to a set of addresses; it is
    given as the sequence in which [range] visits it, which Go leaves
    unspecified. *)
Record ProgramT : Type := mkProgram {
  Instructions : list Byte.byte;
  InstructionsSpare : list Byte.byte;
  NeededBalances : list (Z * list Z)
}.


(** The fields of [Machine] that [tick], [Execute] and [ResolveBalances] use.
    [print_chan] holds the values sent on the channel so far. [P] is an index
    into the instructions and stays below their length plus nine. *)
Record Machine : Type := mkMachine {
  P : nat;
  Program : ProgramT;
  UnresolvedResources : list Resource;
  Resources : list Value;
  Balances : balances;
  set_balance_called : bool;
  Stack : list Value;
  Postings : list Posting;
  TxMeta : gmap string Value;
  print_chan : list Value
}.

Definition set_P (m : Machine) (p : nat) : Machine :=
  mkMachine p (Program m) (UnresolvedResources m) (Resources m) (Balances m)
    (set_balance_called m) (Stack m) (Postings m) (TxMeta m) (print_chan m).
Definition set_Balances (m : Machine) (b : balances) : Machine :=
  mkMachine (P m) (Program m) (UnresolvedResources m) (Resources m) b
    (set_balance_called m) (Stack m) (Postings m) (TxMeta m) (print_chan m).
Definition set_Stack (m : Machine) (s : list Value) : Machine :=
  mkMachine (P m) (Program m) (UnresolvedResources m) (Resources m) (Balances m)
    (set_balance_called m) s (Postings m) (TxMeta m) (print_chan m).
Definition set_Postings (m : Machine) (ps : list Posting) : Machine :=
  mkMachine (P m) (Program m) (UnresolvedResources m) (Resources m) (Balances m)
    (set_balance_called m) (Stack m) ps (TxMeta m) (print_chan m).
Definition set_TxMeta (m : Machine) (t : gmap string Value) : Machine :=
  mkMachine (P m) (Program m) (UnresolvedResources m) (Resources m) (Balances m)
    (set_balance_called m) (Stack m) (Postings m) t (print_chan m).
Definition set_print_chan (m : Machine) (c : list Value) : Machine :=
  mkMachine (P m) (Program m) (UnresolvedResources m) (Resources m) (Balances m)
    (set_balance_called m) (Stack m) (Postings m) (TxMeta m) c.

Definition EXIT_OK : Z := 1.
Definition EXIT_FAIL : Z := 2.
Definition EXIT_FAIL_INVALID : Z := 3.
Definition EXIT_FAIL_INSUFFICIENT_FUNDS : Z := 4.

(** *** Control flow inside [tick]

    A piece of [tick] either goes on with a value ([Cont]), makes [tick]
    return [(true, code)] ([Return]), or raises a Go run-time panic
    ([Panic]), which [Execute] does not recover from. *)
Inductive Result (A : Type) : Type :=
| Cont (a : A) (m : Machine)
| Return (m : Machine) (code : Z)
| Panic.
Arguments Cont {A} a m.
Arguments Return {A} m code.
Arguments Panic {A}.

Definition Step (A : Type) : Type := Machine -> Result A.

Definition ret {A} (a : A) : Step A := fun m => Cont a m.
Definition bind {A B} (c : Step A) (k : A -> Step B) : Step B :=
  fun m =>
    match c m with
    | Cont a m' => k a m'
    | Return m' code => Return m' code
    | Panic => Panic
    end.
Definition exit {A} (code : Z) : Step A := fun m => Return m code.
Definition panic {A} : Step A := fun _ => Panic.
Definition get : Step Machine := fun m => Cont m m.
Definition put (m : Machine) : Step unit := fun _ => Cont tt m.

End VM.

Arguments Cont {ext A} a m.
Arguments Return {ext A} m code.
Arguments Panic {ext A}.

Notation "'do' x <- c ; k" := (bind c (fun x => k))
  (at level 10, x name, c at level 100, k at level 200).
Notation "c ;; k" := (bind c (fun _ => k))
  (at level 100, k at level 200, right associativity).

Section Interpreter.
Context {ext : Extern}.

(** *** Stack helpers *)

(** Modelled from the spec: [popValue], [popNumber], [popAsset],
    [popAccount], [popString], [popMonetary], [popPortion], [popAllotment],
    [popFunding] and [pushValue] are called by [tick] but their text is not
    among the sources. The stack is the slice [m.Stack], its top the last
    element; section 4.7: on any type mismatch pop the machine halts with
    [EXIT_FAIL_INVALID], which is also what a pop from the empty stack is
    given here. *)
Definition popValue : Step Value := fun m =>
  match last (Stack m) with
  | Some v => Cont v (set_Stack m (removelast (Stack m)))
  | None => Return m EXIT_FAIL_INVALID
  end.

Definition pushValue (v : Value) : Step unit := fun m =>
  Cont tt (set_Stack m (Stack m ++ [v])).

Definition popNumber : Step Z :=
  do v <- popValue;
  match v with VNumber n => ret n | _ => exit EXIT_FAIL_INVALID end.
Definition popAsset : Step string :=
  do v <- popValue;
  match v with VAsset a => ret a | _ => exit EXIT_FAIL_INVALID end.
Definition popAccount : Step string :=
  do v <- popValue;
  match v with VAccount a => ret a | _ => exit EXIT_FAIL_INVALID end.
Definition popString : Step string :=
  do v <- popValue;
  match v with VString s => ret s | _ => exit EXIT_FAIL_INVALID end.
Definition popMonetary : Step Monetary :=
  do v <- popValue;
  match v with VMonetary mon => ret mon | _ => exit EXIT_FAIL_INVALID end.
Definition popPortion : Step Portion :=
  do v <- popValue;
  match v with VPortion p => ret p | _ => exit EXIT_FAIL_INVALID end.
Definition popAllotment : Step Allotment :=
  do v <- popValue;
  match v with VAllotment a => ret a | _ => exit EXIT_FAIL_INVALID end.
Definition popFunding : Step Funding :=
  do v <- popValue;
  match v with VFunding f => ret f | _ => exit EXIT_FAIL_INVALID end.

(** *** vm/machine.go *)

(** [getResource]: the address is a [uint16], hence not negative. *)
Definition getResource (m : Machine) (addr : Z) : option Value :=
  if Z.of_nat (length (Resources m)) <=? addr then None
  else Resources m !! Z.to_nat addr.

Definition withdrawAll (bal : balances) (account asset : string)
    : res Funding * balances :=
  if String.eqb account "world" then (OK (mkFunding asset [] true), bal)
  else
    match bal ≫= (fun b => b !! account) with
    | Some acc_balance =>
        match acc_balance !! asset with
        | Some balance =>
            (OK (mkFunding asset [mkPart balance account] false),
             (fun b => <[account := <[asset := 0]> acc_balance]> b) <$> bal)
        | None =>
            (Err ("missing " +:+ asset +:+ " balance from " +:+ account), bal)
        end
    | None => (Err ("missing " +:+ asset +:+ " balance from " +:+ account), bal)
    end.

(** [acc_balance[asset] += part.Amount]: a missing key reads as 0. *)
Definition add_entry (acc_balance : gmap string Z) (asset : string) (amount : Z)
    : gmap string Z :=
  <[asset := add64 (default 0 (acc_balance !! asset)) amount]> acc_balance.

Definition credit (bal : balances) (account : string) (funding : Funding)
    : balances :=
  if String.eqb account "world" then bal
  else
    match bal ≫= (fun b => b !! account) with
    | Some acc_balance =>
        match acc_balance !! Asset funding with
        | Some _ =>
            (fun b =>
               <[account :=
                   fold_left (fun ab part => add_entry ab (Asset funding) (Amount part))
                     (Parts funding) acc_balance]> b) <$> bal
        | None => bal
        end
    | None => bal
    end.

(** [repay]: [m.Balances[acc]] of an account without an entry (or of the nil
    map) is the nil inner map, and the assignment into it panics: [None]. *)
Fixpoint repay_loop (parts : list FundingPart) (asset : string) (bal : balances)
    : option balances :=
  match parts with
  | [] => Some bal
  | part :: rest =>
      if String.eqb (Account part) "world" then repay_loop rest asset bal
      else
        match bal ≫= (fun b => b !! Account part) with
        | Some acc_balance =>
            repay_loop rest asset
              ((fun b => <[Account part := add_entry acc_balance asset (Amount part)]> b)
                 <$> bal)
        | None => None
        end
  end.

Definition repay (bal : balances) (funding : Funding) : option balances :=
  repay_loop (Parts funding) (Asset funding) bal.

(** [binary.LittleEndian.Uint16] and [Uint64] on a slice of that many bytes. *)
Definition le_uint (bytes : list Byte.byte) : Z :=
  fold_right (fun b acc => Z.of_N (Byte.to_N b) + 256 * acc) 0 bytes.

(** [m.Program.Instructions[lo:hi]] with [lo <= hi]: the bound of a slice
    expression is the capacity of the slice. *)
Definition instr_slice (m : Machine) (lo hi : nat) : Step (list Byte.byte) :=
  let arr := Instructions (Program m) ++ InstructionsSpare (Program m) in
  if (length arr <? hi)%nat then panic
  else ret (take (hi - lo) (drop lo arr)).

(** [int(n)] of a [uint64] and [int64(n)]. *)
Definition to_int (n : Z) : Z := if n <? 2 ^ 63 then n else n - two64.

Definition modify (f : Machine -> Machine) : Step unit := fun m => Cont tt (f m).

(** [m.Program.Instructions[m.P+a : m.P+b]]. *)
Definition operand (a b : nat) : Step (list Byte.byte) :=
  do m <- get; instr_slice m (P m + a) (P m + b).

(** The loop of [OP_MAKE_ALLOTMENT]: [portions[i] = m.popPortion()]. *)
Fixpoint pop_portions (n : nat) : Step (list Portion) :=
  match n with
  | O => ret []
  | S n' => do p <- popPortion; do ps <- pop_portions n'; ret (p :: ps)
  end.

(** The first loop of [OP_FUNDING_ASSEMBLE], filling [fundings_rev[1:]]. *)
Fixpoint pop_fundings (n : nat) (asset : string) : Step (list Funding) :=
  match n with
  | O => ret []
  | S n' =>
      do f <- popFunding;
      if negb (String.eqb (Asset f) asset) then exit EXIT_FAIL_INVALID
      else do fs <- pop_fundings n' asset; ret (f :: fs)
  end.

(** The second loop of [OP_FUNDING_ASSEMBLE]; the list is [fundings_rev] read
    from its last element down, as the index [n-1-i] does. *)
Fixpoint assemble (result : Funding) (fundings : list Funding) : res Funding :=
  match fundings with
  | [] => OK result
  | f :: rest =>
      match Concat result f with
      | OK r => assemble r rest
      | Err e => Err e
      end
  end.

Fixpoint push_each (vs : list Value) : Step unit :=
  match vs with
  | [] => ret tt
  | v :: rest => pushValue v ;; push_each rest
  end.

(** The postings of [OP_SEND], one for each part with a non-zero amount. *)
Fixpoint send_postings (dest asset : string) (parts : list FundingPart)
    : list Posting :=
  match parts with
  | [] => []
  | part :: rest =>
      if Amount part =? 0 then send_postings dest asset rest
      else mkPosting (Account part) dest asset (to_int (Amount part))
             :: send_postings dest asset rest
  end.

(** The [switch op] of [tick]; [None] is the [default] branch. Memory is
    taken to be unbounded: [make] panics only on a length that is negative
    as an [int], which for the [uint64] of [OP_MAKE_ALLOTMENT] is one from
    [2^63] on. *)
Definition exec (op : option Opcode) : Step unit :=
  match op with
  | Some OP_APUSH =>
      do bytes <- operand 1 3;
      do m <- get;
      match getResource m (le_uint bytes) with
      | None => exit EXIT_FAIL
      | Some v => pushValue v ;; modify (fun m => set_P m (P m + 2))
      end
  | Some OP_IPUSH =>
      do bytes <- operand 1 9;
      pushValue (VNumber (le_uint bytes)) ;;
      modify (fun m => set_P m (P m + 8))
  | Some OP_BUMP =>
      do n <- popNumber;
      do m <- get;
      let idx := Z.of_nat (length (Stack m)) - to_int n - 1 in
      if (idx <? 0) || (Z.of_nat (length (Stack m)) <=? idx) then panic
      else
        match Stack m !! Z.to_nat idx with
        | None => panic
        | Some v =>
            put (set_Stack m
                   ((take (Z.to_nat idx) (Stack m)
                       ++ drop (Z.to_nat idx + 1) (Stack m)) ++ [v]))
        end
  | Some OP_IADD =>
      do b <- popNumber;
      do a <- popNumber;
      pushValue (VNumber (add64 a b))
  | Some OP_ISUB =>
      do b <- popNumber;
      do a <- popNumber;
      pushValue (VNumber (sub64 a b))
  | Some OP_PRINT =>
      do a <- popValue;
      modify (fun m => set_print_chan m (print_chan m ++ [a]))
  | Some OP_FAIL => exit EXIT_FAIL
  | Some OP_ASSET =>
      do v <- popValue;
      match v with
      | VAsset a => pushValue (VAsset a)
      | VMonetary mon => pushValue (VAsset (mon_Asset mon))
      | VFunding f => pushValue (VAsset (Asset f))
      | _ => exit EXIT_FAIL_INVALID
      end
  | Some OP_MONETARY_NEW =>
      do amount <- popNumber;
      do asset <- popAsset;
      pushValue (VMonetary (mkMonetary asset amount))
  | Some OP_MONETARY_ADD =>
      do b <- popMonetary;
      do a <- popMonetary;
      if negb (String.eqb (mon_Asset a) (mon_Asset b)) then exit EXIT_FAIL_INVALID
      else pushValue (VMonetary (mkMonetary (mon_Asset a)
                                   (add64 (mon_Amount a) (mon_Amount b))))
  | Some OP_MAKE_ALLOTMENT =>
      do n <- popNumber;
      if to_int n <? 0 then panic
      else
        do portions <- pop_portions (Z.to_nat n);
        match NewAllotment portions with
        | Err _ => exit EXIT_FAIL_INVALID
        | OK allotment => pushValue (VAllotment allotment)
        end
  | Some OP_TAKE_ALL =>
      do asset <- popAsset;
      do account <- popAccount;
      do m <- get;
      match withdrawAll (Balances m) account asset with
      | (Err _, _) => exit EXIT_FAIL_INVALID
      | (OK funding, bal) =>
          put (set_Balances m bal) ;; pushValue (VFunding funding)
      end
  | Some OP_TAKE =>
      do mon <- popMonetary;
      do funding <- popFunding;
      if negb (String.eqb (Asset funding) (mon_Asset mon)) then exit EXIT_FAIL_INVALID
      else
        match Take funding (mon_Amount mon) with
        | Err _ => exit EXIT_FAIL_INSUFFICIENT_FUNDS
        | OK (result, remainder) =>
            pushValue (VFunding remainder) ;; pushValue (VFunding result)
        end
  | Some OP_TAKE_MAX =>
      do mon <- popMonetary;
      do funding <- popFunding;
      if negb (String.eqb (Asset funding) (mon_Asset mon)) then exit EXIT_FAIL_INVALID
      else
        let '(result, remainder) := TakeMax funding (mon_Amount mon) in
        pushValue (VFunding remainder) ;; pushValue (VFunding result)
  | Some OP_FUNDING_ASSEMBLE =>
      do n0 <- popNumber;
      let n := to_int n0 in
      if n =? 0 then exit EXIT_FAIL_INVALID
      else
        do first <- popFunding;
        if n <? 0 then panic
        else
          do others <- pop_fundings (Z.to_nat (n - 1)) (Asset first);
          let fundings_rev := first :: others in
          match assemble (mkFunding (Asset first) [] false) (rev fundings_rev) with
          | Err _ => exit EXIT_FAIL_INVALID
          | OK result => pushValue (VFunding result)
          end
  | Some OP_FUNDING_SUM =>
      do funding <- popFunding;
      match Total funding with
      | Err _ => exit EXIT_FAIL_INVALID
      | OK sum =>
          pushValue (VFunding funding) ;;
          pushValue (VMonetary (mkMonetary (Asset funding) sum))
      end
  | Some OP_FUNDING_REVERSE =>
      do funding <- popFunding;
      match Reverse funding with
      | Err _ => exit EXIT_FAIL_INVALID
      | OK result => pushValue (VFunding result)
      end
  | Some OP_ALLOC =>
      do allotment <- popAllotment;
      do monetary <- popMonetary;
      let parts := Allocate allotment (mon_Amount monetary) in
      push_each (map (fun a => VMonetary (mkMonetary (mon_Asset monetary) a))
                   (rev parts))
  | Some OP_REPAY =>
      do funding <- popFunding;
      do m <- get;
      match repay (Balances m) funding with
      | None => panic
      | Some bal => put (set_Balances m bal)
      end
  | Some OP_SEND =>
      do dest <- popAccount;
      do funding <- popFunding;
      modify (fun m => set_Balances m (credit (Balances m) dest funding)) ;;
      modify (fun m =>
        set_Postings m
          (Postings m ++ send_postings dest (Asset funding) (Parts funding)))
  | Some OP_TX_META =>
      do k <- popString;
      do v <- popValue;
      modify (fun m => set_TxMeta m (<[k := v]> (TxMeta m)))
  | None => exit EXIT_FAIL_INVALID
  end.

(** The end of [tick], after the switch: [m.P += 1] and the test for the end
    of the instructions. *)
Definition advance (m1 : Machine) : Result unit :=
  let m2 := set_P m1 (P m1 + 1) in
  if (length (Instructions (Program m2)) <=? P m2)%nat
  then Return m2 EXIT_OK
  else Cont tt m2.

(** [tick] returns [(false, 0)] as [Cont tt m] and [(true, code)] as
    [Return m code], [m] being the machine it leaves behind. *)
Definition tick (m : Machine) : Result unit :=
  match Instructions (Program m) !! P m with
  | None => Panic
  | Some op =>
      match exec (opcode_of op) m with
      | Cont _ m1 => advance m1
      | Return m1 code => Return m1 code
      | Panic => Panic
      end
  end.

(** What a call of [Execute] comes to: it returns [(code, nil)], it returns
    [(0, err)], or a panic of [tick] ends the program. *)
Inductive ExecResult : Type :=
| Exited (m : Machine) (code : Z)
| Failed (msg : string)
| Crashed.

(** The [for] loop of [Execute], with a bound on the number of rounds. *)
Fixpoint execute_loop (fuel : nat) (m : Machine) : option ExecResult :=
  match fuel with
  | O => None
  | S fuel' =>
      match tick m with
      | Cont _ m' => execute_loop fuel' m'
      | Return m' exit_code =>
          if negb (length (Stack m') =? 0)%nat
          then Some (Exited m' EXIT_FAIL_INVALID)
          else Some (Exited m' exit_code)
      | Panic => Some Crashed
      end
  end.

(** [Execute]; the bound is never reached ([Execute_returns] below). *)
Definition Execute (m : Machine) : option ExecResult :=
  if negb (length (Resources m) =? length (UnresolvedResources m))%nat
  then Some (Failed "resources haven't been initialized")
  else
    match Balances m with
    | None => Some (Failed "balances haven't been initialized")
    | Some _ =>
        execute_loop (S (length (Instructions (Program m)) - P m)) m
    end.

(** *** Balance resolution *)

(** Modelled from the spec: the interface [core.HasAsset], whose declaration is
    not among the sources; section 4.1: Asset, Monetary and Funding expose a
    "get asset" view. *)
Definition GetAsset (v : Value) : option string :=
  match v with
  | VAsset a => Some a
  | VMonetary mon => Some (mon_Asset mon)
  | VFunding f => Some (Asset f)
  | _ => None
  end.

(** A message on the channel that [ResolveBalances] returns: a request for a
    balance, or an error, after which the channel is closed. *)
Inductive BalanceRequest : Type :=
| Request (account asset : string)
| RequestError (msg : string).

(** State of the goroutine of [ResolveBalances]: the map built so far and the
    messages sent so far. *)
Record resolving : Type := mkResolving {
  rs_balances : gmap string (gmap string Z);
  rs_sent : list BalanceRequest
}.

Section Resolve.

(** The caller's side of the channels: [respond k account asset] is what the
    caller answers to a request that is its [k]-th message, [None] when it
    closes the response channel without a value. *)
Variable respond : nat -> string -> string -> option Z.
Variable m : Machine.

(** [for addr := range needed_assets]; the result is [Some (inl _)] when the
    goroutine returns from inside the loop and [None] when it panics. The
    inner map of [account] was made just before the loop. After
    [balance, ok := <-resp] comes [close(resp)], before [ok] is looked at:
    when the caller has closed the response channel the goroutine panics on
    closing it again, and the branch [if !ok] is never entered. *)
Fixpoint resolve_assets (account : string) (needed_assets : list Z)
    (st : resolving) : option (resolving + resolving) :=
  match needed_assets with
  | [] => Some (inr st)
  | addr :: rest =>
      match getResource m addr with
      | None =>
          Some (inl (mkResolving (rs_balances st)
                 (rs_sent st ++ [RequestError
                    "invalid program (resolve balances: invalid address of monetary)"])))
      | Some mon =>
          match GetAsset mon with
          | Some asset =>
              let sent := rs_sent st ++ [Request account asset] in
              match respond (length (rs_sent st)) account asset with
              | None => None
              | Some balance =>
                  resolve_assets account rest
                    (mkResolving
                       (<[account :=
                            <[asset := balance]>
                              (default ∅ (rs_balances st !! account))]>
                          (rs_balances st))
                       sent)
              end
          | None =>
              Some (inl (mkResolving (rs_balances st)
                     (rs_sent st ++ [RequestError
                        "invalid program (resolve balances: not an asset)"])))
          end
      end
  end.

(** [for addr, needed_assets := range m.Program.NeededBalances]; [None] when
    the goroutine panics. *)
Fixpoint resolve_accounts (needed : list (Z * list Z)) (st : resolving)
    : option resolving :=
  match needed with
  | [] => Some st
  | (addr, needed_assets) :: rest =>
      match getResource m addr with
      | None =>
          Some (mkResolving (rs_balances st)
            (rs_sent st ++ [RequestError
               "invalid program (resolve balances: invalid address of account)"]))
      | Some (VAccount account) =>
          if String.eqb account "world" then resolve_accounts rest st
          else
            match
              resolve_assets account needed_assets
                (mkResolving (<[account := ∅]> (rs_balances st)) (rs_sent st))
            with
            | None => None
            | Some (inl st') => Some st'
            | Some (inr st') => resolve_accounts rest st'
            end
      | Some _ =>
          Some (mkResolving (rs_balances st)
            (rs_sent st ++ [RequestError
               "incorrect program (resolve balances: not an account)"]))
      end
  end.

(** [ResolveBalances]: [(nil, err)] is [Err]; [OK (Some _)] is the machine once
    the goroutine has ended, with the messages it sent; [OK None] is a panic
    in the goroutine, which ends the program. *)
Definition ResolveBalances : res (option (Machine * list BalanceRequest)) :=
  if negb (length (Resources m) =? length (UnresolvedResources m))%nat
  then Err "tried to resolve balances before resources"
  else if set_balance_called m
  then Err "tried to call ResolveBalances twice"
  else
    match resolve_accounts (NeededBalances (Program m)) (mkResolving ∅ []) with
    | None => OK None
    | Some st =>
        OK (Some
              (mkMachine (P m) (Program m) (UnresolvedResources m) (Resources m)
                 (Some (rs_balances st)) true (Stack m) (Postings m) (TxMeta m)
                 (print_chan m),
               rs_sent st))
    end.

End Resolve.

End Interpreter.

(** ** A table of opcodes to run programs with

    The bytes number the opcodes in the order of the cases of [tick]; the
    allotment operations are left without content. *)
Definition opcode_table (b : Byte.byte) : option Opcode :=
  match Byte.to_N b with
  | 0%N => Some OP_APUSH | 1%N => Some OP_IPUSH | 2%N => Some OP_BUMP
  | 3%N => Some OP_IADD | 4%N => Some OP_ISUB | 5%N => Some OP_PRINT
  | 6%N => Some OP_FAIL | 7%N => Some OP_ASSET | 8%N => Some OP_MONETARY_NEW
  | 9%N => Some OP_MONETARY_ADD | 10%N => Some OP_MAKE_ALLOTMENT
  | 11%N => Some OP_TAKE_ALL | 12%N => Some OP_TAKE | 13%N => Some OP_TAKE_MAX
  | 14%N => Some OP_FUNDING_ASSEMBLE | 15%N => Some OP_FUNDING_SUM
  | 16%N => Some OP_FUNDING_REVERSE | 17%N => Some OP_ALLOC
  | 18%N => Some OP_REPAY | 19%N => Some OP_SEND | 20%N => Some OP_TX_META
  | _ => None
  end.

Definition table_extern : Extern :=
  mkExtern unit unit (fun _ => Err "no allotment") (fun _ _ => []) opcode_table.

(** A machine ready to execute [code] on [stack] with [bal], as [NewMachine]
    followed by the two resolutions leaves it when there are no resources. *)
Definition machine_of (code : list Byte.byte) (stack : list (@Value table_extern))
    (bal : gmap string (gmap string Z)) : @Machine table_extern :=
  mkMachine 0 (mkProgram code [] []) [] [] (Some bal) true stack [] ∅ [].

(** ** Predicates in which the properties are stated *)

(** How the parts of a funding are divided when the loop is left: either
    between two parts, or inside the part [mkPart (a + b) acc]. *)
Definition divides (parts result remainder rest : list FundingPart) : Prop :=
  (remainder = [] /\ result ++ rest = parts) \/
  (exists pre acc a b,
      0 < a /\ 0 < b /\
      parts = pre ++ mkPart (a + b) acc :: rest /\
      result = pre ++ [mkPart a acc] /\
      remainder = [mkPart b acc]).

(** An account is tracked when the balances map has an entry (an inner map)
    for it; the nil map tracks no account. *)
Definition tracked (bal : balances) (account : string) : Prop :=
  is_Some (bal ≫= (fun b => b !! account)).

(** Two machines with the same program counter, the same program and the
    same tracked accounts. *)
Definition same_control {ext : Extern} (m m' : Machine) : Prop :=
  P m' = P m /\ Program m' = Program m /\
  forall a, tracked (Balances m') a <-> tracked (Balances m) a.

(** A piece of [tick] that, run on [m], leaves these three in place. *)
Definition quiet_at {ext : Extern} {A} (c : Step A) (m : Machine) : Prop :=
  match c m with
  | Cont _ m' => same_control m m'
  | Return m' _ => same_control m m'
  | Panic => True
  end.

(** What the switch of [tick] leaves in place when it goes on: the program
    counter does not go back. *)
Definition onward {ext : Extern} (m m' : Machine) : Prop :=
  (P m <= P m')%nat /\ Program m' = Program m /\
  forall a, tracked (Balances m') a <-> tracked (Balances m) a.

(** [halts m m' code]: the rounds of the loop of [Execute] from [m] come to a
    call of [tick] that returns [(true, code)] and leaves the machine [m']. *)
Inductive halts {ext : Extern} : Machine -> Machine -> Z -> Prop :=
| halts_now m m' code :
    tick m = Return m' code -> halts m m' code
| halts_later m m1 m' code :
    tick m = Cont tt m1 -> halts m1 m' code -> halts m m' code.

(** [reaches m m0]: the rounds of the loop of [Execute] from [m] come to
    the machine [m0], each call of [tick] before having returned
    [(false, 0)]. *)
Inductive reaches {ext : Extern} : Machine -> Machine -> Prop :=
| reaches_here m : reaches m m
| reaches_next m m1 m0 :
    tick m = Cont tt m1 -> reaches m1 m0 -> reaches m m0.

(** The code that [Execute] returns for a run that halts in [m'] with
    [code]. *)
Definition exit_code_of {ext : Extern} (m' : Machine) (code : Z) : Z :=
  if negb (length (Stack m') =? 0)%nat then EXIT_FAIL_INVALID else code.

(** A message that asks for a balance of [world]. *)
Definition asks_world (r : BalanceRequest) : Prop :=
  match r with
  | Request account _ => account = "world"
  | RequestError _ => False
  end.

(** A state of the goroutine of [ResolveBalances] in which [world] has no
    entry and has not been asked for. *)
Definition world_free (st : resolving) : Prop :=
  rs_balances st !! "world" = None /\
  Forall (fun r => ~ asks_world r) (rs_sent st).

(** The amounts of the parts are [uint64] values. *)
Definition u64_parts (f : Funding) : Prop :=
  Forall (fun p => 0 <= Amount p < two64) (Parts f).

(** No two neighbouring parts are of the same account, which is how [Concat]
    leaves the junction of two fundings. *)
Fixpoint merged (parts : list FundingPart) : Prop :=
  match parts with
  | p :: (q :: _) as rest => Account p <> Account q /\ merged rest
  | _ => True
  end.

(** [m.Balances[account][asset]] read with the comma-ok form at both levels:
    [None] when the account or, inside it, the asset has no entry. *)
Definition balance_of (bal : balances) (account asset : string) : option Z :=
  match bal ≫= (fun b => b !! account) with
  | Some inner => inner !! asset
  | None => None
  end.

(** What the parts of a funding hold for one account. *)
Definition amount_of (account : string) (parts : list FundingPart) : Z :=
  sum_amounts (filter (fun p => Account p = account) parts).

(** The sum of the amounts of a sequence of postings. *)
Definition posted (ps : list Posting) : Z :=
  fold_right (fun p acc => post_Amount p + acc) 0 ps.

(** A sequence of messages of [ResolveBalances] that are all requests. *)
Definition only_requests (sent : list BalanceRequest) : Prop :=
  Forall (fun r => exists account asset, r = Request account asset) sent.

(** A sequence of messages in which an error, if there is one, is the last
    message. *)
Definition error_last (sent : list BalanceRequest) : Prop :=
  only_requests sent \/
  exists pre msg, sent = pre ++ [RequestError msg] /\ only_requests pre.

(** Every request sent is for an account that has an inner map. *)
Definition requests_tracked (st : resolving) : Prop :=
  forall account asset,
    Request account asset ∈ rs_sent st -> is_Some (rs_balances st !! account).

(** ** Resource resolution and the making of a machine *)

#[global] Instance ValueType_eq_dec : EqDecision ValueType.
Proof. solve_decision. Defined.

Section Resources.
Context {ext : Extern}.

(** Modelled from the spec: [GetType] of a [core.Value], whose text is not
    among the sources; section 4.1: a value carries the type tag of its
    variant. *)
Definition GetType (v : Value) : ValueType :=
  match v with
  | VAccount _ => TYPE_ACCOUNT
  | VAsset _ => TYPE_ASSET
  | VNumber _ => TYPE_NUMBER
  | VString _ => TYPE_STRING
  | VMonetary _ => TYPE_MONETARY
  | VPortion _ => TYPE_PORTION
  | VAllotment _ => TYPE_ALLOTMENT
  | VFunding _ => TYPE_FUNDING
  end.

Definition set_Resources (m : Machine) (rs : list Value) : Machine :=
  mkMachine (P m) (Program m) (UnresolvedResources m) rs (Balances m)
    (set_balance_called m) (Stack m) (Postings m) (TxMeta m) (print_chan m).


(** A message on the channel that [ResolveResources] returns. *)
Inductive MetadataRequest : Type :=
| MetaRequest (account key : string)
| MetaRequestError (msg : string).

(** State of the goroutine of [ResolveResources]: [m.Resources] and the
    messages sent so far. *)
Record resolving_resources : Type := mkResolvingResources {
  rr_resources : list Value;
  rr_sent : list MetadataRequest
}.

Section ResolveResources.

(** [Type.String], which the error messages print with [%v]; its text is not
    among the sources. *)
Variable type_name : ValueType -> string.
(** The caller's side of the channels: the value answered to a request that
    is the [k]-th message, [None] for the nil value. *)
Variable respond : nat -> string -> string -> option Value.
(** [m.Vars]; the nil map reads as the empty one. *)
Variable vars : gmap string Value.
Variable m : Machine.

Definition stop_with (st : resolving_resources) (msg : string)
    : resolving_resources :=
  mkResolvingResources (rr_resources st) (rr_sent st ++ [MetaRequestError msg]).

(** [for len(m.Resources) != len(m.UnresolvedResources)]: the list is
    [m.UnresolvedResources[len(m.Resources):]]. *)
Fixpoint resolve_loop (unresolved : list Resource) (st : resolving_resources)
    : resolving_resources :=
  match unresolved with
  | [] => st
  | res :: rest =>
      match res with
      | RConstant inner =>
          resolve_loop rest
            (mkResolvingResources (rr_resources st ++ [inner]) (rr_sent st))
      | RParameter _ name =>
          match vars !! name with
          | Some val =>
              resolve_loop rest
                (mkResolvingResources (rr_resources st ++ [val]) (rr_sent st))
          | None => stop_with st ("missing variable: " +:+ name)
          end
      | RMetadata typ source key =>
          match getResource (set_Resources m (rr_resources st)) source with
          | None =>
              stop_with st
                "tried to request metadata of an account which has not yet been solved"
          | Some source_account =>
              match source_account with
              | VAccount account =>
                  let sent := rr_sent st ++ [MetaRequest account key] in
                  match respond (length (rr_sent st)) account key with
                  | None =>
                      stop_with (mkResolvingResources (rr_resources st) sent)
                        "tried to set nil as resource"
                  | Some val =>
                      if bool_decide (GetType val <> typ) then
                        stop_with (mkResolvingResources (rr_resources st) sent)
                          ("wrong type: expected " +:+ type_name typ +:+ ", got "
                             +:+ type_name (GetType val))
                      else
                        resolve_loop rest
                          (mkResolvingResources (rr_resources st ++ [val]) sent)
                  end
              | _ =>
                  stop_with st
                    ("tried to request metadata on wrong entity: "
                       +:+ type_name (GetType source_account) +:+ " instead of ACCOUNT")
              end
          end
      end
  end.




End ResolveResources.


End Resources.

(** The exact sum of the amounts of a sequence of fundings. *)
Definition sum_fundings (fs : list Funding) : Z :=
  fold_right (fun f acc => sum_amounts (Parts f) + acc) 0 fs.

(** [extends m m']: as far as the record of a run goes, [m'] is [m] some
    rounds later. The resources, their table and the flag of
    [ResolveBalances] are the same; the postings and the values sent to the
    printer are those of [m] followed by new ones; the keys of the
    transaction metadata of [m] are still there. *)
Definition extends {ext : Extern} (m m' : Machine) : Prop :=
  Resources m' = Resources m /\
  UnresolvedResources m' = UnresolvedResources m /\
  set_balance_called m' = set_balance_called m /\
  (exists ps, Postings m' = Postings m ++ ps) /\
  (exists vs, print_chan m' = print_chan m ++ vs) /\
  (forall k, is_Some (TxMeta m !! k) -> is_Some (TxMeta m' !! k)).

(** The field [F] is the same in both machines. *)
Definition same_field {ext : Extern} {X} (F : Machine -> X) (m m' : Machine)
    : Prop :=
  F m' = F m.

(** A piece of [tick] that, run on [m], leaves a machine that [R] relates to
    [m]. *)
Definition keeps {ext : Extern} {A} (R : Machine -> Machine -> Prop)
    (c : Step A) (m : Machine) : Prop :=
  match c m with
  | Cont _ m' => R m m'
  | Return m' _ => R m m'
  | Panic => True
  end.

(** The instructions that write to the balances. *)
Definition writes_balances (op : option Opcode) : Prop :=
  op = Some OP_TAKE_ALL \/ op = Some OP_REPAY \/ op = Some OP_SEND.

(** The order of parts that C6 as amended gives, in its words. Two sequences
    of parts joined: the first followed by the second, the last part of the
    first and the first part of the second being merged into one part of that
    account, with the sum of the amounts modulo [2^64], when they are of the
    same account. *)
Fixpoint join_parts (parts other : list FundingPart) : list FundingPart :=
  match parts with
  | [] => other
  | [l] =>
      match other with
      | [] => [l]
      | o :: post =>
          if String.eqb (Account l) (Account o)
          then mkPart (add64 (Amount l) (Amount o)) (Account l) :: post
          else l :: o :: post
      end
  | p :: (_ :: _) as rest => p :: join_parts rest other
  end.

(** The parts of the fundings [fs], listed from the deepest to the topmost:
    those of the deepest first, joined with those of the fundings above it;
    the fundings above an infinite funding give no parts. *)
Fixpoint parts_in_order (fs : list Funding) : list FundingPart :=
  match fs with
  | [] => []
  | f :: above =>
      if Infinite f then Parts f
      else join_parts (Parts f) (parts_in_order above)
  end.

(** * Properties of the funding algebra *)

Lemma two64_pos : 0 < two64.
Proof. reflexivity. Qed.

Lemma add64_small a b : 0 <= a + b < two64 -> add64 a b = a + b.
Proof. intros H. unfold add64. now apply Z.mod_small. Qed.

Lemma sub64_small a b : 0 <= a - b < two64 -> sub64 a b = a - b.
Proof. intros H. unfold sub64. now apply Z.mod_small. Qed.

Lemma sub64_diag a : sub64 a a = 0.
Proof. unfold sub64. now rewrite Z.sub_diag. Qed.

Lemma sum_amounts_app l1 l2 :
  sum_amounts (l1 ++ l2) = sum_amounts l1 + sum_amounts l2.
Proof.
  induction l1 as [|p l1 IH]; simpl; [reflexivity|].
  fold (sum_amounts (l1 ++ l2)) (sum_amounts l1). lia.
Qed.

Lemma sum_amounts_cons p l : sum_amounts (p :: l) = Amount p + sum_amounts l.
Proof. reflexivity. Qed.

Lemma sum_amounts_nonneg l :
  Forall (fun p => 0 <= Amount p) l -> 0 <= sum_amounts l.
Proof.
  induction 1 as [|p l Hp _ IH]; [reflexivity|].
  rewrite sum_amounts_cons. lia.
Qed.

Lemma positive_nonneg l :
  Forall (fun p => 0 < Amount p < two64) l -> Forall (fun p => 0 <= Amount p) l.
Proof. intros H. eapply Forall_impl; [exact H|]. intros p Hp. simpl in Hp. lia. Qed.

(** The loop of [Total] computes the exact sum modulo [2^64]. *)
Lemma total_loop_mod l t :
  0 <= t < two64 ->
  fold_left (fun total part => add64 total (Amount part)) l t
  = (t + sum_amounts l) mod two64.
Proof.
  revert t. induction l as [|p l IH]; intros t Ht; simpl.
  - rewrite Z.add_0_r. symmetry. now apply Z.mod_small.
  - fold (sum_amounts l). rewrite IH.
    + unfold add64. rewrite Zplus_mod_idemp_l. f_equal. lia.
    + unfold add64. apply Z.mod_pos_bound. reflexivity.
Qed.

Lemma Total_finite f :
  Infinite f = false -> Total f = OK (sum_amounts (Parts f) mod two64).
Proof.
  intros Hf. unfold Total. rewrite Hf. f_equal.
  now rewrite total_loop_mod by (split; [lia | reflexivity]).
Qed.

Lemma copy_parts_id l : copy_parts l = l.
Proof.
  unfold copy_parts. induction l as [|[a c] l IH]; simpl; [reflexivity|].
  now rewrite IH.
Qed.

(** ** [Take] *)

(** The accumulators of the loop are prefixes of its results. *)
Lemma take_loop_acc parts : forall result remainder m,
  take_loop parts result remainder m =
  let st := take_loop parts [] [] m in
  mkTake (result ++ ts_result st) (remainder ++ ts_remainder st)
    (ts_remaining st) (ts_rest st).
Proof.
  induction parts as [|p rest IH]; intros result remainder m; simpl.
  - now rewrite !app_nil_r.
  - destruct (0 <? m); [|simpl; now rewrite !app_nil_r].
    destruct (m <? Amount p).
    + rewrite IH. rewrite (IH [_] [_]). simpl. now rewrite <- !app_assoc.
    + rewrite IH. rewrite (IH [_] []). simpl. now rewrite <- !app_assoc.
Qed.

Lemma take_loop_zero parts : take_loop parts [] [] 0 = mkTake [] [] 0 parts.
Proof. now destruct parts. Qed.


Lemma take_loop_enough parts : forall m,
  Forall (fun p => 0 <= Amount p < two64) parts ->
  0 <= m <= sum_amounts parts -> m < two64 ->
  let st := take_loop parts [] [] m in
  ts_remaining st = 0 /\
  sum_amounts (ts_result st) = m /\
  divides parts (ts_result st) (ts_remainder st) (ts_rest st).
Proof.
  induction parts as [|p rest IH]; intros m Hall Hm Hlt; simpl.
  - simpl in Hm. repeat split; [lia | lia | left; now split].
  - rewrite sum_amounts_cons in Hm. inversion Hall as [|? ? Hp Hrest]; subst.
    destruct (Z.ltb_spec 0 m) as [Hpos|H0].
    + destruct (Z.ltb_spec m (Amount p)) as [Hsplit|Hfull].
      * rewrite sub64_diag, take_loop_acc, take_loop_zero. simpl.
        repeat split; [lia|].
        right. exists [], (Account p), m, (Amount p - m).
        rewrite sub64_small by lia.
        repeat split; try lia.
        destruct p as [amt acc]; simpl in *. do 2 f_equal. lia.
      * rewrite take_loop_acc. rewrite sub64_small by lia.
        destruct (IH (m - Amount p) Hrest ltac:(lia) ltac:(lia)) as (Hr & Hs & Hd).
        simpl. repeat split; [exact Hr | rewrite Hs; lia |].
        destruct Hd as [[Hnil Happ] | (pre & acc & a & b & Ha & Hb & Hparts & Hres & Hrem)].
        -- left. split; [exact Hnil|]. simpl. f_equal; [now destruct p | exact Happ].
        -- right. exists (p :: pre), acc, a, b.
           repeat split; try assumption.
           ++ simpl. now rewrite <- Hparts.
           ++ rewrite Hres. now destruct p.
    + assert (m = 0) by lia. subst m. simpl.
      repeat split. left. now split.
Qed.

Lemma divides_sum parts result remainder rest :
  divides parts result remainder rest ->
  sum_amounts result + sum_amounts (remainder ++ rest) = sum_amounts parts.
Proof.
  intros [[-> <-] | (pre & acc & a & b & _ & _ & -> & -> & ->)].
  - rewrite !sum_amounts_app. simpl. lia.
  - rewrite !sum_amounts_app, !sum_amounts_cons.
    change (sum_amounts []) with 0. simpl. lia.
Qed.

Lemma positive_in_range l :
  Forall (fun p => 0 < Amount p < two64) l ->
  Forall (fun p => 0 <= Amount p < two64) l.
Proof. intros H. eapply Forall_impl; [exact H|]. intros p Hp. simpl in Hp. lia. Qed.

(** C1. For a finite funding [f] with positive amounts and an amount [m] not
    above [Total f], [Take f m] succeeds with a pair [(t, r)] of fundings of
    the asset of [f] such that [Total t = m], [Total r = Total f - m], and
    the parts of [t] followed by those of [r] are the parts of [f] in their
    order, the part at the place of the division alone being possibly cut in
    two parts of its account whose amounts add up to its amount. *)
Theorem Take_partition (f : Funding) (m total : Z) :
  Infinite f = false ->
  positive_parts f ->
  Total f = OK total ->
  0 <= m <= total ->
  exists t r,
    Take f m = OK (t, r) /\
    Total t = OK m /\
    Total r = OK (total - m) /\
    Asset t = Asset f /\ Asset r = Asset f /\
    (Parts t ++ Parts r = Parts f \/
     exists pre post acc a b,
       0 < a /\ 0 < b /\
       Parts f = pre ++ mkPart (a + b) acc :: post /\
       Parts t = pre ++ [mkPart a acc] /\
       Parts r = mkPart b acc :: post).
Proof.
  intros Hfin Hpos Htot Hm.
  rewrite (Total_finite f Hfin) in Htot. injection Htot as Htot.
  pose proof (positive_in_range _ Hpos) as Hrange.
  assert (Hsum : 0 <= sum_amounts (Parts f))
    by (apply sum_amounts_nonneg, positive_nonneg, Hpos).
  pose proof (Z.mod_pos_bound (sum_amounts (Parts f)) two64 two64_pos) as Hbound.
  pose proof (Z.mod_le (sum_amounts (Parts f)) two64 Hsum two64_pos) as Hle.
  destruct (take_loop_enough (Parts f) m Hrange ltac:(lia) ltac:(lia))
    as (Hrem & Hres & Hdiv).
  pose proof (divides_sum _ _ _ _ Hdiv) as Hcons.
  unfold Take. rewrite Hrem, Hfin. simpl. rewrite copy_parts_id.
  eexists _, _. split; [reflexivity|].
  split; [|split; [|split; [reflexivity|split; [reflexivity|]]]].
  - rewrite Total_finite by reflexivity. simpl. rewrite Hres.
    f_equal. apply Z.mod_small. lia.
  - rewrite Total_finite by reflexivity. simpl. f_equal.
    replace (sum_amounts (ts_remainder (take_loop (Parts f) [] [] m)
                            ++ ts_rest (take_loop (Parts f) [] [] m)))
      with (sum_amounts (Parts f) - m) by lia.
    rewrite <- Htot.
    rewrite (Z.div_mod (sum_amounts (Parts f)) two64) at 1 by (unfold two64; lia).
    replace (two64 * (sum_amounts (Parts f) / two64)
             + sum_amounts (Parts f) mod two64 - m)
      with (sum_amounts (Parts f) mod two64 - m
            + (sum_amounts (Parts f) / two64) * two64) by lia.
    rewrite Z.mod_add by (unfold two64; lia).
    apply Z.mod_small. lia.
  - simpl. destruct Hdiv as [[Hnil Happ] | (pre & acc & a & b & Ha & Hb & Hp & Hr & Hq)].
    + left. now rewrite Hnil.
    + right. exists pre, (ts_rest (take_loop (Parts f) [] [] m)), acc, a, b.
      rewrite Hq. repeat split; assumption.
Qed.

Lemma Take_partition_witness :
  exists t r,
    Take (mkFunding "COIN" [mkPart 70 "aaa"; mkPart 30 "bbb"; mkPart 50 "ccc"] false) 80
    = OK (t, r) /\
    Total t = OK 80 /\
    Total r = OK (150 - 80) /\
    Asset t = "COIN" /\ Asset r = "COIN" /\
    (Parts t ++ Parts r = [mkPart 70 "aaa"; mkPart 30 "bbb"; mkPart 50 "ccc"] \/
     exists pre post acc a b,
       0 < a /\ 0 < b /\
       [mkPart 70 "aaa"; mkPart 30 "bbb"; mkPart 50 "ccc"]
       = pre ++ mkPart (a + b) acc :: post /\
       Parts t = pre ++ [mkPart a acc] /\
       Parts r = mkPart b acc :: post).
Proof.
  apply (Take_partition
           (mkFunding "COIN" [mkPart 70 "aaa"; mkPart 30 "bbb"; mkPart 50 "ccc"] false)
           80 150).
  - reflexivity.
  - repeat constructor.
  - reflexivity.
  - lia.
Defined.

(** The same with the exact sums, for any amount up to the exact sum of the
    funding, whether or not that sum fits in 64 bits. *)
Lemma Take_exact (f : Funding) (m : Z) :
  Infinite f = false ->
  positive_parts f ->
  0 <= m <= sum_amounts (Parts f) -> m < two64 ->
  exists t r,
    Take f m = OK (t, r) /\
    sum_amounts (Parts t) = m /\
    sum_amounts (Parts r) = sum_amounts (Parts f) - m.
Proof.
  intros Hfin Hpos Hm Hlt.
  destruct (take_loop_enough (Parts f) m (positive_in_range _ Hpos) Hm Hlt)
    as (Hrem & Hres & Hdiv).
  pose proof (divides_sum _ _ _ _ Hdiv) as Hcons.
  unfold Take. rewrite Hrem, Hfin. simpl. rewrite copy_parts_id.
  eexists _, _. split; [reflexivity|]. simpl. split; [exact Hres | lia].
Qed.

(** ** [TakeMax] *)

(** When the amount asked for covers the whole funding the loop takes every
    part in full; the amounts being positive, it stops after the last one. *)
Lemma take_loop_all parts : forall m,
  Forall (fun p => 0 < Amount p < two64) parts ->
  sum_amounts parts <= m < two64 ->
  take_loop parts [] [] m = mkTake parts [] (m - sum_amounts parts) [].
Proof.
  induction parts as [|p rest IH]; intros m Hall Hm.
  - simpl. f_equal. change (sum_amounts []) with 0. lia.
  - rewrite sum_amounts_cons in *. inversion Hall as [|? ? Hp Hrest]; subst.
    pose proof (sum_amounts_nonneg rest (positive_nonneg _ Hrest)) as Hnn.
    simpl.
    destruct (Z.ltb_spec 0 m) as [_|]; [|lia].
    destruct (Z.ltb_spec m (Amount p)) as [|_]; [lia|].
    rewrite take_loop_acc, sub64_small by lia.
    rewrite (IH (m - Amount p) Hrest) by lia. simpl.
    destruct p as [amt acc]; simpl. f_equal. lia.
Qed.

(** With the exact sum of the amounts in place of [Total], [TakeMax] is
    [Take] of the smaller amount, whether or not the sum fits in 64 bits. *)
Lemma TakeMax_exact (f : Funding) (m : Z) :
  Infinite f = false ->
  positive_parts f ->
  0 <= m < two64 ->
  Take f (Z.min m (sum_amounts (Parts f))) = OK (TakeMax f m).
Proof.
  intros Hfin Hpos Hm.
  destruct (Z.le_gt_cases m (sum_amounts (Parts f))) as [Hle|Hgt].
  - rewrite Z.min_l by assumption.
    destruct (take_loop_enough (Parts f) m (positive_in_range _ Hpos)
                ltac:(lia) ltac:(lia)) as (Hrem & _ & _).
    unfold Take, TakeMax. now rewrite Hrem.
  - rewrite Z.min_r by lia.
    unfold Take, TakeMax.
    rewrite (take_loop_all (Parts f) m Hpos) by lia.
    rewrite (take_loop_all (Parts f) (sum_amounts (Parts f)) Hpos) by lia.
    simpl. rewrite Z.sub_diag, Hfin, andb_false_r. reflexivity.
Qed.

(** C4, as amended. For a finite funding [f] with positive amounts whose sum
    does not exceed the largest [uint64], and for every amount [m],
    [TakeMax f m] is the pair that [Take f (min m (Total f))] returns; the
    latter does not fail, and [TakeMax] has no failure at all. *)
Theorem TakeMax_is_Take_min (f : Funding) (m : Z) :
  Infinite f = false ->
  positive_parts f ->
  sum_amounts (Parts f) <= max_u64 ->
  0 <= m < two64 ->
  exists total,
    Total f = OK total /\ Take f (Z.min m total) = OK (TakeMax f m).
Proof.
  intros Hfin Hpos Hsum Hm.
  exists (sum_amounts (Parts f)). split.
  - rewrite Total_finite by assumption. f_equal.
    apply Z.mod_small. split.
    + apply sum_amounts_nonneg, positive_nonneg, Hpos.
    + unfold max_u64 in Hsum. lia.
  - now apply TakeMax_exact.
Qed.

Lemma TakeMax_is_Take_min_witness :
  exists total,
    Total (mkFunding "COIN" [mkPart 30 "aaa"] false) = OK total /\
    Take (mkFunding "COIN" [mkPart 30 "aaa"] false) (Z.min 80 total)
    = OK (TakeMax (mkFunding "COIN" [mkPart 30 "aaa"] false) 80).
Proof.
  apply (TakeMax_is_Take_min (mkFunding "COIN" [mkPart 30 "aaa"] false) 80).
  - reflexivity.
  - repeat constructor.
  - vm_compute. discriminate.
  - split; [lia | reflexivity].
Defined.

(** C4, as stated, fails where the amounts add up to more than the largest
    [uint64]: [Total] wraps around to 0, and [Take f (min 5 0)] takes nothing
    while [TakeMax f 5] takes 5 from the first part. *)
Lemma TakeMax_is_Take_min_counterexample :
  let f := mkFunding "COIN" [mkPart (2 ^ 63) "aaa"; mkPart (2 ^ 63) "bbb"] false in
  Infinite f = false /\ positive_parts f /\
  Total f = OK 0 /\
  Take f (Z.min 5 0) = OK (mkFunding "COIN" [] false, f) /\
  TakeMax f 5
  = (mkFunding "COIN" [mkPart 5 "aaa"] false,
     mkFunding "COIN" [mkPart (2 ^ 63 - 5) "aaa"; mkPart (2 ^ 63) "bbb"] false) /\
  Take f (Z.min 5 0) <> OK (TakeMax f 5).
Proof.
  repeat split; try reflexivity.
  - repeat constructor.
  - vm_compute. discriminate.
Qed.

(** ** [Concat] *)

Lemma last_snoc_inv {A} (l : list A) (x : A) :
  last l = Some x -> l = removelast l ++ [x].
Proof.
  intros H. destruct l as [|a l] using rev_ind; [discriminate|].
  rewrite last_snoc in H. injection H as ->.
  now rewrite removelast_last.
Qed.

(** The parts of a concatenation: the two sequences one after the other, the
    last part of the first and the first part of the second being merged
    into one when they are of the same account. *)
Lemma concat_parts_cases (parts other : list FundingPart) :
  (exists pre l o post,
      parts = pre ++ [l] /\ other = o :: post /\ Account l = Account o /\
      concat_parts parts other
      = pre ++ mkPart (add64 (Amount l) (Amount o)) (Account l) :: post)
  \/ concat_parts parts other = parts ++ other.
Proof.
  unfold concat_parts.
  destruct (last parts) as [l|] eqn:Hlast; [|now right].
  destruct other as [|o post]; [now right|].
  destruct (String.eqb_spec (Account l) (Account o)) as [Heq|]; [|now right].
  left. exists (removelast parts), l, o, post.
  repeat split; [now apply last_snoc_inv | exact Heq].
Qed.

(** What [concat_parts] returns, case by case: one of the two sequences when
    the other is empty; otherwise the two one after the other, the last part
    of the first and the first part of the second being merged into one part
    exactly when they are of the same account. *)
Lemma concat_parts_exact (parts other : list FundingPart) :
  (parts = [] -> concat_parts parts other = other) /\
  (other = [] -> concat_parts parts other = parts) /\
  (forall pre l o post,
      parts = pre ++ [l] -> other = o :: post ->
      (Account l = Account o ->
       concat_parts parts other
       = pre ++ mkPart (add64 (Amount l) (Amount o)) (Account l) :: post) /\
      (Account l <> Account o -> concat_parts parts other = parts ++ other)).
Proof.
  unfold concat_parts. split; [|split].
  - intros ->. reflexivity.
  - intros ->. rewrite app_nil_r. now destruct (last parts).
  - intros pre l o post -> ->. rewrite last_snoc, removelast_last.
    destruct (String.eqb_spec (Account l) (Account o)) as [Heq|Hne].
    + split; [reflexivity | contradiction].
    + split; [contradiction | reflexivity].
Qed.

Lemma concat_parts_nil_l other : concat_parts [] other = other.
Proof. reflexivity. Qed.

Lemma concat_parts_nil_r parts : concat_parts parts [] = parts.
Proof. unfold concat_parts. destruct (last parts); now rewrite app_nil_r. Qed.

Lemma concat_parts_snoc_cons pre l o post :
  concat_parts (pre ++ [l]) (o :: post)
  = if String.eqb (Account l) (Account o)
    then pre ++ mkPart (add64 (Amount l) (Amount o)) (Account l) :: post
    else pre ++ l :: o :: post.
Proof.
  unfold concat_parts. rewrite last_snoc, removelast_last.
  destruct (String.eqb _ _); [reflexivity|]. now rewrite <- app_assoc.
Qed.

Lemma concat_parts_one_cons l o post :
  concat_parts [l] (o :: post)
  = if String.eqb (Account l) (Account o)
    then mkPart (add64 (Amount l) (Amount o)) (Account l) :: post
    else l :: o :: post.
Proof. exact (concat_parts_snoc_cons [] l o post). Qed.

Lemma add64_assoc a b c : add64 (add64 a b) c = add64 a (add64 b c).
Proof.
  unfold add64. rewrite Zplus_mod_idemp_l, Zplus_mod_idemp_r. f_equal. lia.
Qed.

Lemma concat_parts_assoc (a b c : list FundingPart) :
  concat_parts (concat_parts a b) c = concat_parts a (concat_parts b c).
Proof.
  destruct a as [|la pa _] using rev_ind; [reflexivity|].
  destruct c as [|oc pc]; [now rewrite !concat_parts_nil_r|].
  destruct b as [|ob b]; [now rewrite concat_parts_nil_r|].
  destruct b as [|lb mid _] using rev_ind.
  - (* [b] has one part *)
    rewrite (concat_parts_snoc_cons pa la ob []).
    rewrite (concat_parts_one_cons ob oc pc).
    destruct (String.eqb_spec (Account la) (Account ob)) as [Hab|Hab];
      destruct (String.eqb_spec (Account ob) (Account oc)) as [Hbc|Hbc].
    + rewrite (concat_parts_snoc_cons pa _ oc pc), !concat_parts_snoc_cons.
      simpl. rewrite Hab, Hbc, !String.eqb_refl, add64_assoc. reflexivity.
    + rewrite (concat_parts_snoc_cons pa _ oc pc), !concat_parts_snoc_cons.
      simpl. rewrite Hab, String.eqb_refl.
      destruct (String.eqb_spec (Account ob) (Account oc)); [contradiction|].
      reflexivity.
    + replace (pa ++ [la; ob]) with ((pa ++ [la]) ++ [ob]) by now rewrite <- app_assoc.
      rewrite !concat_parts_snoc_cons. simpl. rewrite Hbc, String.eqb_refl.
      destruct (String.eqb_spec (Account la) (Account oc)); [congruence|].
      now rewrite <- app_assoc.
    + replace (pa ++ [la; ob]) with ((pa ++ [la]) ++ [ob]) by now rewrite <- app_assoc.
      rewrite !concat_parts_snoc_cons.
      destruct (String.eqb_spec (Account ob) (Account oc)); [contradiction|].
      destruct (String.eqb_spec (Account la) (Account ob)); [contradiction|].
      now rewrite <- app_assoc.
  - (* [b] has at least two parts *)
    rewrite (concat_parts_snoc_cons pa la ob (mid ++ [lb])).
    change (ob :: mid ++ [lb]) with ((ob :: mid) ++ [lb]).
    rewrite (concat_parts_snoc_cons (ob :: mid) lb oc pc).
    destruct (String.eqb_spec (Account la) (Account ob)) as [Hab|Hab];
      destruct (String.eqb_spec (Account lb) (Account oc)) as [Hbc|Hbc].
    + replace (pa ++ mkPart (add64 (Amount la) (Amount ob)) (Account la) :: mid ++ [lb])
        with ((pa ++ mkPart (add64 (Amount la) (Amount ob)) (Account la) :: mid) ++ [lb])
        by now rewrite <- app_assoc.
      rewrite concat_parts_snoc_cons. simpl app. rewrite concat_parts_snoc_cons.
      rewrite Hab, Hbc, !String.eqb_refl. now rewrite <- app_assoc.
    + replace (pa ++ mkPart (add64 (Amount la) (Amount ob)) (Account la) :: mid ++ [lb])
        with ((pa ++ mkPart (add64 (Amount la) (Amount ob)) (Account la) :: mid) ++ [lb])
        by now rewrite <- app_assoc.
      rewrite concat_parts_snoc_cons. simpl app. rewrite concat_parts_snoc_cons.
      rewrite Hab, String.eqb_refl.
      destruct (String.eqb_spec (Account lb) (Account oc)); [contradiction|].
      now rewrite <- !app_assoc.
    + simpl app.
      replace (pa ++ la :: ob :: mid ++ [lb])
        with ((pa ++ la :: ob :: mid) ++ [lb])
        by (rewrite <- app_assoc; reflexivity).
      rewrite concat_parts_snoc_cons. simpl app. rewrite concat_parts_snoc_cons.
      rewrite Hbc, String.eqb_refl.
      destruct (String.eqb_spec (Account la) (Account ob)); [contradiction|].
      now rewrite <- !app_assoc.
    + simpl app.
      replace (pa ++ la :: ob :: mid ++ [lb])
        with ((pa ++ la :: ob :: mid) ++ [lb])
        by (rewrite <- app_assoc; reflexivity).
      rewrite concat_parts_snoc_cons. simpl app. rewrite concat_parts_snoc_cons.
      destruct (String.eqb_spec (Account la) (Account ob)); [contradiction|].
      destruct (String.eqb_spec (Account lb) (Account oc)); [contradiction|].
      now rewrite <- !app_assoc.
Qed.

(** [join_parts] is what [concat_parts] computes. *)
Lemma join_parts_concat (parts other : list FundingPart) :
  concat_parts parts other = join_parts parts other.
Proof.
  induction parts as [|p parts IH]; [reflexivity|].
  destruct parts as [|q parts].
  - destruct other as [|o post]; [reflexivity|].
    rewrite concat_parts_one_cons. reflexivity.
  - change (join_parts (p :: q :: parts) other) with (p :: join_parts (q :: parts) other).
    rewrite <- IH. unfold concat_parts.
    change (last (p :: q :: parts)) with (last (q :: parts)).
    change (removelast (p :: q :: parts)) with (p :: removelast (q :: parts)).
    destruct (last (q :: parts)) as [l|]; [|reflexivity].
    destruct other as [|o post]; [reflexivity|].
    destruct (String.eqb _ _); reflexivity.
Qed.

(** C2, as amended. For two fundings [f] and [g] of the same asset of which at
    least one is infinite, [Concat f g] is infinite. When [f] is infinite its
    parts are those of [f], the parts of [g] being dropped. When only [g] is
    infinite the parts of [g] are appended to those of [f] as for finite
    fundings: when one of the two has no parts the result has the parts of
    the other; otherwise the last part of [f] and the first part of [g] are
    merged into one part, with the sum of the amounts modulo [2^64], when
    they are of the same account, and kept as two parts when they are not. *)
Theorem Concat_infinite (f g : Funding) :
  Asset f = Asset g ->
  Infinite f = true \/ Infinite g = true ->
  exists r,
    Concat f g = OK r /\ Infinite r = true /\ Asset r = Asset f /\
    (Infinite f = true -> Parts r = Parts f) /\
    (Infinite f = false ->
       (Parts f = [] -> Parts r = Parts g) /\
       (Parts g = [] -> Parts r = Parts f) /\
       (forall pre l o post,
           Parts f = pre ++ [l] -> Parts g = o :: post ->
           (Account l = Account o ->
            Parts r = pre ++ mkPart (add64 (Amount l) (Amount o)) (Account l) :: post) /\
           (Account l <> Account o -> Parts r = Parts f ++ Parts g))).
Proof.
  intros Hasset Hinf. unfold Concat.
  rewrite Hasset, String.eqb_refl. simpl.
  destruct (Infinite f) eqn:Hf; simpl.
  - eexists. split; [reflexivity|]. simpl.
    repeat split; intros; try reflexivity; discriminate.
  - destruct Hinf as [|Hg]; [discriminate|]. rewrite Hg.
    eexists. split; [reflexivity|]. simpl.
    split; [reflexivity|]. split; [reflexivity|]. split; [discriminate|]. intros _.
    exact (concat_parts_exact (Parts f) (Parts g)).
Qed.

Lemma Concat_infinite_witness :
  (exists r,
      Concat (mkFunding "COIN" [mkPart 1 "aaa"; mkPart 2 "bbb"] false)
             (mkFunding "COIN" [mkPart 3 "bbb"; mkPart 4 "ccc"] true) = OK r /\
      Infinite r = true /\
      Parts r = [mkPart 1 "aaa"; mkPart 5 "bbb"; mkPart 4 "ccc"]) /\
  (exists r,
      Concat (mkFunding "COIN" [mkPart 1 "aaa"] false)
             (mkFunding "COIN" [mkPart 2 "bbb"] true) = OK r /\
      Infinite r = true /\
      Parts r = [mkPart 1 "aaa"; mkPart 2 "bbb"]) /\
  (exists r,
      Concat (mkFunding "COIN" [mkPart 1 "aaa"] true)
             (mkFunding "COIN" [mkPart 2 "bbb"] false) = OK r /\
      Infinite r = true /\
      Parts r = [mkPart 1 "aaa"]).
Proof.
  split; [|split].
  - destruct (Concat_infinite
                (mkFunding "COIN" [mkPart 1 "aaa"; mkPart 2 "bbb"] false)
                (mkFunding "COIN" [mkPart 3 "bbb"; mkPart 4 "ccc"] true)
                eq_refl (or_intror eq_refl))
      as (r & Hr & Hinf & _ & _ & Hfin).
    exists r. split; [exact Hr|]. split; [exact Hinf|].
    destruct (Hfin eq_refl) as (_ & _ & Hjoin).
    destruct (Hjoin [mkPart 1 "aaa"] (mkPart 2 "bbb") (mkPart 3 "bbb") [mkPart 4 "ccc"]
                eq_refl eq_refl) as [Hsame _].
    exact (Hsame eq_refl).
  - destruct (Concat_infinite
                (mkFunding "COIN" [mkPart 1 "aaa"] false)
                (mkFunding "COIN" [mkPart 2 "bbb"] true)
                eq_refl (or_intror eq_refl))
      as (r & Hr & Hinf & _ & _ & Hfin).
    exists r. split; [exact Hr|]. split; [exact Hinf|].
    destruct (Hfin eq_refl) as (_ & _ & Hjoin).
    destruct (Hjoin [] (mkPart 1 "aaa") (mkPart 2 "bbb") [] eq_refl eq_refl)
      as [_ Hdiff].
    apply Hdiff. discriminate.
  - destruct (Concat_infinite
                (mkFunding "COIN" [mkPart 1 "aaa"] true)
                (mkFunding "COIN" [mkPart 2 "bbb"] false)
                eq_refl (or_introl eq_refl))
      as (r & Hr & Hinf & _ & Hdrop & _).
    exists r. split; [exact Hr|]. split; [exact Hinf|]. exact (Hdrop eq_refl).
Defined.

(** C2, as stated, fails for a finite [f] and an infinite [g] that has parts
    (such a [g] is itself the concatenation of a finite funding and the
    infinite one): the parts of [g] are appended, not dropped. *)
Lemma Concat_infinite_counterexample :
  let f := mkFunding "COIN" [mkPart 1 "aaa"] false in
  let g := mkFunding "COIN" [mkPart 2 "bbb"] true in
  Concat (mkFunding "COIN" [mkPart 2 "bbb"] false) (mkFunding "COIN" [] true) = OK g /\
  Asset f = Asset g /\ Infinite g = true /\
  Concat f g = OK (mkFunding "COIN" [mkPart 1 "aaa"; mkPart 2 "bbb"] true) /\
  forall r, Concat f g = OK r -> Parts r <> Parts f.
Proof.
  repeat split. intros r H. injection H as <-. discriminate.
Qed.

(** ** [Equals] *)

Lemma part_eqb_eq p q : part_eqb p q = true <-> p = q.
Proof.
  unfold part_eqb. rewrite andb_true_iff, Z.eqb_eq, String.eqb_eq.
  destruct p, q; simpl. split.
  - now intros [-> ->].
  - intros H. injection H as -> ->. now split.
Qed.

Lemma equals_loop_eq l : forall r,
  length l = length r -> (equals_loop l r = true <-> l = r).
Proof.
  induction l as [|p l IH]; intros [|q r] Hlen; simpl in *; try discriminate.
  - tauto.
  - injection Hlen as Hlen.
    destruct (part_eqb p q) eqn:Hpq; simpl.
    + apply part_eqb_eq in Hpq. subst q. rewrite (IH r Hlen).
      split; [now intros -> | intros H; now injection H].
    + split; [discriminate|]. intros H. injection H as -> _.
      assert (part_eqb q q = true) by now apply part_eqb_eq. congruence.
Qed.

(** What [Equals] decides: the assets and the parts, nothing else. *)
Lemma Equals_asset_parts lhs rhs :
  Equals lhs rhs = true <-> Asset lhs = Asset rhs /\ Parts lhs = Parts rhs.
Proof.
  unfold Equals.
  destruct (String.eqb_spec (Asset lhs) (Asset rhs)) as [Ha|Ha]; simpl.
  - destruct (Nat.eqb_spec (length (Parts lhs)) (length (Parts rhs))) as [Hl|Hl];
      simpl.
    + rewrite (equals_loop_eq _ _ Hl). tauto.
    + split; [discriminate|]. intros [_ H]. now rewrite H in Hl.
  - split; [discriminate|]. now intros [H _].
Qed.

(** C9. [Equals] at two fundings that differ in the infinite flag alone: it
    answers [true], where structural equality over all the fields is false. *)
Theorem Equals_ignores_Infinite :
  let lhs := mkFunding "COIN" [] true in
  let rhs := mkFunding "COIN" [] false in
  Equals lhs rhs = true /\ Infinite lhs <> Infinite rhs /\ lhs <> rhs.
Proof. repeat split; discriminate. Qed.

(** * Properties of the machine *)

Section MachineProperties.
Context {ext : Extern}.

(** ** The stack helpers on a stack whose top is known *)

Lemma popValue_top (m : Machine) s v :
  Stack m = s ++ [v] -> popValue m = Cont v (set_Stack m s).
Proof.
  intros H. unfold popValue. now rewrite H, last_snoc, removelast_last.
Qed.

Lemma popNumber_top (m : Machine) s n :
  Stack m = s ++ [VNumber n] -> popNumber m = Cont n (set_Stack m s).
Proof. intros H. unfold popNumber, bind. now rewrite (popValue_top m s _ H). Qed.

Lemma popFunding_top (m : Machine) s f :
  Stack m = s ++ [VFunding f] -> popFunding m = Cont f (set_Stack m s).
Proof. intros H. unfold popFunding, bind. now rewrite (popValue_top m s _ H). Qed.

Lemma popAccount_top (m : Machine) s a :
  Stack m = s ++ [VAccount a] -> popAccount m = Cont a (set_Stack m s).
Proof. intros H. unfold popAccount, bind. now rewrite (popValue_top m s _ H). Qed.

Lemma popAsset_top (m : Machine) s a :
  Stack m = s ++ [VAsset a] -> popAsset m = Cont a (set_Stack m s).
Proof. intros H. unfold popAsset, bind. now rewrite (popValue_top m s _ H). Qed.

Lemma snoc2 {A} (s : list A) x y : s ++ [x; y] = (s ++ [x]) ++ [y].
Proof. now rewrite <- app_assoc. Qed.

(** [tick] at an instruction that decodes to [o]. *)
Lemma tick_decode (m : Machine) op o :
  Instructions (Program m) !! P m = Some op ->
  opcode_of op = Some o ->
  tick m = match exec (Some o) m with
           | Cont _ m1 => advance m1
           | Return m1 code => Return m1 code
           | Panic => Panic
           end.
Proof. intros Hop Hdec. unfold tick. now rewrite Hop, Hdec. Qed.

(** After the switch [tick] goes on or ends with [EXIT_OK], the program
    counter one further. *)
Lemma advance_cases (m1 : Machine) :
  advance m1 = Cont tt (set_P m1 (P m1 + 1)) \/
  advance m1 = Return (set_P m1 (P m1 + 1)) EXIT_OK.
Proof. unfold advance. simpl. destruct (_ <=? _)%nat; [now right | now left]. Qed.

Lemma advance_code (m1 m' : Machine) code :
  advance m1 = Return m' code -> code = EXIT_OK.
Proof.
  unfold advance. destruct (_ <=? _)%nat; [|discriminate].
  intros H. now injection H as _ <-.
Qed.

(** ** [OP_ISUB] *)

(** C5, as amended. With the Numbers [a] and [b] on top of the stack, [b]
    topmost, [OP_ISUB] pushes the difference modulo [2^64] and [tick] goes on
    as after any instruction: [a - b] when [a >= b], and [a - b + 2^64] when
    [a < b]; it does not fail: if [tick] returns at all, it is with [EXIT_OK]
    at the end of the instructions. *)
Theorem ISUB_wraps (m : Machine) op s a b :
  Instructions (Program m) !! P m = Some op ->
  opcode_of op = Some OP_ISUB ->
  Stack m = s ++ [VNumber a; VNumber b] ->
  is_u64 a -> is_u64 b ->
  tick m = advance (set_Stack m (s ++ [VNumber (sub64 a b)])) /\
  (forall m' code, tick m = Return m' code -> code = EXIT_OK) /\
  (b <= a -> sub64 a b = a - b) /\
  (a < b -> sub64 a b = a - b + two64).
Proof.
  intros Hop Hdec Hstack Ha Hb. unfold is_u64 in *.
  assert (Htick : tick m = advance (set_Stack m (s ++ [VNumber (sub64 a b)]))).
  { rewrite (tick_decode m op _ Hop Hdec). simpl. unfold bind.
    rewrite snoc2 in Hstack.
    rewrite (popNumber_top m _ b Hstack).
    rewrite (popNumber_top (set_Stack m (s ++ [VNumber a])) s a eq_refl).
    reflexivity. }
  split; [exact Htick|]. split; [|split].
  - intros m' code. rewrite Htick. apply advance_code.
  - intros Hle. apply sub64_small. lia.
  - intros Hlt. unfold sub64.
    rewrite <- (Z.mod_add (a - b) 1 two64) by (unfold two64; lia).
    apply Z.mod_small. lia.
Qed.

(** ** [OP_FUNDING_SUM] *)

(** C3, as amended. With a finite funding on top of the stack,
    [OP_FUNDING_SUM] pushes it back, then the Monetary of the sum of its
    amounts modulo [2^64], and [tick] goes on as after any instruction,
    whether or not the sum exceeds the largest [uint64]: if [tick] returns at
    all, it is with [EXIT_OK] at the end of the instructions. Only an
    infinite funding makes [tick] return [EXIT_FAIL_INVALID]. *)
Theorem FUNDING_SUM_wraps (m : Machine) op s f :
  Instructions (Program m) !! P m = Some op ->
  opcode_of op = Some OP_FUNDING_SUM ->
  Stack m = s ++ [VFunding f] ->
  (Infinite f = false ->
     Total f = OK (sum_amounts (Parts f) mod two64) /\
     tick m = advance (set_Stack m
                (s ++ [VFunding f;
                       VMonetary (mkMonetary (Asset f)
                                    (sum_amounts (Parts f) mod two64))])) /\
     (forall m' code, tick m = Return m' code -> code = EXIT_OK)) /\
  (Infinite f = true -> tick m = Return (set_Stack m s) EXIT_FAIL_INVALID).
Proof.
  intros Hop Hdec Hstack.
  rewrite (tick_decode m op _ Hop Hdec). simpl. unfold bind.
  rewrite (popFunding_top m s f Hstack). split; intros Hinf.
  - rewrite (Total_finite f Hinf). split; [reflexivity|].
    unfold pushValue. simpl. rewrite <- app_assoc. simpl.
    split; [reflexivity|]. intros m' code. apply advance_code.
  - unfold Total. now rewrite Hinf.
Qed.


(** ** [OP_FUNDING_ASSEMBLE] *)

Lemma to_int_small n : 0 <= n < 2 ^ 63 -> to_int n = n.
Proof. intros H. unfold to_int. destruct (Z.ltb_spec n (2 ^ 63)); lia. Qed.

(** The first loop pops the fundings from the top down. *)
Lemma pop_fundings_top asset (l : list Funding) : forall (m : Machine) s,
  Stack m = s ++ map VFunding l ->
  Forall (fun f => Asset f = asset) l ->
  pop_fundings (length l) asset m = Cont (rev l) (set_Stack m s).
Proof.
  induction l as [|f l IH] using rev_ind; intros m s Hstack Hall.
  - simpl in *. rewrite app_nil_r in Hstack. unfold ret.
    destruct m; simpl in *. now subst.
  - rewrite length_app, Nat.add_comm. simpl.
    rewrite map_app, app_assoc in Hstack. simpl in Hstack.
    apply Forall_app in Hall as [Hl Hf]. inversion Hf as [|? ? Hfa _]; subst.
    unfold bind at 1. rewrite (popFunding_top m _ f Hstack).
    rewrite String.eqb_refl. simpl. unfold bind at 1.
    rewrite (IH (set_Stack m (s ++ map VFunding l)) s eq_refl Hl).
    unfold ret. now rewrite rev_unit.
Qed.

(** The second loop does not fail on fundings of one asset. *)
Lemma assemble_same_asset (fs : list Funding) : forall result,
  Forall (fun f => Asset f = Asset result) fs ->
  exists r, assemble result fs = OK r /\ Asset r = Asset result.
Proof.
  induction fs as [|f fs IH]; intros result Hall; simpl.
  - now exists result.
  - inversion Hall as [|? ? Hf Hfs]; subst.
    unfold Concat. rewrite Hf, String.eqb_refl. simpl.
    destruct (negb (Infinite result)).
    + destruct (IH (mkFunding (Asset f)
                      (concat_parts (Parts result) (Parts f))
                      (Infinite result || Infinite f))) as (r & Hr & Ha).
      { simpl. eapply Forall_impl; [exact Hfs|]. simpl. congruence. }
      exists r. rewrite <- Hf. split; [exact Hr | exact Ha].
    + destruct (IH (mkFunding (Asset f) (Parts result)
                      (Infinite result || Infinite f))) as (r & Hr & Ha).
      { simpl. eapply Forall_impl; [exact Hfs|]. simpl. congruence. }
      exists r. rewrite <- Hf. split; [exact Hr | exact Ha].
Qed.

(** Without a merge at a junction and without an infinite funding, the parts
    of the result are those of the fundings in the order of the list. *)
Lemma concat_parts_distinct (parts other : list FundingPart) :
  NoDup (map Account (parts ++ other)) ->
  concat_parts parts other = parts ++ other.
Proof.
  intros Hnd.
  destruct (concat_parts_cases parts other)
    as [(pre & l & o & post & -> & -> & Heq & _)|H]; [|exact H].
  exfalso. rewrite <- app_assoc, map_app in Hnd. simpl in Hnd.
  apply NoDup_app in Hnd as (_ & _ & Hnd).
  inversion Hnd as [|? ? Hnotin _]; subst. apply Hnotin. rewrite Heq. left.
Qed.

Lemma assemble_distinct (fs : list Funding) : forall result r,
  Infinite result = false ->
  Forall (fun f => Infinite f = false) fs ->
  NoDup (map Account (Parts result ++ concat (map Parts fs))) ->
  assemble result fs = OK r ->
  Parts r = Parts result ++ concat (map Parts fs).
Proof.
  induction fs as [|f fs IH]; intros result r Hres Hall Hnd Hr; simpl in *.
  - injection Hr as <-. now rewrite app_nil_r.
  - inversion Hall as [|? ? Hf Hfs]; subst.
    unfold Concat in Hr. destruct (negb (String.eqb _ _)); [discriminate|].
    rewrite Hres, Hf in Hr. simpl in Hr.
    assert (Hcp : concat_parts (Parts result) (Parts f) = Parts result ++ Parts f).
    { apply concat_parts_distinct. rewrite app_assoc, map_app in Hnd.
      now apply NoDup_app in Hnd as (Hnd & _ & _). }
    rewrite Hcp in Hr.
    apply IH in Hr;
      [ simpl in Hr; now rewrite <- app_assoc in Hr
      | reflexivity | exact Hfs | simpl; now rewrite <- app_assoc ].
Qed.

(** Once the result is infinite the loop adds no parts. *)
Lemma assemble_infinite (fs : list Funding) : forall result r,
  Infinite result = true ->
  assemble result fs = OK r ->
  Parts r = Parts result /\ Infinite r = true.
Proof.
  induction fs as [|f fs IH]; intros result r Hinf Hr; simpl in Hr.
  - injection Hr as <-. auto.
  - unfold Concat in Hr. destruct (negb (String.eqb _ _)); [discriminate|].
    rewrite Hinf in Hr. simpl in Hr.
    now apply IH in Hr.
Qed.

Lemma join_parts_nil_r parts : join_parts parts [] = parts.
Proof. rewrite <- join_parts_concat. apply concat_parts_nil_r. Qed.

Lemma join_parts_assoc a b c :
  join_parts (join_parts a b) c = join_parts a (join_parts b c).
Proof. rewrite <- !join_parts_concat. apply concat_parts_assoc. Qed.

(** The loop of [OP_FUNDING_ASSEMBLE] gives the parts in the order of the
    list, joined, up to the first infinite funding. *)
Lemma assemble_in_order (fs : list Funding) : forall result r,
  Infinite result = false ->
  assemble result fs = OK r ->
  Parts r = join_parts (Parts result) (parts_in_order fs) /\
  Infinite r = existsb Infinite fs.
Proof.
  induction fs as [|f fs IH]; intros result r Hfin Hr; simpl in Hr.
  - injection Hr as <-. simpl. now rewrite join_parts_nil_r.
  - unfold Concat in Hr. destruct (negb (String.eqb _ _)); [discriminate|].
    rewrite Hfin in Hr. simpl in Hr. simpl.
    destruct (Infinite f) eqn:Hf.
    + apply assemble_infinite in Hr as [Hparts Hinf]; [|reflexivity].
      simpl in Hparts. now rewrite Hparts, join_parts_concat.
    + apply IH in Hr as [Hparts Hinf]; [|reflexivity].
      simpl in Hparts. now rewrite Hparts, join_parts_concat, join_parts_assoc.
Qed.

(** C6, as amended. With [n >= 1] fundings of one asset on the stack below
    the Number [n], [fs] listing them from the deepest to the topmost,
    [OP_FUNDING_ASSEMBLE] pops the count and the fundings and pushes their
    concatenation by [Concat] folded from the left over [fs], starting from
    the empty funding. The result is of the asset of the fundings and is
    infinite exactly when one of them is. Its parts are those of the deepest
    funding first, followed by those of each funding above it in turn, up to
    the first infinite funding, the fundings above that one giving no parts;
    where the last part so far and the first part of what follows are of the
    same account the two are merged into one. Where no funding is infinite
    and no account occurs twice, the parts of the result are exactly the
    parts of the fundings from the deepest to the topmost. *)
Theorem FUNDING_ASSEMBLE_order (m : Machine) op s (fs : list Funding) asset :
  Instructions (Program m) !! P m = Some op ->
  opcode_of op = Some OP_FUNDING_ASSEMBLE ->
  Stack m = s ++ map VFunding fs ++ [VNumber (Z.of_nat (length fs))] ->
  (1 <= length fs)%nat ->
  Z.of_nat (length fs) < 2 ^ 63 ->
  Forall (fun f => Asset f = asset) fs ->
  exists r,
    assemble (mkFunding asset [] false) fs = OK r /\
    tick m = advance (set_Stack m (s ++ [VFunding r])) /\
    Asset r = asset /\
    Infinite r = existsb Infinite fs /\
    Parts r = parts_in_order fs /\
    (Forall (fun f => Infinite f = false) fs ->
     NoDup (map Account (concat (map Parts fs))) ->
     Parts r = concat (map Parts fs)).
Proof.
  intros Hop Hdec Hstack Hn Hsmall Hall.
  destruct (assemble_same_asset fs (mkFunding asset [] false) Hall) as (r & Hr & Ha).
  exists r. split; [exact Hr|]. split; [|split; [exact Ha|]].
  - clear Ha. rewrite (tick_decode m op _ Hop Hdec). simpl. unfold bind at 1.
    rewrite app_assoc in Hstack.
    rewrite (popNumber_top m _ _ Hstack).
    rewrite to_int_small by lia.
    destruct (Z.eqb_spec (Z.of_nat (length fs)) 0) as [|_]; [lia|].
    destruct fs as [|top deeper] using rev_ind; [simpl in Hn; lia|]. clear IHdeeper.
    rewrite map_app, app_assoc in *. simpl in *.
    apply Forall_app in Hall as [Hdeep Htop].
    inversion Htop as [|? ? Hta _]; subst.
    unfold bind at 1.
    rewrite (popFunding_top (set_Stack m ((s ++ map VFunding deeper) ++ [VFunding top]))
               _ top eq_refl).
    destruct (Z.ltb_spec (Z.of_nat (length (deeper ++ [top]))) 0) as [|_]; [lia|].
    unfold bind at 1.
    replace (Z.to_nat (Z.of_nat (length (deeper ++ [top])) - 1)) with (length deeper)
      by (rewrite length_app; simpl; lia).
    rewrite (pop_fundings_top (Asset top) deeper _ s)
      by first [reflexivity | exact Hdeep].
    rewrite rev_involutive, Hr.
    reflexivity.
  - destruct (assemble_in_order fs (mkFunding asset [] false) r eq_refl Hr)
      as [Hparts Hinf].
    split; [exact Hinf|]. split; [exact Hparts|].
    intros Hfin Hnd.
    apply (assemble_distinct fs (mkFunding asset [] false) r);
      [reflexivity | exact Hfin | exact Hnd | exact Hr].
Qed.

End MachineProperties.

(** ** The three instructions on concrete machines *)

Lemma ISUB_wraps_witness :
  tick (machine_of [Byte.x04] [VNumber 5; VNumber 3] ∅)
  = advance (set_Stack (machine_of [Byte.x04] [VNumber 5; VNumber 3] ∅)
               ([] ++ [VNumber (sub64 5 3)])) /\
  (forall m' code,
      tick (machine_of [Byte.x04] [VNumber 5; VNumber 3] ∅) = Return m' code ->
      code = EXIT_OK) /\
  (3 <= 5 -> sub64 5 3 = 5 - 3) /\
  (5 < 3 -> sub64 5 3 = 5 - 3 + two64).
Proof.
  apply (ISUB_wraps (machine_of [Byte.x04] [VNumber 5; VNumber 3] ∅)
           Byte.x04 [] 5 3).
  - reflexivity.
  - reflexivity.
  - reflexivity.
  - split; [lia | reflexivity].
  - split; [lia | reflexivity].
Defined.

(** C5, as stated, fails at [a = 0] and [b = 1]: [OP_ISUB] pushes
    [2^64 - 1] and [tick] goes on; the program [ISUB; PRINT] prints that
    number and ends with [EXIT_OK]. *)
Lemma ISUB_counterexample :
  0 < 1 /\
  (exists m',
      tick (machine_of [Byte.x04; Byte.x05] [VNumber 0; VNumber 1] ∅) = Cont tt m' /\
      Stack m' = [VNumber 18446744073709551615]) /\
  (exists m',
      Execute (machine_of [Byte.x04; Byte.x05] [VNumber 0; VNumber 1] ∅)
      = Some (Exited m' EXIT_OK) /\
      print_chan m' = [VNumber 18446744073709551615]).
Proof.
  split; [reflexivity|]. split; eexists; split; vm_compute; reflexivity.
Qed.

Lemma FUNDING_SUM_wraps_witness :
  (false = false ->
     Total (mkFunding "COIN" [mkPart 70 "aaa"; mkPart 30 "bbb"] false)
     = OK ((70 + (30 + 0)) mod two64) /\
     tick (machine_of [Byte.x0f]
             [VFunding (mkFunding "COIN" [mkPart 70 "aaa"; mkPart 30 "bbb"] false)] ∅)
     = advance (set_Stack
                  (machine_of [Byte.x0f]
                     [VFunding (mkFunding "COIN" [mkPart 70 "aaa"; mkPart 30 "bbb"] false)] ∅)
                  ([] ++ [VFunding (mkFunding "COIN" [mkPart 70 "aaa"; mkPart 30 "bbb"] false);
                          VMonetary (mkMonetary "COIN" ((70 + (30 + 0)) mod two64))])) /\
     (forall m' code,
         tick (machine_of [Byte.x0f]
                 [VFunding (mkFunding "COIN" [mkPart 70 "aaa"; mkPart 30 "bbb"] false)] ∅)
         = Return m' code ->
         code = EXIT_OK)) /\
  (false = true ->
     tick (machine_of [Byte.x0f]
             [VFunding (mkFunding "COIN" [mkPart 70 "aaa"; mkPart 30 "bbb"] false)] ∅)
     = Return (set_Stack
                 (machine_of [Byte.x0f]
                    [VFunding (mkFunding "COIN" [mkPart 70 "aaa"; mkPart 30 "bbb"] false)] ∅)
                 []) EXIT_FAIL_INVALID).
Proof.
  apply (FUNDING_SUM_wraps
           (machine_of [Byte.x0f]
              [VFunding (mkFunding "COIN" [mkPart 70 "aaa"; mkPart 30 "bbb"] false)] ∅)
           Byte.x0f []
           (mkFunding "COIN" [mkPart 70 "aaa"; mkPart 30 "bbb"] false)).
  - reflexivity.
  - reflexivity.
  - reflexivity.
Defined.

(** C3, as stated, fails on the funding of [2^64 - 1] and [1]: its amounts
    add up to [2^64], [Total] returns 0 without an error, [OP_FUNDING_SUM]
    pushes the Monetary of amount 0, and the program
    [FUNDING_SUM; PRINT; PRINT] ends with [EXIT_OK]. *)
Lemma FUNDING_SUM_counterexample :
  let f := mkFunding "COIN" [mkPart 18446744073709551615 "aaa"; mkPart 1 "bbb"] false in
  max_u64 < sum_amounts (Parts f) /\
  Total f = OK 0 /\
  (exists m',
      tick (machine_of [Byte.x0f; Byte.x05; Byte.x05] [VFunding f] ∅) = Cont tt m' /\
      Stack m' = [VFunding f; VMonetary (mkMonetary "COIN" 0)]) /\
  (exists m',
      Execute (machine_of [Byte.x0f; Byte.x05; Byte.x05] [VFunding f] ∅)
      = Some (Exited m' EXIT_OK) /\
      print_chan m' = [VMonetary (mkMonetary "COIN" 0); VFunding f]).
Proof.
  split; [reflexivity|]. split; [vm_compute; reflexivity|].
  split; eexists; split; vm_compute; reflexivity.
Qed.

Lemma FUNDING_ASSEMBLE_order_witness :
  exists r,
    tick (machine_of [Byte.x0e]
            [VFunding (mkFunding "COIN" [mkPart 2 "bbb"] false);
             VFunding (mkFunding "COIN" [mkPart 1 "bbb"; mkPart 7 "zzz"] true);
             VFunding (mkFunding "COIN" [mkPart 1 "aaa"] false); VNumber 3] ∅)
    = advance (set_Stack
                 (machine_of [Byte.x0e]
                    [VFunding (mkFunding "COIN" [mkPart 2 "bbb"] false);
                     VFunding (mkFunding "COIN" [mkPart 1 "bbb"; mkPart 7 "zzz"] true);
                     VFunding (mkFunding "COIN" [mkPart 1 "aaa"] false); VNumber 3] ∅)
                 ([] ++ [VFunding r])) /\
    Asset r = "COIN" /\ Infinite r = true /\
    Parts r = [mkPart 3 "bbb"; mkPart 7 "zzz"].
Proof.
  destruct (FUNDING_ASSEMBLE_order
              (machine_of [Byte.x0e]
                 [VFunding (mkFunding "COIN" [mkPart 2 "bbb"] false);
                  VFunding (mkFunding "COIN" [mkPart 1 "bbb"; mkPart 7 "zzz"] true);
                  VFunding (mkFunding "COIN" [mkPart 1 "aaa"] false); VNumber 3] ∅)
              Byte.x0e []
              [mkFunding "COIN" [mkPart 2 "bbb"] false;
               mkFunding "COIN" [mkPart 1 "bbb"; mkPart 7 "zzz"] true;
               mkFunding "COIN" [mkPart 1 "aaa"] false]
              "COIN" eq_refl eq_refl eq_refl)
    as (r & _ & Htick & Hasset & Hinf & Hparts & _).
  - simpl. lia.
  - reflexivity.
  - repeat constructor.
  - exists r. split; [exact Htick|]. split; [exact Hasset|].
    split; [exact Hinf | exact Hparts].
Defined.

(** C6, as stated, fails with two fundings: the parts of the topmost funding
    ([aaa]) come last in the result, after those of the deeper one ([bbb]). *)
Lemma FUNDING_ASSEMBLE_counterexample :
  let deeper := mkFunding "COIN" [mkPart 2 "bbb"] false in
  let top := mkFunding "COIN" [mkPart 1 "aaa"] false in
  exists m' r,
    tick (machine_of [Byte.x0e; Byte.x05] [VFunding deeper; VFunding top; VNumber 2] ∅)
    = Cont tt m' /\
    Stack m' = [VFunding r] /\
    Parts r = [mkPart 2 "bbb"; mkPart 1 "aaa"] /\
    Parts r <> Parts top ++ Parts deeper.
Proof.
  eexists _, _. split; [vm_compute; reflexivity|]. split; [reflexivity|].
  split; [reflexivity | discriminate].
Qed.


(** ** [repay] and [OP_REPAY] *)

Lemma tracked_insert (bal : balances) a (v inner : gmap string Z) x :
  bal ≫= (fun b => b !! a) = Some inner ->
  tracked ((fun b => <[a := v]> b) <$> bal) x <-> tracked bal x.
Proof.
  unfold tracked. destruct bal as [b|]; simpl; [|discriminate]. intros Ha.
  destruct (decide (a = x)) as [->|Hne].
  - rewrite lookup_insert_eq, Ha. split; eauto.
  - now rewrite lookup_insert_ne.
Qed.

(** [repay] goes through exactly when every part that is not of [world] is of
    a tracked account; otherwise the write into the nil inner map panics. *)
Lemma repay_loop_cases asset parts : forall bal : balances,
  match repay_loop parts asset bal with
  | Some _ =>
      Forall (fun p => Account p = "world" \/ tracked bal (Account p)) parts
  | None =>
      Exists (fun p => Account p <> "world" /\ ~ tracked bal (Account p)) parts
  end.
Proof.
  induction parts as [|p parts IH]; intros bal; simpl.
  - constructor.
  - destruct (String.eqb_spec (Account p) "world") as [Hw|Hw].
    + specialize (IH bal). destruct (repay_loop parts asset bal).
      * constructor; [now left | exact IH].
      * now apply Exists_cons_tl.
    + destruct (bal ≫= (fun b => b !! Account p)) as [inner|] eqn:Hacc.
      * specialize (IH ((fun b => <[Account p := add_entry inner asset (Amount p)]> b)
                          <$> bal)).
        destruct (repay_loop parts asset _).
        -- constructor; [right; unfold tracked; rewrite Hacc; eauto|].
           eapply Forall_impl; [exact IH|]. simpl. intros q [Hq|Hq]; [now left|].
           right. now apply (tracked_insert bal _ _ inner) in Hq.
        -- apply Exists_cons_tl. eapply Exists_impl; [exact IH|]. simpl.
           intros q [Hq Hn]. split; [exact Hq|]. intros Ht. apply Hn.
           now apply (tracked_insert bal _ _ inner).
      * apply Exists_cons_hd. split; [exact Hw|].
        unfold tracked. rewrite Hacc. now intros [? ?].
Qed.

Lemma Forall_Exists_absurd {A} (Q R : A -> Prop) (l : list A) :
  (forall x, Q x -> R x -> False) -> Forall Q l -> Exists R l -> False.
Proof.
  intros Habs HF HE. induction HE as [x l Hx|x l _ IH].
  - inversion HF; subst. eauto.
  - inversion HF; subst. eauto.
Qed.

Lemma repay_total_iff (bal : balances) (f : Funding) :
  (exists bal', repay bal f = Some bal') <->
  Forall (fun p => Account p = "world" \/ tracked bal (Account p)) (Parts f).
Proof.
  unfold repay. pose proof (repay_loop_cases (Asset f) (Parts f) bal) as H.
  destruct (repay_loop (Parts f) (Asset f) bal) as [bal'|].
  - split; [intros _; exact H | intros _; now exists bal'].
  - split; [intros [? ?]; discriminate|]. intros HF. exfalso.
    refine (Forall_Exists_absurd _ _ _ _ HF H).
    simpl. intros x [?|?] [? ?]; contradiction.
Qed.

Lemma repay_panics_iff (bal : balances) (f : Funding) :
  repay bal f = None <->
  Exists (fun p => Account p <> "world" /\ ~ tracked bal (Account p)) (Parts f).
Proof.
  unfold repay. pose proof (repay_loop_cases (Asset f) (Parts f) bal) as H.
  destruct (repay_loop (Parts f) (Asset f) bal) as [bal'|].
  - split; [discriminate|]. intros HE. exfalso.
    refine (Forall_Exists_absurd _ _ _ _ H HE).
    simpl. intros x [?|?] [? ?]; contradiction.
  - split; [intros _; exact H | reflexivity].
Qed.

(** [credit] leaves the balances as they are for an account that is not
    tracked. *)
Lemma credit_untracked (bal : balances) account (f : Funding) :
  ~ tracked bal account -> credit bal account f = bal.
Proof.
  unfold tracked, credit. intros Hn.
  destruct (String.eqb account "world"); [reflexivity|].
  destruct (bal ≫= (fun b => b !! account)); [|reflexivity].
  exfalso. apply Hn. eauto.
Qed.

(** Writing the entry of [asset] in the inner map of a tracked account. *)
Lemma balance_of_write (bal : balances) account asset (inner : gmap string Z) v a s :
  bal ≫= (fun b => b !! account) = Some inner ->
  balance_of ((fun b => <[account := <[asset := v]> inner]> b) <$> bal) a s
  = if decide (a = account /\ s = asset) then Some v else balance_of bal a s.
Proof.
  unfold balance_of. destruct bal as [b|]; simpl; [|discriminate]. intros Hacc.
  destruct (decide (a = account)) as [->|Ha].
  - rewrite lookup_insert_eq, Hacc. simpl.
    destruct (decide (s = asset)) as [->|Hs].
    + rewrite lookup_insert_eq. now rewrite decide_True by tauto.
    + rewrite lookup_insert_ne by congruence. now rewrite decide_False by tauto.
  - rewrite lookup_insert_ne by congruence. now rewrite decide_False by tauto.
Qed.

Lemma amount_of_cons account p parts :
  amount_of account (p :: parts)
  = (if decide (Account p = account) then Amount p else 0)
    + amount_of account parts.
Proof.
  unfold amount_of. rewrite filter_cons.
  destruct (decide (Account p = account)); [apply sum_amounts_cons | reflexivity].
Qed.

Lemma amount_of_absent account parts :
  account ∉ map Account parts -> amount_of account parts = 0.
Proof.
  induction parts as [|p parts IH]; [reflexivity|]. simpl. intros Hn.
  rewrite amount_of_cons, IH.
  - destruct (decide (Account p = account)) as [<-|]; [|reflexivity].
    exfalso. apply Hn. left.
  - intros H. apply Hn. now right.
Qed.

Lemma repay_loop_balance asset parts : forall bal bal' : balances,
  repay_loop parts asset bal = Some bal' ->
  forall a s,
    (s <> asset -> balance_of bal' a s = balance_of bal a s) /\
    (a = "world" \/ a ∉ map Account parts ->
     balance_of bal' a asset = balance_of bal a asset) /\
    (a <> "world" -> a ∈ map Account parts ->
     balance_of bal' a asset
     = Some ((default 0 (balance_of bal a asset) + amount_of a parts) mod two64)).
Proof.
  induction parts as [|p parts IH]; intros bal bal' H a s; simpl in H.
  - injection H as <-. repeat split; try reflexivity.
    intros _ Hin. simpl in Hin. now apply not_elem_of_nil in Hin.
  - destruct (String.eqb_spec (Account p) "world") as [Hpw|Hpw].
    + destruct (IH _ _ H a s) as (H1 & H2 & H3).
      split; [exact H1|]. split.
      * intros [Hw|Hn]; [apply H2; now left|].
        apply H2. right. intros Hin. apply Hn. simpl. now right.
      * intros Hw Hin. simpl in Hin. apply elem_of_cons in Hin as [->|Hin];
          [contradiction|].
        rewrite (H3 Hw Hin), amount_of_cons.
        destruct (decide (Account p = a)); [congruence|]. reflexivity.
    + destruct (bal ≫= (fun b => b !! Account p)) as [inner|] eqn:Hacc;
        [|discriminate].
      destruct (IH _ _ H a s) as (H1 & H2 & H3).
      pose proof (fun a s => balance_of_write bal (Account p) asset inner
                   (add64 (default 0 (inner !! asset)) (Amount p)) a s Hacc) as Hw1.
      unfold add_entry in *.
      assert (Hold : balance_of bal (Account p) asset = inner !! asset)
        by (unfold balance_of; now rewrite Hacc).
      split; [|split].
      * intros Hs. rewrite (H1 Hs), Hw1. now rewrite decide_False by tauto.
      * intros Hcase.
        assert (Hne : a <> Account p).
        { destruct Hcase as [->|Hn]; [congruence|].
          intros ->. apply Hn. simpl. left. }
        rewrite H2, Hw1; [now rewrite decide_False by tauto|].
        destruct Hcase as [Hw|Hn]; [now left|]. right.
        intros Hin. apply Hn. simpl. now right.
      * intros Hw Hin. simpl in Hin. rewrite amount_of_cons.
        destruct (decide (Account p = a)) as [<-|Hne].
        -- destruct (decide (Account p ∈ map Account parts)) as [Hin'|Hnot].
           ++ rewrite (H3 Hw Hin'), Hw1. rewrite decide_True by tauto. simpl.
              rewrite Hold. unfold add64. rewrite Zplus_mod_idemp_l.
              f_equal. apply (f_equal (fun z => z mod two64)). lia.
           ++ rewrite H2 by now right. rewrite Hw1, decide_True by tauto.
              rewrite Hold, (amount_of_absent _ _ Hnot). unfold add64.
              f_equal. apply (f_equal (fun z => z mod two64)). lia.
        -- apply elem_of_cons in Hin as [->|Hin]; [contradiction|].
           rewrite (H3 Hw Hin), Hw1. rewrite decide_False by (intros [? _]; congruence).
           reflexivity.
Qed.

(** [credit] leaves the balances as they are also when the account has an
    entry but none for the asset. *)
Lemma credit_no_entry (bal : balances) account (f : Funding) :
  balance_of bal account (Asset f) = None -> credit bal account f = bal.
Proof.
  unfold credit, balance_of. intros Hn.
  destruct (String.eqb account "world"); [reflexivity|].
  destruct (bal ≫= (fun b => b !! account)) as [inner|]; [|reflexivity].
  now rewrite Hn.
Qed.

Section Repay.
Context {ext : Extern}.

(** C10, as amended. [OP_REPAY] with the funding [f] on top of the stack.
    [tick] panics exactly when some part of [f] is of an account other than
    [world] that has no entry in the balances map: the write then goes into
    the nil inner map. When every part that is not of [world] is of an
    account with an entry, [repay] goes through and [tick] goes on as after
    any instruction, whether or not the inner maps have an entry for the
    asset of [f]: the entry of each account named becomes its former value,
    0 when there was none, plus the amounts of the parts of the account,
    modulo [2^64]. [credit] leaves the balances unchanged instead, both for
    an account without an entry and for one without an entry for the
    asset. *)
Theorem REPAY_needs_tracked_accounts (m : Machine) op s (f : Funding) :
  Instructions (Program m) !! P m = Some op ->
  opcode_of op = Some OP_REPAY ->
  Stack m = s ++ [VFunding f] ->
  (Forall (fun p => Account p = "world" \/ tracked (Balances m) (Account p))
     (Parts f) ->
   exists bal',
     repay (Balances m) f = Some bal' /\
     tick m = advance (set_Balances (set_Stack m s) bal') /\
     forall a,
       a <> "world" -> a ∈ map Account (Parts f) ->
       balance_of bal' a (Asset f)
       = Some ((default 0 (balance_of (Balances m) a (Asset f))
                + amount_of a (Parts f)) mod two64)) /\
  (Exists (fun p => Account p <> "world" /\ ~ tracked (Balances m) (Account p))
     (Parts f) ->
   repay (Balances m) f = None /\ tick m = Panic) /\
  (tick m = Panic <->
   Exists (fun p => Account p <> "world" /\ ~ tracked (Balances m) (Account p))
     (Parts f)) /\
  (forall account,
     ~ tracked (Balances m) account ->
     credit (Balances m) account f = Balances m) /\
  (forall account,
     balance_of (Balances m) account (Asset f) = None ->
     credit (Balances m) account f = Balances m).
Proof.
  intros Hop Hdec Hstack.
  rewrite (tick_decode m op _ Hop Hdec). simpl. unfold bind.
  rewrite (popFunding_top m s f Hstack). simpl.
  split; [|split; [|split; [|split]]].
  - intros HF. apply repay_total_iff in HF as [bal' Hbal'].
    exists bal'. rewrite Hbal'. split; [reflexivity|]. split; [reflexivity|].
    intros a Hw Hin. unfold repay in Hbal'.
    now apply (repay_loop_balance _ _ _ _ Hbal' a (Asset f)).
  - intros HE. apply repay_panics_iff in HE. now rewrite HE.
  - rewrite <- repay_panics_iff.
    destruct (repay (Balances m) f) as [bal'|]; [|tauto].
    split; [|discriminate]. unfold put, advance. simpl.
    destruct (_ <=? _)%nat; discriminate.
  - intros account Hn. now apply credit_untracked.
  - intros account Hn. now apply credit_no_entry.
Qed.

End Repay.

(** An entry for the account is enough: [repay] makes the entry for the asset
    when the inner map has none. *)
Example repay_makes_asset_entry :
  repay (Some {["bbb" := ∅]}) (mkFunding "COIN" [mkPart 2 "bbb"] false)
  = Some (Some {["bbb" := {["COIN" := 2]}]}).
Proof. vm_compute. reflexivity. Qed.

Lemma REPAY_needs_tracked_accounts_witness :
  (exists bal',
      repay (Some {["bbb" := ∅]}) (mkFunding "COIN" [mkPart 2 "bbb"] false)
      = Some bal' /\
      tick (machine_of [Byte.x12]
              [VFunding (mkFunding "COIN" [mkPart 2 "bbb"] false)] {["bbb" := ∅]})
      = advance (set_Balances
                   (set_Stack
                      (machine_of [Byte.x12]
                         [VFunding (mkFunding "COIN" [mkPart 2 "bbb"] false)]
                         {["bbb" := ∅]}) []) bal') /\
      balance_of bal' "bbb" "COIN" = Some 2) /\
  (repay (Some ∅) (mkFunding "COIN" [mkPart 2 "bbb"] false) = None /\
   tick (machine_of [Byte.x12]
           [VFunding (mkFunding "COIN" [mkPart 2 "bbb"] false)] ∅) = Panic).
Proof.
  split.
  - destruct (REPAY_needs_tracked_accounts
                (machine_of [Byte.x12]
                   [VFunding (mkFunding "COIN" [mkPart 2 "bbb"] false)] {["bbb" := ∅]})
                Byte.x12 [] (mkFunding "COIN" [mkPart 2 "bbb"] false)
                eq_refl eq_refl eq_refl) as (Hgoes & _).
    destruct Hgoes as (bal' & Hrep & Htick & Hbal).
    + constructor; [|constructor]. right. exists ∅. vm_compute. reflexivity.
    + exists bal'. split; [exact Hrep|]. split; [exact Htick|].
      etrans; [apply (Hbal "bbb"); [discriminate|] | vm_compute; reflexivity].
      simpl. apply list_elem_of_singleton. reflexivity.
  - apply (REPAY_needs_tracked_accounts
             (machine_of [Byte.x12]
                [VFunding (mkFunding "COIN" [mkPart 2 "bbb"] false)] ∅)
             Byte.x12 [] (mkFunding "COIN" [mkPart 2 "bbb"] false)
             eq_refl eq_refl eq_refl).
    apply Exists_cons_hd. split; [discriminate|].
    intros [x Hx]. discriminate Hx.
Defined.

(** C10, as stated, fails for an account that has an entry in the balances
    map but none for the asset of the funding: the precondition of the claim
    does not hold, yet [OP_REPAY] goes through and makes the entry. *)
Lemma REPAY_needs_tracked_accounts_counterexample :
  let f := mkFunding "COIN" [mkPart 2 "bbb"] false in
  let m := machine_of [Byte.x12] [VFunding f] {["bbb" := ∅]} in
  balance_of (Balances m) "bbb" "COIN" = None /\
  repay (Balances m) f = Some (Some {["bbb" := {["COIN" := 2]}]}) /\
  exists m',
    tick m = Return m' EXIT_OK /\
    Balances m' = Some {["bbb" := {["COIN" := 2]}]} /\
    Execute m = Some (Exited m' EXIT_OK).
Proof.
  split; [vm_compute; reflexivity|]. split; [vm_compute; reflexivity|].
  eexists. split; [vm_compute; reflexivity|].
  split; vm_compute; reflexivity.
Qed.

(** ** What an instruction leaves in place *)

(** No operation on the balances adds or removes an account. *)
Lemma withdrawAll_tracked (bal bal' : balances) account asset r :
  withdrawAll bal account asset = (r, bal') ->
  forall a, tracked bal' a <-> tracked bal a.
Proof.
  unfold withdrawAll. intros H a.
  destruct (String.eqb account "world"); [now injection H as _ <-|].
  destruct (bal ≫= (fun b => b !! account)) as [inner|] eqn:Hacc;
    [|now injection H as _ <-].
  destruct (inner !! asset); injection H as _ <-; [|reflexivity].
  now apply (tracked_insert bal account _ inner).
Qed.

Lemma credit_tracked (bal : balances) account (f : Funding) :
  forall a, tracked (credit bal account f) a <-> tracked bal a.
Proof.
  intros a. unfold credit.
  destruct (String.eqb account "world"); [reflexivity|].
  destruct (bal ≫= (fun b => b !! account)) as [inner|] eqn:Hacc; [|reflexivity].
  destruct (inner !! Asset f); [|reflexivity].
  now apply (tracked_insert bal account _ inner).
Qed.

Lemma repay_loop_tracked asset parts : forall bal bal' : balances,
  repay_loop parts asset bal = Some bal' ->
  forall a, tracked bal' a <-> tracked bal a.
Proof.
  induction parts as [|p parts IH]; intros bal bal' H a; simpl in H.
  - now injection H as <-.
  - destruct (String.eqb (Account p) "world"); [now apply IH|].
    destruct (bal ≫= (fun b => b !! Account p)) as [inner|] eqn:Hacc;
      [|discriminate].
    rewrite (IH _ _ H a). now apply (tracked_insert bal _ _ inner).
Qed.

Section Control.
Context {ext : Extern}.


Lemma same_control_refl (m : Machine) : same_control m m.
Proof. repeat split; auto. Qed.

Lemma same_control_trans (m1 m2 m3 : Machine) :
  same_control m1 m2 -> same_control m2 m3 -> same_control m1 m3.
Proof.
  intros (Hp & Hq & Ht) (Hp' & Hq' & Ht'). repeat split; try congruence.
  - intros H. apply Ht, Ht', H.
  - intros H. apply Ht', Ht, H.
Qed.

Lemma quiet_ret {A} (a : A) m : quiet_at (ret a) m.
Proof. apply same_control_refl. Qed.

Lemma quiet_exit {A} code m : quiet_at (@exit _ A code) m.
Proof. apply same_control_refl. Qed.

Lemma quiet_panic {A} m : quiet_at (@panic _ A) m.
Proof. exact I. Qed.

Lemma quiet_bind {A B} (c : Step A) (k : A -> Step B) m :
  quiet_at c m ->
  (forall a m1, c m = Cont a m1 -> quiet_at (k a) m1) ->
  quiet_at (bind c k) m.
Proof.
  unfold quiet_at, bind. intros Hc Hk.
  destruct (c m) as [a m1| |]; [|exact Hc|exact I].
  specialize (Hk a m1 eq_refl).
  destruct (k a m1); [| |exact I]; eapply same_control_trans; eauto.
Qed.

Lemma quiet_get_bind {B} (k : Machine -> Step B) m :
  quiet_at (k m) m -> quiet_at (bind get k) m.
Proof. intros H. exact H. Qed.

Lemma quiet_put m m' : same_control m m' -> quiet_at (put m') m.
Proof. intros H. exact H. Qed.

Lemma quiet_modify f m : same_control m (f m) -> quiet_at (modify f) m.
Proof. intros H. exact H. Qed.

Lemma quiet_popValue m : quiet_at popValue m.
Proof.
  unfold quiet_at, popValue. destruct (last (Stack m)); repeat split; auto.
Qed.

Lemma quiet_pushValue v m : quiet_at (pushValue v) m.
Proof. repeat split; auto. Qed.

Lemma quiet_instr_slice m0 lo hi m : quiet_at (instr_slice m0 lo hi) m.
Proof.
  unfold quiet_at, instr_slice. destruct (_ <? _)%nat; [exact I|].
  apply same_control_refl.
Qed.

(** Steps through a piece of [tick] built from the operations above. *)
Ltac quiet :=
  repeat
    lazymatch goal with
    | |- quiet_at (ret _) _ => apply quiet_ret
    | |- quiet_at (exit _) _ => apply quiet_exit
    | |- quiet_at panic _ => apply quiet_panic
    | |- quiet_at popValue _ => apply quiet_popValue
    | |- quiet_at (pushValue _) _ => apply quiet_pushValue
    | |- quiet_at (instr_slice _ _ _) _ => apply quiet_instr_slice
    | |- quiet_at (bind get _) _ => apply quiet_get_bind
    | |- quiet_at (bind _ _) _ => apply quiet_bind; [|intros ? ? _]
    | |- quiet_at (put _) _ => apply quiet_put
    | |- quiet_at (modify _) _ => apply quiet_modify
    | |- quiet_at _ _ => progress case_match
    end.

Lemma quiet_popNumber m : quiet_at popNumber m.
Proof. unfold popNumber. quiet. Qed.
Lemma quiet_popAsset m : quiet_at popAsset m.
Proof. unfold popAsset. quiet. Qed.
Lemma quiet_popAccount m : quiet_at popAccount m.
Proof. unfold popAccount. quiet. Qed.
Lemma quiet_popString m : quiet_at popString m.
Proof. unfold popString. quiet. Qed.
Lemma quiet_popMonetary m : quiet_at popMonetary m.
Proof. unfold popMonetary. quiet. Qed.
Lemma quiet_popPortion m : quiet_at popPortion m.
Proof. unfold popPortion. quiet. Qed.
Lemma quiet_popAllotment m : quiet_at popAllotment m.
Proof. unfold popAllotment. quiet. Qed.
Lemma quiet_popFunding m : quiet_at popFunding m.
Proof. unfold popFunding. quiet. Qed.

Lemma quiet_pop_portions n : forall m, quiet_at (pop_portions n) m.
Proof.
  induction n as [|n IH]; intros m; simpl; [apply quiet_ret|].
  apply quiet_bind; [apply quiet_popPortion|]. intros p m1 _.
  apply quiet_bind; [apply IH|]. intros ps m2 _. apply quiet_ret.
Qed.

Lemma quiet_pop_fundings asset n : forall m, quiet_at (pop_fundings n asset) m.
Proof.
  induction n as [|n IH]; intros m; simpl; [apply quiet_ret|].
  apply quiet_bind; [apply quiet_popFunding|]. intros f m1 _.
  destruct (negb _); [apply quiet_exit|].
  apply quiet_bind; [apply IH|]. intros fs m2 _. apply quiet_ret.
Qed.

Lemma quiet_push_each vs : forall m, quiet_at (push_each vs) m.
Proof.
  induction vs as [|v vs IH]; intros m; simpl; [apply quiet_ret|].
  apply quiet_bind; [apply quiet_pushValue|]. intros _ m1 _. apply IH.
Qed.


Ltac quiet_all :=
  repeat
    lazymatch goal with
    | |- quiet_at popNumber _ => apply quiet_popNumber
    | |- quiet_at popAsset _ => apply quiet_popAsset
    | |- quiet_at popAccount _ => apply quiet_popAccount
    | |- quiet_at popString _ => apply quiet_popString
    | |- quiet_at popMonetary _ => apply quiet_popMonetary
    | |- quiet_at popPortion _ => apply quiet_popPortion
    | |- quiet_at popAllotment _ => apply quiet_popAllotment
    | |- quiet_at popFunding _ => apply quiet_popFunding
    | |- quiet_at (pop_portions _) _ => apply quiet_pop_portions
    | |- quiet_at (pop_fundings _ _) _ => apply quiet_pop_fundings
    | |- quiet_at (push_each _) _ => apply quiet_push_each
    | |- quiet_at _ _ => progress quiet
    end.

Ltac control :=
  split; [reflexivity | split; [reflexivity|]]; simpl; intros;
  first
    [ reflexivity
    | eapply withdrawAll_tracked; eassumption
    | apply credit_tracked
    | eapply repay_loop_tracked; eassumption ].

(** Every instruction but the two pushes of an operand leaves the program
    counter to the end of [tick]. *)
Lemma exec_quiet (op : option Opcode) (m : Machine) :
  op <> Some OP_APUSH -> op <> Some OP_IPUSH -> quiet_at (exec op) m.
Proof.
  intros Ha Hi. destruct op as [[]|]; try contradiction; simpl; unfold operand;
    quiet_all; try control.
Qed.


Lemma exec_control (op : option Opcode) (m : Machine) :
  match exec op m with
  | Cont _ m' => onward m m'
  | Return m' _ => same_control m m'
  | Panic => True
  end.
Proof.
  assert (Hq : op <> Some OP_APUSH -> op <> Some OP_IPUSH ->
               match exec op m with
               | Cont _ m' => onward m m'
               | Return m' _ => same_control m m'
               | Panic => True
               end).
  { intros Ha Hi. pose proof (exec_quiet op m Ha Hi) as H. unfold quiet_at in H.
    destruct (exec op m); [|exact H|exact I].
    destruct H as (Hp & Hprog & Ht).
    split; [rewrite Hp; reflexivity|]. split; [exact Hprog | exact Ht]. }
  destruct op as [o|]; [destruct o|]; try (apply Hq; discriminate); clear Hq.
  - simpl. unfold operand, bind, get, instr_slice, ret, panic, exit, pushValue, modify.
    repeat case_match; simplify_eq; unfold onward, same_control; simpl;
      repeat split; auto; lia.
  - simpl. unfold operand, bind, get, instr_slice, ret, panic, exit, pushValue, modify.
    repeat case_match; simplify_eq; unfold onward, same_control; simpl;
      repeat split; auto; lia.
Qed.

End Control.

(** ** [tick] and [Execute] *)


Section Execution.
Context {ext : Extern}.

Lemma tick_cont (m m' : Machine) u :
  tick m = Cont u m' ->
  Program m' = Program m /\
  (P m < P m')%nat /\ (P m' < length (Instructions (Program m)))%nat /\
  forall a, tracked (Balances m') a <-> tracked (Balances m) a.
Proof.
  unfold tick. destruct (Instructions (Program m) !! P m) as [op|]; [|discriminate].
  pose proof (exec_control (opcode_of op) m) as H.
  destruct (exec (opcode_of op) m) as [[] m1| |]; [|discriminate|discriminate].
  destruct H as (Hp & Hprog & Ht). unfold advance. simpl.
  destruct (Nat.leb_spec (length (Instructions (Program m1))) (P m1 + 1)) as [|Hlt];
    [discriminate|].
  intros Heq. injection Heq as _ <-. simpl. rewrite Hprog in Hlt.
  repeat split; try apply Ht; auto; lia.
Qed.

Lemma tick_return (m m' : Machine) code :
  tick m = Return m' code ->
  Program m' = Program m /\
  (forall a, tracked (Balances m') a <-> tracked (Balances m) a) /\
  ((length (Instructions (Program m')) <= P m')%nat -> code = EXIT_OK).
Proof.
  unfold tick.
  destruct (Instructions (Program m) !! P m) as [op|] eqn:Hop; [|discriminate].
  apply lookup_lt_Some in Hop.
  pose proof (exec_control (opcode_of op) m) as H.
  destruct (exec (opcode_of op) m) as [[] m1|m1 c|]; [| |discriminate].
  - destruct H as (Hp & Hprog & Ht). unfold advance. simpl.
    destruct (_ <=? _)%nat; [|discriminate].
    intros Heq. injection Heq as <- <-. simpl. auto.
  - destruct H as (Hp & Hprog & Ht).
    intros Heq. injection Heq as <- <-.
    repeat split; try apply Ht; auto. rewrite Hp, Hprog. lia.
Qed.


Lemma execute_loop_halts (m m' : Machine) code :
  halts m m' code ->
  forall fuel,
    (length (Instructions (Program m)) - P m < fuel)%nat ->
    execute_loop fuel m = Some (Exited m' (exit_code_of m' code)).
Proof.
  induction 1 as [m m' code Htick | m m1 m' code Htick _ IH]; intros fuel Hfuel;
    (destruct fuel as [|fuel]; [lia|]); simpl; rewrite Htick.
  - unfold exit_code_of. now destruct (negb _).
  - apply tick_cont in Htick as (Hprog & Hlt & Hend & _).
    apply IH. rewrite Hprog. lia.
Qed.

(** The bound on the rounds is never reached: [Execute] returns or the
    program ends in a panic. *)
Lemma execute_loop_returns (n : nat) : forall (m : Machine) fuel,
  (length (Instructions (Program m)) - P m < fuel)%nat ->
  (length (Instructions (Program m)) - P m <= n)%nat ->
  execute_loop fuel m = Some Crashed \/
  exists m' code,
    halts m m' code /\
    execute_loop fuel m = Some (Exited m' (exit_code_of m' code)).
Proof.
  induction n as [|n IH]; intros m fuel Hfuel Hn;
    (destruct fuel as [|fuel]; [lia|]); simpl;
    destruct (tick m) as [[] m1|m1 c|] eqn:Htick; try (now left).
  - apply tick_cont in Htick as (_ & Hlt & Hend & _). lia.
  - right. exists m1, c. split; [now apply halts_now|].
    unfold exit_code_of. now destruct (negb _).
  - pose proof (tick_cont _ _ _ Htick) as (Hprog & Hlt & Hend & _).
    destruct (IH m1 fuel) as [Hc|(m' & code & Hh & He)];
      [rewrite Hprog; lia | rewrite Hprog; lia | now left |].
    right. exists m', code. split; [|exact He].
    eapply halts_later; eassumption.
  - right. exists m1, c. split; [now apply halts_now|].
    unfold exit_code_of. now destruct (negb _).
Qed.

Lemma Execute_returns (m : Machine) : exists r, Execute m = Some r.
Proof.
  unfold Execute. destruct (negb _); [eauto|].
  destruct (Balances m); [|eauto].
  destruct (execute_loop_returns (length (Instructions (Program m)) - P m) m
              (S (length (Instructions (Program m)) - P m)))
    as [H|(m' & code & _ & H)]; try lia; rewrite H; eauto.
Qed.

Lemma halts_end (m m' : Machine) code :
  halts m m' code ->
  Program m' = Program m /\
  ((length (Instructions (Program m')) <= P m')%nat -> code = EXIT_OK).
Proof.
  induction 1 as [m m' code Htick | m m1 m' code Htick _ IH].
  - apply tick_return in Htick as (Hprog & _ & Hend). auto.
  - apply tick_cont in Htick as (Hprog & _). destruct IH as [IH1 IH2].
    split; [congruence | exact IH2].
Qed.

Lemma reaches_halts (m m0 m' : Machine) code :
  reaches m m0 -> tick m0 = Return m' code -> halts m m' code.
Proof.
  induction 1 as [m|m m1 m0 Htick _ IH]; intros Hret.
  - now apply halts_now.
  - eapply halts_later; [exact Htick | now apply IH].
Qed.

Lemma Execute_halts (m m' : Machine) code :
  length (Resources m) = length (UnresolvedResources m) ->
  Balances m <> None ->
  halts m m' code ->
  Execute m = Some (Exited m' (exit_code_of m' code)).
Proof.
  intros Hres Hbal Hhalts. unfold Execute. rewrite Hres, Nat.eqb_refl. cbn [negb].
  destruct (Balances m); [|contradiction].
  apply execute_loop_halts; [exact Hhalts | lia].
Qed.

(** The end of [tick] after an instruction that goes on: the test for the
    end of the instructions decides between [EXIT_OK] and another round. *)
Lemma tick_end_test (m : Machine) op m1 :
  Instructions (Program m) !! P m = Some op ->
  exec (opcode_of op) m = Cont tt m1 ->
  ((length (Instructions (Program m)) <= P m1 + 1)%nat ->
   tick m = Return (set_P m1 (P m1 + 1)) EXIT_OK) /\
  ((P m1 + 1 < length (Instructions (Program m)))%nat ->
   tick m = Cont tt (set_P m1 (P m1 + 1))).
Proof.
  intros Hop Hexec. unfold tick. rewrite Hop, Hexec.
  pose proof (exec_control (opcode_of op) m) as H. rewrite Hexec in H.
  destruct H as (_ & Hprog & _). unfold advance. simpl. rewrite Hprog.
  split; intros Hlen.
  - now rewrite (proj2 (Nat.leb_le _ _) Hlen).
  - now rewrite (proj2 (Nat.leb_gt _ _) Hlen).
Qed.

(** C7. For a machine whose resources and balances have been initialized.
    When the rounds of [tick] halt in [m'], whatever the exit code [code] of
    the last instruction, [Execute] returns [EXIT_FAIL_INVALID] if the stack
    of [m'] is not empty; with an empty stack it returns [code], which is
    [EXIT_OK] if the program counter has run past the last instruction. The
    rounds halt whenever they reach a machine on which [tick] returns
    [(true, code)], as it does on [OP_FAIL]. They halt, with [EXIT_OK],
    whenever they reach a machine on which the instruction goes on and
    leaves the program counter at the last instruction or beyond: [Execute]
    then returns [EXIT_OK] if the stack is empty and [EXIT_FAIL_INVALID] if
    it is not; with instructions left, [tick] goes on to another round.
    [Execute] returns in this way or the program ends in a panic. *)
Theorem Execute_exit_code (m : Machine) :
  length (Resources m) = length (UnresolvedResources m) ->
  Balances m <> None ->
  (forall m' code,
      halts m m' code ->
      (Stack m' <> [] -> Execute m = Some (Exited m' EXIT_FAIL_INVALID)) /\
      (Stack m' = [] -> Execute m = Some (Exited m' code)) /\
      (Stack m' = [] ->
       (length (Instructions (Program m')) <= P m')%nat ->
       Execute m = Some (Exited m' EXIT_OK))) /\
  (forall m0 m' code,
      reaches m m0 -> tick m0 = Return m' code ->
      (Stack m' <> [] -> Execute m = Some (Exited m' EXIT_FAIL_INVALID)) /\
      (Stack m' = [] -> Execute m = Some (Exited m' code))) /\
  (forall m0 op,
      reaches m m0 ->
      Instructions (Program m0) !! P m0 = Some op ->
      opcode_of op = Some OP_FAIL ->
      (Stack m0 <> [] -> Execute m = Some (Exited m0 EXIT_FAIL_INVALID)) /\
      (Stack m0 = [] -> Execute m = Some (Exited m0 EXIT_FAIL))) /\
  (forall m0 op m1,
      reaches m m0 ->
      Instructions (Program m0) !! P m0 = Some op ->
      exec (opcode_of op) m0 = Cont tt m1 ->
      ((length (Instructions (Program m0)) <= P m1 + 1)%nat ->
       tick m0 = Return (set_P m1 (P m1 + 1)) EXIT_OK /\
       (Stack m1 = [] ->
        Execute m = Some (Exited (set_P m1 (P m1 + 1)) EXIT_OK)) /\
       (Stack m1 <> [] ->
        Execute m = Some (Exited (set_P m1 (P m1 + 1)) EXIT_FAIL_INVALID))) /\
      ((P m1 + 1 < length (Instructions (Program m0)))%nat ->
       tick m0 = Cont tt (set_P m1 (P m1 + 1)))) /\
  (Execute m = Some Crashed \/
   exists m' code,
     halts m m' code /\ Execute m = Some (Exited m' (exit_code_of m' code))).
Proof.
  intros Hres Hbal.
  assert (Hcases : forall m' code,
             halts m m' code ->
             (Stack m' <> [] -> Execute m = Some (Exited m' EXIT_FAIL_INVALID)) /\
             (Stack m' = [] -> Execute m = Some (Exited m' code))).
  { intros m' code Hhalts. rewrite (Execute_halts m m' code Hres Hbal Hhalts).
    unfold exit_code_of. split.
    - intros Hne. destruct (Stack m'); [contradiction | reflexivity].
    - intros ->. reflexivity. }
  split; [|split; [|split; [|split]]].
  - intros m' code Hhalts. destruct (Hcases m' code Hhalts) as [Hfull Hempty].
    split; [exact Hfull|]. split; [exact Hempty|].
    intros Hs Hend. rewrite (Hempty Hs). do 2 f_equal.
    now apply (halts_end m m' code Hhalts).
  - intros m0 m' code Hreach Hret.
    exact (Hcases m' code (reaches_halts m m0 m' code Hreach Hret)).
  - intros m0 op Hreach Hop Hdec.
    apply (Hcases m0 EXIT_FAIL). apply (reaches_halts m m0 m0 EXIT_FAIL Hreach).
    now rewrite (tick_decode m0 op _ Hop Hdec).
  - intros m0 op m1 Hreach Hop Hexec.
    destruct (tick_end_test m0 op m1 Hop Hexec) as [Hend Hon].
    split; [|exact Hon]. intros Hlen. specialize (Hend Hlen).
    split; [exact Hend|].
    destruct (Hcases _ EXIT_OK (reaches_halts m m0 _ EXIT_OK Hreach Hend))
      as [Hfull Hempty].
    split; [exact Hempty | exact Hfull].
  - unfold Execute. rewrite Hres, Nat.eqb_refl. cbn [negb].
    destruct (Balances m); [|contradiction].
    apply (execute_loop_returns (length (Instructions (Program m)) - P m)); lia.
Qed.

End Execution.

Lemma Execute_exit_code_witness :
  Execute (machine_of [Byte.x05] [VNumber 7] ∅)
  = Some (Exited (mkMachine 1 (mkProgram [Byte.x05] [] []) [] [] (Some ∅) true []
                    [] ∅ [VNumber 7]) EXIT_OK) /\
  Execute (machine_of [Byte.x05] [VNumber 7; VNumber 8] ∅)
  = Some (Exited (mkMachine 1 (mkProgram [Byte.x05] [] []) [] [] (Some ∅) true
                    [VNumber 7] [] ∅ [VNumber 8]) EXIT_FAIL_INVALID) /\
  Execute (machine_of [Byte.x06] [VNumber 7] ∅)
  = Some (Exited (machine_of [Byte.x06] [VNumber 7] ∅) EXIT_FAIL_INVALID) /\
  Execute (machine_of [Byte.x06] [] ∅)
  = Some (Exited (machine_of [Byte.x06] [] ∅) EXIT_FAIL).
Proof.
  split; [|split; [|split]].
  - destruct (Execute_exit_code (machine_of [Byte.x05] [VNumber 7] ∅) eq_refl
                ltac:(discriminate)) as (_ & _ & _ & Hend & _).
    destruct (Hend (machine_of [Byte.x05] [VNumber 7] ∅) Byte.x05
                (mkMachine 0 (mkProgram [Byte.x05] [] []) [] [] (Some ∅) true []
                   [] ∅ [VNumber 7])
                (reaches_here _) eq_refl eq_refl) as [Hpast _].
    destruct (Hpast ltac:(simpl; lia)) as (_ & Hempty & _).
    exact (Hempty eq_refl).
  - destruct (Execute_exit_code (machine_of [Byte.x05] [VNumber 7; VNumber 8] ∅)
                eq_refl ltac:(discriminate)) as (_ & _ & _ & Hend & _).
    destruct (Hend (machine_of [Byte.x05] [VNumber 7; VNumber 8] ∅) Byte.x05
                (mkMachine 0 (mkProgram [Byte.x05] [] []) [] [] (Some ∅) true
                   [VNumber 7] [] ∅ [VNumber 8])
                (reaches_here _) eq_refl eq_refl) as [Hpast _].
    destruct (Hpast ltac:(simpl; lia)) as (_ & _ & Hfull).
    apply Hfull. discriminate.
  - destruct (Execute_exit_code (machine_of [Byte.x06] [VNumber 7] ∅) eq_refl
                ltac:(discriminate)) as (_ & _ & Hfail & _).
    destruct (Hfail (machine_of [Byte.x06] [VNumber 7] ∅) Byte.x06
                (reaches_here _) eq_refl eq_refl) as [Hfull _].
    apply Hfull. discriminate.
  - destruct (Execute_exit_code (machine_of [Byte.x06] [] ∅) eq_refl
                ltac:(discriminate)) as (_ & _ & Hfail & _).
    destruct (Hfail (machine_of [Byte.x06] [] ∅) Byte.x06
                (reaches_here _) eq_refl eq_refl) as [_ Hempty].
    exact (Hempty eq_refl).
Defined.

(** ** The account [world] *)


Section World.
Context {ext : Extern}.

Lemma world_free_error st msg :
  world_free st ->
  world_free (mkResolving (rs_balances st) (rs_sent st ++ [RequestError msg])).
Proof.
  intros [Hb Hs]. split; [exact Hb|]. simpl.
  apply Forall_app. split; [exact Hs|]. repeat constructor. simpl. tauto.
Qed.

Lemma resolve_assets_world respond (m : Machine) account needed_assets :
  account <> "world" ->
  forall st,
    world_free st ->
    match resolve_assets respond m account needed_assets st with
    | Some (inl st') => world_free st'
    | Some (inr st') => world_free st'
    | None => True
    end.
Proof.
  intros Hacc. induction needed_assets as [|addr rest IH]; intros st Hst; simpl.
  - exact Hst.
  - destruct (getResource m addr) as [mon|]; [|now apply world_free_error].
    destruct (GetAsset mon) as [asset|]; [|now apply world_free_error].
    assert (Hsent : world_free
                      (mkResolving (rs_balances st) (rs_sent st ++ [Request account asset]))).
    { destruct Hst as [Hb Hs]. split; [exact Hb|]. simpl.
      apply Forall_app. split; [exact Hs|]. repeat constructor. exact Hacc. }
    destruct (respond (length (rs_sent st)) account asset) as [balance|]; [|exact I].
    apply IH. destruct Hsent as [Hb Hs]. split; [|exact Hs]. simpl in *.
    rewrite lookup_insert_ne by exact Hacc. exact Hb.
Qed.

Lemma resolve_accounts_world respond (m : Machine) needed :
  forall st st',
    world_free st -> resolve_accounts respond m needed st = Some st' ->
    world_free st'.
Proof.
  induction needed as [|[addr needed_assets] rest IH]; intros st st' Hst; simpl.
  - intros H. now injection H as <-.
  - destruct (getResource m addr) as [v|];
      [|intros H; injection H as <-; now apply world_free_error].
    destruct v; try (intros H; injection H as <-; now apply world_free_error).
    destruct (String.eqb_spec a "world") as [|Hne]; [now apply IH|].
    pose proof (resolve_assets_world respond m a needed_assets Hne
                  (mkResolving (<[a := ∅]> (rs_balances st)) (rs_sent st))) as H.
    assert (Hfree : world_free (mkResolving (<[a := ∅]> (rs_balances st)) (rs_sent st))).
    { destruct Hst as [Hb Hs]. split; [|exact Hs]. simpl.
      rewrite lookup_insert_ne by exact Hne. exact Hb. }
    specialize (H Hfree).
    destruct (resolve_assets respond m a needed_assets _) as [[st1|st1]|];
      [|now apply IH|discriminate].
    intros Heq. now injection Heq as <-.
Qed.

Lemma ResolveBalances_world respond (m m1 : Machine) sent :
  ResolveBalances respond m = OK (Some (m1, sent)) ->
  ~ tracked (Balances m1) "world" /\ Forall (fun r => ~ asks_world r) sent.
Proof.
  unfold ResolveBalances. destruct (negb _); [discriminate|].
  destruct (set_balance_called m); [discriminate|].
  destruct (resolve_accounts respond m (NeededBalances (Program m))
              (mkResolving ∅ [])) as [st|] eqn:Hst; [|discriminate].
  intros H. injection H as <- <-.
  destruct (resolve_accounts_world respond m (NeededBalances (Program m))
              (mkResolving ∅ []) st) as [Hb Hs]; [|exact Hst|].
  { split; [apply lookup_empty | constructor]. }
  split; [|exact Hs]. unfold tracked. simpl. rewrite Hb. now intros [? ?].
Qed.

Lemma halts_tracked (m m' : Machine) code :
  halts m m' code ->
  forall a, tracked (Balances m') a <-> tracked (Balances m) a.
Proof.
  induction 1 as [m m' code Htick | m m1 m' code Htick _ IH]; intros a.
  - now apply tick_return in Htick as (_ & Ht & _).
  - apply tick_cont in Htick as (_ & _ & _ & Ht). now rewrite IH.
Qed.

Lemma credit_world (bal : balances) (f : Funding) : credit bal "world" f = bal.
Proof. reflexivity. Qed.

Lemma withdrawAll_world (bal : balances) asset :
  withdrawAll bal "world" asset = (OK (mkFunding asset [] true), bal).
Proof. reflexivity. Qed.

Lemma SEND_world (m : Machine) op s (f : Funding) :
  Instructions (Program m) !! P m = Some op ->
  opcode_of op = Some OP_SEND ->
  Stack m = s ++ [VFunding f; VAccount "world"] ->
  exists m1,
    tick m = advance m1 /\ Balances m1 = Balances m /\ Stack m1 = s /\
    Postings m1 = Postings m ++ send_postings "world" (Asset f) (Parts f).
Proof.
  intros Hop Hdec Hstack.
  rewrite (tick_decode m op _ Hop Hdec). simpl. unfold bind.
  rewrite snoc2 in Hstack. rewrite (popAccount_top m _ _ Hstack).
  rewrite (popFunding_top (set_Stack m (s ++ [VFunding f])) s f eq_refl).
  simpl. eexists. split; [reflexivity|]. now simpl.
Qed.

Lemma TAKE_ALL_world (m : Machine) op s asset :
  Instructions (Program m) !! P m = Some op ->
  opcode_of op = Some OP_TAKE_ALL ->
  Stack m = s ++ [VAccount "world"; VAsset asset] ->
  exists m1,
    tick m = advance m1 /\ Balances m1 = Balances m /\
    Stack m1 = s ++ [VFunding (mkFunding asset [] true)].
Proof.
  intros Hop Hdec Hstack.
  rewrite (tick_decode m op _ Hop Hdec). simpl. unfold bind.
  rewrite snoc2 in Hstack. rewrite (popAsset_top m _ _ Hstack).
  rewrite (popAccount_top (set_Stack m (s ++ [VAccount "world"])) s _ eq_refl).
  simpl. eexists. split; [reflexivity|]. now simpl.
Qed.

(** C8. The balances map has no entry for [world] at any time: balance
    resolution builds a map without one and sends no request for [world];
    no round of [tick] changes which accounts have an entry, so that a run
    started without an entry for [world] halts without one; [credit] on
    [world] returns the balances as they are, and so does [OP_SEND] to
    [world]; [withdrawAll] on [world] returns the infinite funding without
    parts and the balances as they are, whatever they hold, and so does
    [OP_TAKE_ALL]. *)
Theorem world_has_no_balance :
  (forall respond (m m1 : Machine) sent,
      ResolveBalances respond m = OK (Some (m1, sent)) ->
      ~ tracked (Balances m1) "world" /\ Forall (fun r => ~ asks_world r) sent) /\
  (forall (m m' : Machine) u,
      tick m = Cont u m' ->
      forall a, tracked (Balances m') a <-> tracked (Balances m) a) /\
  (forall (m m' : Machine) code,
      halts m m' code ->
      ~ tracked (Balances m) "world" -> ~ tracked (Balances m') "world") /\
  (forall (bal : balances) f, credit bal "world" f = bal) /\
  (forall (bal : balances) asset,
      withdrawAll bal "world" asset = (OK (mkFunding asset [] true), bal)) /\
  (forall (m : Machine) op s f,
      Instructions (Program m) !! P m = Some op ->
      opcode_of op = Some OP_SEND ->
      Stack m = s ++ [VFunding f; VAccount "world"] ->
      exists m1,
        tick m = advance m1 /\ Balances m1 = Balances m /\ Stack m1 = s /\
        Postings m1 = Postings m ++ send_postings "world" (Asset f) (Parts f)) /\
  (forall (m : Machine) op s asset,
      Instructions (Program m) !! P m = Some op ->
      opcode_of op = Some OP_TAKE_ALL ->
      Stack m = s ++ [VAccount "world"; VAsset asset] ->
      exists m1,
        tick m = advance m1 /\ Balances m1 = Balances m /\
        Stack m1 = s ++ [VFunding (mkFunding asset [] true)]).
Proof.
  split; [exact ResolveBalances_world|].
  split; [intros m m' u H; now apply tick_cont in H as (_ & _ & _ & Ht)|].
  split; [intros m m' code H Hn Ht; apply Hn; now apply (halts_tracked m m' code H)|].
  split; [exact credit_world|].
  split; [exact withdrawAll_world|].
  split; [exact SEND_world | exact TAKE_ALL_world].
Qed.

End World.

(** ** The tests of the repository, on the model *)

Example TestFundingTake :
  Take (mkFunding "COIN" [mkPart 70 "aaa"; mkPart 30 "bbb"; mkPart 50 "ccc"] false) 80
  = OK (mkFunding "COIN" [mkPart 70 "aaa"; mkPart 10 "bbb"] false,
        mkFunding "COIN" [mkPart 20 "bbb"; mkPart 50 "ccc"] false).
Proof. reflexivity. Qed.

Example TestFundingTakeMaxUnder :
  TakeMax (mkFunding "COIN" [mkPart 30 "aaa"] false) 80
  = (mkFunding "COIN" [mkPart 30 "aaa"] false, mkFunding "COIN" [] false).
Proof. reflexivity. Qed.

Example TestFundingTakeMaxAbove :
  TakeMax (mkFunding "COIN" [mkPart 90 "aaa"] false) 80
  = (mkFunding "COIN" [mkPart 80 "aaa"] false,
     mkFunding "COIN" [mkPart 10 "aaa"] false).
Proof. reflexivity. Qed.

Example TestFundingReversal :
  Reverse (mkFunding "COIN" [mkPart 10 "aaa"; mkPart 20 "bbb"; mkPart 30 "ccc"] false)
  = OK (mkFunding "COIN" [mkPart 30 "ccc"; mkPart 20 "bbb"; mkPart 10 "aaa"] false).
Proof. reflexivity. Qed.

(** [print 29 + 15 - 2], as the compiler test gives its instructions. *)
Example TestPrint :
  exists m',
    Execute (machine_of
               [Byte.x01; Byte.x1d; Byte.x00; Byte.x00; Byte.x00; Byte.x00;
                Byte.x00; Byte.x00; Byte.x00;
                Byte.x01; Byte.x0f; Byte.x00; Byte.x00; Byte.x00; Byte.x00;
                Byte.x00; Byte.x00; Byte.x00;
                Byte.x03;
                Byte.x01; Byte.x02; Byte.x00; Byte.x00; Byte.x00; Byte.x00;
                Byte.x00; Byte.x00; Byte.x00;
                Byte.x04; Byte.x05] [] ∅)
    = Some (Exited m' EXIT_OK) /\
    print_chan m' = [VNumber 42] /\ Postings m' = [].
Proof. eexists. split; [vm_compute; reflexivity|]. now split. Qed.

Example TestFail :
  exists m',
    Execute (machine_of [Byte.x06] [] ∅) = Some (Exited m' EXIT_FAIL) /\
    print_chan m' = [] /\ Postings m' = [].
Proof. eexists. split; [vm_compute; reflexivity|]. now split. Qed.

(** * Further properties of the funding algebra *)

(** ** [Reverse] *)

Lemma sum_amounts_rev l : sum_amounts (rev l) = sum_amounts l.
Proof.
  induction l as [|p l IH]; [reflexivity|].
  simpl rev. rewrite sum_amounts_app, IH. unfold sum_amounts. simpl. lia.
Qed.

(** X1. [Reverse] of a finite funding succeeds with a finite funding of the
    same asset and the same total, and reversing that one gives the first
    funding back; [Reverse] of an infinite funding is an error. *)
Theorem Reverse_involutive (f : Funding) :
  (Infinite f = false ->
   exists r,
     Reverse f = OK r /\ Reverse r = OK f /\
     Asset r = Asset f /\ Infinite r = false /\ Total r = Total f) /\
  (Infinite f = true ->
   Reverse f = Err "tried to reverse an infinite funding").
Proof.
  split; intros Hf; unfold Reverse; rewrite Hf; [|reflexivity].
  eexists. split; [reflexivity|]. simpl. rewrite rev_involutive.
  split; [destruct f; simpl in *; now subst|].
  split; [reflexivity|]. split; [reflexivity|].
  rewrite !Total_finite by (assumption || reflexivity). simpl.
  now rewrite sum_amounts_rev.
Qed.

(** ** [Concat] and [Total] *)

Lemma concat_parts_sum (parts other : list FundingPart) :
  sum_amounts (concat_parts parts other) mod two64
  = (sum_amounts parts + sum_amounts other) mod two64.
Proof.
  destruct (concat_parts_cases parts other)
    as [(pre & l & o & post & Hp & Ho & _ & Hc)|Hc]; rewrite Hc;
    [subst parts other|now rewrite sum_amounts_app].
  rewrite !sum_amounts_app, !sum_amounts_cons. change (sum_amounts []) with 0.
  simpl Amount. unfold add64.
  replace (sum_amounts pre + ((Amount l + Amount o) mod two64 + sum_amounts post))
    with ((Amount l + Amount o) mod two64 + (sum_amounts pre + sum_amounts post))
    by lia.
  rewrite Zplus_mod_idemp_l. f_equal. lia.
Qed.

(** X2. The concatenation of two finite fundings of one asset is finite and
    its total is the sum of their totals, modulo [2^64] as every total is. *)
Theorem Concat_Total (f g : Funding) (tf tg : Z) :
  Asset f = Asset g ->
  Total f = OK tf -> Total g = OK tg ->
  exists r,
    Concat f g = OK r /\ Asset r = Asset f /\ Infinite r = false /\
    Total r = OK (add64 tf tg).
Proof.
  intros Hasset Hf Hg.
  assert (Hff : Infinite f = false)
    by (unfold Total in Hf; destruct (Infinite f); [discriminate | reflexivity]).
  assert (Hgf : Infinite g = false)
    by (unfold Total in Hg; destruct (Infinite g); [discriminate | reflexivity]).
  rewrite (Total_finite f Hff) in Hf. rewrite (Total_finite g Hgf) in Hg.
  injection Hf as <-. injection Hg as <-.
  unfold Concat. rewrite Hasset, String.eqb_refl, Hff, Hgf. simpl.
  eexists. split; [reflexivity|]. simpl.
  split; [reflexivity|]. split; [reflexivity|].
  rewrite Total_finite by reflexivity. simpl. f_equal.
  rewrite concat_parts_sum. unfold add64.
  now rewrite <- Zplus_mod.
Qed.

Lemma Concat_Total_witness :
  exists r,
    Concat (mkFunding "COIN" [mkPart 70 "aaa"] false)
      (mkFunding "COIN" [mkPart 30 "aaa"; mkPart 5 "bbb"] false) = OK r /\
    Asset r = "COIN" /\ Infinite r = false /\ Total r = OK (add64 70 35).
Proof.
  apply (Concat_Total (mkFunding "COIN" [mkPart 70 "aaa"] false)
           (mkFunding "COIN" [mkPart 30 "aaa"; mkPart 5 "bbb"] false) 70 35);
    reflexivity.
Defined.

(** ** [Concat] is associative *)

(** X3. [Concat] is associative on fundings of one asset, finite or not:
    both groupings, each computed from the three fundings as given, succeed
    and return the same funding. *)
Theorem Concat_assoc (f g h : Funding) :
  Asset f = Asset g -> Asset g = Asset h ->
  exists fg gh r,
    Concat f g = OK fg /\ Concat g h = OK gh /\
    Concat fg h = OK r /\ Concat f gh = OK r.
Proof.
  intros Hfg Hgh. unfold Concat.
  rewrite Hfg, Hgh, !String.eqb_refl. simpl.
  destruct (Infinite f) eqn:Hf, (Infinite g) eqn:Hg; simpl;
    eexists _, _, _; (split; [reflexivity|]); (split; [reflexivity|]); simpl;
    rewrite ?String.eqb_refl, ?Hgh, ?String.eqb_refl; simpl;
    try (split; reflexivity).
  rewrite concat_parts_assoc. split; reflexivity.
Qed.

Lemma Concat_assoc_witness :
  exists fg gh r,
    Concat (mkFunding "COIN" [mkPart 1 "aaa"] false)
      (mkFunding "COIN" [mkPart 2 "aaa"] false) = OK fg /\
    Concat (mkFunding "COIN" [mkPart 2 "aaa"] false)
      (mkFunding "COIN" [mkPart 3 "aaa"; mkPart 4 "bbb"] true) = OK gh /\
    Concat fg (mkFunding "COIN" [mkPart 3 "aaa"; mkPart 4 "bbb"] true) = OK r /\
    Concat (mkFunding "COIN" [mkPart 1 "aaa"] false) gh = OK r.
Proof.
  apply (Concat_assoc (mkFunding "COIN" [mkPart 1 "aaa"] false)
           (mkFunding "COIN" [mkPart 2 "aaa"] false)
           (mkFunding "COIN" [mkPart 3 "aaa"; mkPart 4 "bbb"] true));
    reflexivity.
Defined.


(** ** [Take] and [TakeMax] beyond what a funding holds *)

(** Asked for more than the parts hold, the loop takes every part in full. *)
Lemma take_loop_short parts : forall m,
  Forall (fun p => 0 <= Amount p < two64) parts ->
  sum_amounts parts < m < two64 ->
  take_loop parts [] [] m = mkTake parts [] (m - sum_amounts parts) [].
Proof.
  induction parts as [|p rest IH]; intros m Hall Hm.
  - simpl. f_equal. change (sum_amounts []) with 0. lia.
  - rewrite sum_amounts_cons in *. inversion Hall as [|? ? Hp Hrest]; subst.
    assert (Hnn : 0 <= sum_amounts rest).
    { apply sum_amounts_nonneg. eapply Forall_impl; [exact Hrest|].
      simpl. intros q Hq. lia. }
    simpl.
    destruct (Z.ltb_spec 0 m) as [_|]; [|lia].
    destruct (Z.ltb_spec m (Amount p)) as [|_]; [lia|].
    rewrite take_loop_acc, sub64_small by lia.
    rewrite (IH (m - Amount p) Hrest) by lia. simpl.
    destruct p as [amt acc]; simpl. f_equal. lia.
Qed.

(** X4. On a finite funding whose amounts are [uint64] values, [Take] fails,
    with the error "insufficient funding", exactly when the amount asked for
    exceeds the sum of the amounts. *)
Theorem Take_insufficient_iff (f : Funding) (m : Z) :
  Infinite f = false ->
  u64_parts f ->
  0 <= m < two64 ->
  (Take f m = Err "insufficient funding" <-> sum_amounts (Parts f) < m) /\
  ((exists t r, Take f m = OK (t, r)) <-> m <= sum_amounts (Parts f)).
Proof.
  intros Hfin Hall Hm.
  destruct (Z.le_gt_cases m (sum_amounts (Parts f))) as [Hle|Hgt].
  - destruct (take_loop_enough (Parts f) m Hall ltac:(lia) ltac:(lia))
      as (Hrem & _ & _).
    unfold Take. rewrite Hrem. simpl.
    split; split; try lia; try discriminate; eauto.
  - unfold Take. rewrite (take_loop_short (Parts f) m Hall) by lia. simpl.
    destruct (Z.eqb_spec (m - sum_amounts (Parts f)) 0) as [|_]; [lia|].
    rewrite Hfin. simpl.
    split; split; try lia; try reflexivity. intros (t & r & H). discriminate.
Qed.

Lemma Take_insufficient_iff_witness :
  (Take (mkFunding "GEM" [mkPart 3 "users:001"; mkPart 12 "payments:001"] false) 16
   = Err "insufficient funding" <-> 3 + (12 + 0) < 16) /\
  ((exists t r,
       Take (mkFunding "GEM" [mkPart 3 "users:001"; mkPart 12 "payments:001"] false) 16
       = OK (t, r)) <-> 16 <= 3 + (12 + 0)).
Proof.
  apply (Take_insufficient_iff
           (mkFunding "GEM" [mkPart 3 "users:001"; mkPart 12 "payments:001"] false) 16).
  - reflexivity.
  - repeat constructor; simpl; lia.
  - split; [lia | reflexivity].
Defined.

(** X5. [Take] on an infinite funding never fails: the taken funding is
    finite and its amounts add up to the amount asked for, the remainder is
    infinite. When the parts cover the amount they are divided as for a
    finite funding; otherwise the taken funding is all the parts followed by
    one part of [world] for what is missing, and the remainder is without
    parts. *)
Theorem Take_infinite (f : Funding) (m : Z) :
  Infinite f = true ->
  u64_parts f ->
  0 <= m < two64 ->
  exists t r,
    Take f m = OK (t, r) /\
    Infinite t = false /\ Infinite r = true /\
    Asset t = Asset f /\ Asset r = Asset f /\
    sum_amounts (Parts t) = m /\
    (m <= sum_amounts (Parts f) ->
     sum_amounts (Parts r) = sum_amounts (Parts f) - m /\
     (Parts t ++ Parts r = Parts f \/
      exists pre post acc a b,
        0 < a /\ 0 < b /\
        Parts f = pre ++ mkPart (a + b) acc :: post /\
        Parts t = pre ++ [mkPart a acc] /\
        Parts r = mkPart b acc :: post)) /\
    (sum_amounts (Parts f) < m ->
     Parts t = Parts f ++ [mkPart (m - sum_amounts (Parts f)) "world"] /\
     Parts r = []).
Proof.
  intros Hinf Hall Hm.
  destruct (Z.le_gt_cases m (sum_amounts (Parts f))) as [Hle|Hgt].
  - destruct (take_loop_enough (Parts f) m Hall ltac:(lia) ltac:(lia))
      as (Hrem & Hres & Hdiv).
    pose proof (divides_sum _ _ _ _ Hdiv) as Hcons.
    unfold Take. rewrite Hrem. simpl. rewrite copy_parts_id.
    eexists _, _. split; [reflexivity|]. simpl.
    do 5 (split; [first [reflexivity | assumption]|]).
    split; [|intros; lia]. intros _. split; [lia|].
    destruct Hdiv as [[Hnil Happ] | (pre & acc & a & b & Ha & Hb & Hp & Hr & Hq)].
    + left. now rewrite Hnil.
    + right. exists pre, (ts_rest (take_loop (Parts f) [] [] m)), acc, a, b.
      rewrite Hq. repeat split; assumption.
  - unfold Take. rewrite (take_loop_short (Parts f) m Hall) by lia. simpl.
    destruct (Z.eqb_spec (m - sum_amounts (Parts f)) 0) as [|_]; [lia|].
    rewrite Hinf. simpl.
    eexists _, _. split; [reflexivity|]. simpl.
    do 4 (split; [reflexivity|]).
    split; [rewrite sum_amounts_app; unfold sum_amounts at 2; simpl; lia|].
    split; [intros; lia|]. intros _. now split.
Qed.

Lemma Take_infinite_witness :
  exists t r,
    Take (mkFunding "COIN" [mkPart 30 "aaa"] true) 80 = OK (t, r) /\
    Infinite t = false /\ Infinite r = true /\
    Asset t = "COIN" /\ Asset r = "COIN" /\
    sum_amounts (Parts t) = 80 /\
    (80 <= 30 + 0 ->
     sum_amounts (Parts r) = 30 + 0 - 80 /\
     (Parts t ++ Parts r = [mkPart 30 "aaa"] \/
      exists pre post acc a b,
        0 < a /\ 0 < b /\
        [mkPart 30 "aaa"] = pre ++ mkPart (a + b) acc :: post /\
        Parts t = pre ++ [mkPart a acc] /\
        Parts r = mkPart b acc :: post)) /\
    (30 + 0 < 80 ->
     Parts t = [mkPart 30 "aaa"] ++ [mkPart (80 - (30 + 0)) "world"] /\
     Parts r = []).
Proof.
  apply (Take_infinite (mkFunding "COIN" [mkPart 30 "aaa"] true) 80).
  - reflexivity.
  - repeat constructor; simpl; lia.
  - split; [lia | reflexivity].
Defined.

(** X6. [TakeMax] on a finite funding whose amounts are [uint64] values
    takes the amount asked for or, if that is less, all there is; what it
    takes and what it leaves add up to what the funding holds, and both are
    finite fundings of the asset. *)
Theorem TakeMax_conserves (f : Funding) (m : Z) :
  Infinite f = false ->
  u64_parts f ->
  0 <= m < two64 ->
  let '(t, r) := TakeMax f m in
  sum_amounts (Parts t) = Z.min m (sum_amounts (Parts f)) /\
  sum_amounts (Parts t) + sum_amounts (Parts r) = sum_amounts (Parts f) /\
  Asset t = Asset f /\ Asset r = Asset f /\
  Infinite t = false /\ Infinite r = false.
Proof.
  intros Hfin Hall Hm.
  destruct (Z.le_gt_cases m (sum_amounts (Parts f))) as [Hle|Hgt].
  - destruct (take_loop_enough (Parts f) m Hall ltac:(lia) ltac:(lia))
      as (Hrem & Hres & Hdiv).
    pose proof (divides_sum _ _ _ _ Hdiv) as Hcons.
    unfold TakeMax. rewrite Hrem. simpl. rewrite copy_parts_id, Hfin.
    repeat split; lia.
  - unfold TakeMax. rewrite (take_loop_short (Parts f) m Hall) by lia.
    simpl. rewrite Hfin, andb_false_r. simpl.
    change (sum_amounts []) with 0. repeat split; lia.
Qed.

Lemma TakeMax_conserves_witness :
  let '(t, r) := TakeMax (mkFunding "COIN" [mkPart 90 "aaa"] false) 80 in
  sum_amounts (Parts t) = Z.min 80 (90 + 0) /\
  sum_amounts (Parts t) + sum_amounts (Parts r) = 90 + 0 /\
  Asset t = "COIN" /\ Asset r = "COIN" /\
  Infinite t = false /\ Infinite r = false.
Proof.
  apply (TakeMax_conserves (mkFunding "COIN" [mkPart 90 "aaa"] false) 80).
  - reflexivity.
  - repeat constructor; simpl; lia.
  - split; [lia | reflexivity].
Defined.

(** ** Positive amounts are kept *)

Lemma divides_positive parts result remainder rest :
  Forall (fun p => 0 < Amount p < two64) parts ->
  divides parts result remainder rest ->
  Forall (fun p => 0 < Amount p < two64) result /\
  Forall (fun p => 0 < Amount p < two64) (remainder ++ rest).
Proof.
  intros Hall [[-> <-] | (pre & acc & a & b & Ha & Hb & -> & -> & ->)].
  - now apply Forall_app in Hall.
  - apply Forall_app in Hall as [Hpre Hcut].
    inversion Hcut as [|? ? Hab Hrest]; subst. simpl in Hab.
    split.
    + apply Forall_app. split; [exact Hpre|]. repeat constructor; simpl; lia.
    + constructor; [simpl; lia | exact Hrest].
Qed.

(** X7. [Take] and [TakeMax] keep the amounts positive: from a funding,
    finite or not, whose parts all have a positive amount, the fundings taken
    and left have parts of positive amounts only. *)
Theorem Take_positive (f : Funding) (m : Z) :
  positive_parts f ->
  0 <= m < two64 ->
  (forall t r, Take f m = OK (t, r) -> positive_parts t /\ positive_parts r) /\
  (positive_parts (fst (TakeMax f m)) /\ positive_parts (snd (TakeMax f m))).
Proof.
  intros Hpos Hm. unfold positive_parts in *.
  pose proof (positive_in_range _ Hpos) as Hrange.
  destruct (Z.le_gt_cases m (sum_amounts (Parts f))) as [Hle|Hgt].
  - destruct (take_loop_enough (Parts f) m Hrange ltac:(lia) ltac:(lia))
      as (Hrem & _ & Hdiv).
    destruct (divides_positive _ _ _ _ Hpos Hdiv) as [Ht Hr].
    unfold Take, TakeMax. rewrite Hrem. simpl. rewrite copy_parts_id.
    split; [|now split].
    intros t r H. injection H as <- <-. now split.
  - unfold Take, TakeMax. rewrite (take_loop_short (Parts f) m Hrange) by lia.
    simpl.
    destruct (Z.eqb_spec (m - sum_amounts (Parts f)) 0) as [|_]; [lia|].
    pose proof (sum_amounts_nonneg _ (positive_nonneg _ Hpos)) as Hnn.
    assert (Hworld : Forall (fun p => 0 < Amount p < two64)
                       (Parts f ++ [mkPart (m - sum_amounts (Parts f)) "world"])).
    { apply Forall_app. split; [exact Hpos|]. repeat constructor; simpl; lia. }
    destruct (Infinite f); simpl.
    + split; [|split; [exact Hworld | constructor]].
      intros t r H. injection H as <- <-. split; [exact Hworld | constructor].
    + split; [discriminate|]. split; [exact Hpos | constructor].
Qed.

Lemma Take_positive_witness :
  (forall t r,
      Take (mkFunding "COIN" [mkPart 70 "aaa"; mkPart 30 "bbb"] false) 80 = OK (t, r) ->
      positive_parts t /\ positive_parts r) /\
  (positive_parts
     (fst (TakeMax (mkFunding "COIN" [mkPart 70 "aaa"; mkPart 30 "bbb"] false) 80)) /\
   positive_parts
     (snd (TakeMax (mkFunding "COIN" [mkPart 70 "aaa"; mkPart 30 "bbb"] false) 80))).
Proof.
  apply (Take_positive (mkFunding "COIN" [mkPart 70 "aaa"; mkPart 30 "bbb"] false) 80).
  - repeat constructor.
  - split; [lia | reflexivity].
Defined.

(** ** Fundings without two neighbouring parts of one account *)

Lemma merged_app_inv (l1 l2 : list FundingPart) :
  merged (l1 ++ l2) -> merged l1 /\ merged l2.
Proof.
  induction l1 as [|p l1 IH]; [now split|].
  destruct l1 as [|q l1].
  - simpl. destruct l2; [now split|]. intros [_ H]. now split.
  - simpl app. intros [Hpq H]. destruct (IH H) as [H1 H2].
    split; [split; assumption | assumption].
Qed.

Lemma merged_junction (pre post : list FundingPart) x y :
  merged (pre ++ x :: y :: post) -> Account x <> Account y.
Proof. intros H. apply merged_app_inv in H as [_ H]. apply H. Qed.


Lemma merged_head (post : list FundingPart) x x' :
  Account x' = Account x -> merged (x :: post) -> merged (x' :: post).
Proof. intros Heq. destruct post; [trivial|]. simpl. now rewrite Heq. Qed.

Lemma merged_last (pre : list FundingPart) x x' :
  Account x' = Account x -> merged (pre ++ [x]) -> merged (pre ++ [x']).
Proof.
  intros Heq. induction pre as [|p pre IH]; [trivial|].
  destruct pre as [|q pre].
  - simpl. now rewrite Heq.
  - simpl app. intros [Hpq H]. split; [exact Hpq|]. now apply IH.
Qed.





(** X9. [Take] followed by [Concat] gives the funding back: for a finite
    funding without two neighbouring parts of one account, whose amounts are
    [uint64] values, and an amount that it covers, the concatenation of the
    funding taken and of the remainder is the funding itself; both are again
    without neighbouring parts of one account. *)
Theorem Take_Concat_roundtrip (f : Funding) (m : Z) :
  Infinite f = false ->
  u64_parts f ->
  merged (Parts f) ->
  0 <= m <= sum_amounts (Parts f) -> m < two64 ->
  exists t r,
    Take f m = OK (t, r) /\ Concat t r = OK f /\
    merged (Parts t) /\ merged (Parts r).
Proof.
  intros Hfin Hall Hmerged Hm Hlt.
  pose proof (take_loop_enough (Parts f) m Hall Hm Hlt) as H.
  unfold Take. destruct f as [asset parts inf]. simpl in *. subst inf.
  destruct (take_loop parts [] [] m) as [t rm rem rs]. simpl in *.
  destruct H as (-> & _ & Hdiv). simpl. rewrite copy_parts_id.
  eexists _, _. split; [reflexivity|].
  unfold Concat. simpl. rewrite String.eqb_refl. simpl.
  destruct Hdiv as [[-> <-] | (pre & acc & a & b & Ha & Hb & -> & -> & ->)].
  - simpl. destruct (merged_app_inv _ _ Hmerged) as [Ht Hr].
    split; [|split; assumption]. do 2 f_equal.
    destruct t as [|lt pt _] using rev_ind; [reflexivity|].
    destruct rs as [|or pr]; [now rewrite concat_parts_nil_r, app_nil_r|].
    rewrite concat_parts_snoc_cons.
    rewrite <- app_assoc in Hmerged. simpl in Hmerged.
    apply merged_junction in Hmerged.
    destruct (String.eqb_spec (Account lt) (Account or)); [contradiction|].
    now rewrite <- app_assoc.
  - simpl app. rewrite concat_parts_snoc_cons. simpl.
    rewrite String.eqb_refl.
    apply Forall_app in Hall as [_ Hcut].
    inversion Hcut as [|? ? Hab _]; subst. simpl in Hab.
    rewrite add64_small by lia.
    split; [reflexivity|].
    destruct (merged_app_inv _ _ Hmerged) as [_ Hpost].
    change (pre ++ mkPart (a + b) acc :: rs)
      with (pre ++ [mkPart (a + b) acc] ++ rs) in Hmerged.
    rewrite app_assoc in Hmerged.
    destruct (merged_app_inv _ _ Hmerged) as [Hpre _].
    split.
    + exact (merged_last pre (mkPart (a + b) acc) (mkPart a acc) eq_refl Hpre).
    + exact (merged_head rs (mkPart (a + b) acc) (mkPart b acc) eq_refl Hpost).
Qed.

Lemma Take_Concat_roundtrip_witness :
  exists t r,
    Take (mkFunding "COIN" [mkPart 70 "aaa"; mkPart 30 "bbb"; mkPart 50 "ccc"] false) 80
    = OK (t, r) /\
    Concat t r
    = OK (mkFunding "COIN" [mkPart 70 "aaa"; mkPart 30 "bbb"; mkPart 50 "ccc"] false) /\
    merged (Parts t) /\ merged (Parts r).
Proof.
  apply (Take_Concat_roundtrip
           (mkFunding "COIN" [mkPart 70 "aaa"; mkPart 30 "bbb"; mkPart 50 "ccc"] false)
           80).
  - reflexivity.
  - repeat constructor; simpl; lia.
  - simpl. repeat split; discriminate.
  - simpl. lia.
  - reflexivity.
Defined.


(** * Further properties of the machine *)

(** ** The balances *)

(** X10. [withdrawAll] on an account other than [world]. When the balances
    hold an entry for the account and the asset, it returns the finite
    funding of one part with that balance, sets the entry to 0 and leaves
    every other entry as it is; when the account or the asset has no entry it
    returns an error and leaves the balances as they are. *)
Theorem withdrawAll_entry (bal : balances) (account asset : string) :
  account <> "world" ->
  match balance_of bal account asset with
  | Some v =>
      exists bal',
        withdrawAll bal account asset
        = (OK (mkFunding asset [mkPart v account] false), bal') /\
        forall a s,
          balance_of bal' a s
          = if decide (a = account /\ s = asset) then Some 0 else balance_of bal a s
  | None =>
      exists msg, withdrawAll bal account asset = (Err msg, bal)
  end.
Proof.
  intros Hw. unfold withdrawAll, balance_of.
  destruct (String.eqb_spec account "world"); [contradiction|].
  destruct (bal ≫= (fun b => b !! account)) as [inner|] eqn:Hacc; simpl; [|eauto].
  destruct (inner !! asset) as [v|] eqn:Hv; [|eauto].
  eexists. split; [reflexivity|]. intros a s.
  now apply balance_of_write.
Qed.

Lemma withdrawAll_entry_witness :
  match balance_of (Some {["alice" := {["EUR/2" := 100]}]}) "alice" "EUR/2" with
  | Some v =>
      exists bal',
        withdrawAll (Some {["alice" := {["EUR/2" := 100]}]}) "alice" "EUR/2"
        = (OK (mkFunding "EUR/2" [mkPart v "alice"] false), bal') /\
        forall a s,
          balance_of bal' a s
          = if decide (a = "alice" /\ s = "EUR/2") then Some 0
            else balance_of (Some {["alice" := {["EUR/2" := 100]}]}) a s
  | None =>
      exists msg,
        withdrawAll (Some {["alice" := {["EUR/2" := 100]}]}) "alice" "EUR/2"
        = (Err msg, Some {["alice" := {["EUR/2" := 100]}]})
  end.
Proof.
  apply (withdrawAll_entry (Some {["alice" := {["EUR/2" := 100]}]}) "alice" "EUR/2").
  discriminate.
Defined.

(** X11. [withdrawAll] followed by [repay] of the funding it returned
    restores the balances: for an account other than [world] with an entry
    that is a [uint64] value, [repay] succeeds and gives back the very map
    [withdrawAll] was called on. *)
Theorem withdrawAll_repay (bal : balances) (account asset : string) (v : Z) :
  account <> "world" ->
  balance_of bal account asset = Some v ->
  is_u64 v ->
  exists f bal',
    withdrawAll bal account asset = (OK f, bal') /\
    Total f = OK v /\
    repay bal' f = Some bal.
Proof.
  intros Hw Hv Hu. unfold withdrawAll, balance_of in *.
  destruct (String.eqb_spec account "world"); [contradiction|].
  destruct bal as [b|]; [|discriminate]. simpl in *.
  destruct (b !! account) as [inner|] eqn:Hacc; [|discriminate]. simpl in *.
  rewrite Hv. eexists _, _. split; [reflexivity|]. split.
  - unfold Total. simpl. unfold add64. f_equal. apply Z.mod_small. exact Hu.
  - unfold repay. simpl.
    destruct (String.eqb_spec account "world"); [contradiction|].
    rewrite lookup_insert_eq. simpl. do 2 f_equal.
    unfold add_entry. rewrite lookup_insert_eq. simpl.
    rewrite insert_insert_eq.
    replace (add64 0 v) with v
      by (unfold add64; symmetry; apply Z.mod_small; exact Hu).
    rewrite insert_insert_eq, (insert_id inner asset v Hv).
    now apply insert_id.
Qed.

Lemma withdrawAll_repay_witness :
  exists f bal',
    withdrawAll (Some {["alice" := {["EUR/2" := 100]}]}) "alice" "EUR/2" = (OK f, bal') /\
    Total f = OK 100 /\
    repay bal' f = Some (Some {["alice" := {["EUR/2" := 100]}]}).
Proof.
  apply (withdrawAll_repay (Some {["alice" := {["EUR/2" := 100]}]}) "alice" "EUR/2" 100).
  - discriminate.
  - vm_compute. reflexivity.
  - split; [lia | reflexivity].
Defined.

(** The loop of [credit] adds the amounts to the entry of the asset and
    leaves the other entries of the inner map as they are. *)
Lemma credit_loop_lookup asset parts : forall (inner : gmap string Z) v,
  inner !! asset = Some v ->
  fold_left (fun ab part => add_entry ab asset (Amount part)) parts inner
  = <[asset :=
        fold_left (fun total part => add64 total (Amount part)) parts v]> inner.
Proof.
  induction parts as [|p parts IH]; intros inner v Hv; simpl.
  - symmetry. now apply insert_id.
  - rewrite (IH _ (add64 v (Amount p))).
    + unfold add_entry. rewrite Hv. simpl. now rewrite insert_insert_eq.
    + unfold add_entry. now rewrite lookup_insert_eq, Hv.
Qed.

(** X12. [credit] on an account other than [world]. When the balances hold
    an entry for the account and the asset of the funding, a [uint64] value,
    the entry becomes its sum with the amounts of the funding modulo [2^64]
    and every other entry stays; when the account or the asset has no entry
    the balances stay as they are: no entry is made. *)
Theorem credit_entry (bal : balances) (account : string) (f : Funding) :
  account <> "world" ->
  match balance_of bal account (Asset f) with
  | Some v =>
      is_u64 v ->
      forall a s,
        balance_of (credit bal account f) a s
        = if decide (a = account /\ s = Asset f)
          then Some ((v + sum_amounts (Parts f)) mod two64)
          else balance_of bal a s
  | None => credit bal account f = bal
  end.
Proof.
  intros Hw. unfold credit, balance_of.
  destruct (String.eqb_spec account "world"); [contradiction|].
  destruct (bal ≫= (fun b => b !! account)) as [inner|] eqn:Hacc; simpl;
    [|reflexivity].
  destruct (inner !! Asset f) as [v|] eqn:Hv; [|reflexivity].
  intros Hu a s.
  rewrite (credit_loop_lookup _ _ inner v Hv), total_loop_mod by exact Hu.
  now apply balance_of_write.
Qed.

Lemma credit_entry_witness :
  "bob" <> "world" /\ is_u64 1 /\
  balance_of (Some {["bob" := {["EUR/2" := 1]}]}) "bob" "EUR/2" = Some 1 /\
  balance_of (credit (Some {["bob" := {["EUR/2" := 1]}]}) "bob"
                (mkFunding "EUR/2" [mkPart 100 "alice"] false)) "bob" "EUR/2"
  = Some ((1 + (100 + 0)) mod two64).
Proof.
  assert (Hw : "bob" <> "world") by discriminate.
  assert (Hu : is_u64 1) by (split; [lia | reflexivity]).
  assert (Hb : balance_of (Some {["bob" := {["EUR/2" := 1]}]}) "bob" "EUR/2" = Some 1)
    by (vm_compute; reflexivity).
  pose proof (credit_entry (Some {["bob" := {["EUR/2" := 1]}]}) "bob"
                (mkFunding "EUR/2" [mkPart 100 "alice"] false) Hw) as H.
  cbn [Asset] in H. rewrite Hb in H.
  specialize (H Hu "bob" "EUR/2").
  rewrite decide_True in H by (split; reflexivity).
  split; [exact Hw|]. split; [exact Hu|]. split; [exact Hb|exact H].
Defined.


(** ** What [repay] writes *)

(** X13. What [repay] writes when it goes through: for every account other
    than [world] that the funding names, the entry of the asset of the
    funding becomes its former value, 0 if there was none, plus the amounts
    of the parts of that account, modulo [2^64]; the entries of [world], of
    the accounts the funding does not name, and of other assets stay as they
    are. *)
Theorem repay_balance (bal bal' : balances) (f : Funding) :
  repay bal f = Some bal' ->
  forall a s,
    (s <> Asset f -> balance_of bal' a s = balance_of bal a s) /\
    (a = "world" \/ a ∉ map Account (Parts f) ->
     balance_of bal' a (Asset f) = balance_of bal a (Asset f)) /\
    (a <> "world" -> a ∈ map Account (Parts f) ->
     balance_of bal' a (Asset f)
     = Some ((default 0 (balance_of bal a (Asset f)) + amount_of a (Parts f))
             mod two64)).
Proof.
  intros H a s. unfold repay in H.
  exact (repay_loop_balance (Asset f) (Parts f) bal bal' H a s).
Qed.

Lemma repay_balance_witness :
  repay (Some {["bbb" := ∅]}) (mkFunding "COIN" [mkPart 2 "bbb"] false)
  = Some (Some {["bbb" := {["COIN" := 2]}]}) /\
  balance_of (Some {["bbb" := {["COIN" := 2]}]}) "bbb" "COIN"
  = Some ((default 0 (balance_of (Some {["bbb" := ∅]}) "bbb" "COIN")
           + amount_of "bbb" [mkPart 2 "bbb"]) mod two64) /\
  balance_of (Some {["bbb" := {["COIN" := 2]}]}) "bbb" "GEM"
  = balance_of (Some {["bbb" := ∅]}) "bbb" "GEM".
Proof.
  assert (Hr : repay (Some {["bbb" := ∅]}) (mkFunding "COIN" [mkPart 2 "bbb"] false)
               = Some (Some {["bbb" := {["COIN" := 2]}]}))
    by (vm_compute; reflexivity).
  split; [exact Hr|]. split.
  - apply (repay_balance _ _ _ Hr "bbb" "COIN"); [discriminate|].
    simpl. apply list_elem_of_singleton. reflexivity.
  - apply (repay_balance _ _ _ Hr "bbb" "GEM"). discriminate.
Defined.


(** ** The postings of [OP_SEND] *)

Lemma send_postings_sources dest asset parts :
  map post_Source (send_postings dest asset parts)
  = map Account (filter (fun p => Amount p <> 0) parts).
Proof.
  induction parts as [|p parts IH]; [reflexivity|]. simpl.
  rewrite filter_cons.
  destruct (Z.eqb_spec (Amount p) 0) as [Hz|Hz].
  - now rewrite decide_False by tauto.
  - rewrite decide_True by assumption. simpl. now rewrite IH.
Qed.

Lemma send_postings_small dest asset parts :
  Forall (fun p => 0 <= Amount p < 2 ^ 63) parts ->
  posted (send_postings dest asset parts) = sum_amounts parts /\
  Forall (fun q => post_Destination q = dest /\ post_Asset q = asset /\
                   0 < post_Amount q)
    (send_postings dest asset parts).
Proof.
  induction 1 as [|p parts Hp _ [IHs IHf]]; [now split|].
  rewrite sum_amounts_cons. cbn [send_postings].
  destruct (Z.eqb_spec (Amount p) 0) as [Hz|Hz].
  - split; [lia | exact IHf].
  - split.
    + change (posted (mkPosting (Account p) dest asset (to_int (Amount p))
                        :: send_postings dest asset parts))
        with (to_int (Amount p) + posted (send_postings dest asset parts)).
      rewrite (to_int_small _ Hp). lia.
    + constructor; [|exact IHf]. simpl. rewrite (to_int_small _ Hp).
      repeat split. lia.
Qed.

Lemma send_postings_large dest asset parts p :
  p ∈ parts -> 2 ^ 63 <= Amount p ->
  mkPosting (Account p) dest asset (Amount p - two64)
  ∈ send_postings dest asset parts.
Proof.
  intros Hin Hp. induction parts as [|q parts IH]; [now apply not_elem_of_nil in Hin|].
  simpl. apply elem_of_cons in Hin as [<-|Hin].
  - destruct (Z.eqb_spec (Amount p) 0); [lia|].
    replace (to_int (Amount p)) with (Amount p - two64); [left|].
    unfold to_int. destruct (Z.ltb_spec (Amount p) (2 ^ 63)); [lia | reflexivity].
  - specialize (IH Hin). destruct (Amount q =? 0); [exact IH | now right].
Qed.

Section Instructions.
Context {ext : Extern}.

(** X14. [OP_SEND] with the account [dest] on top of the stack and the
    funding [f] below it: the two are popped, [dest] is credited and the
    postings of [f] are appended to the postings of the machine, one for
    each part of non-zero amount, in the order of the parts and with the
    account of the part as source. When every amount is below [2^63] the
    postings are all to [dest], of the asset of [f], of positive amounts that
    add up to the sum of the amounts of [f]; a part of an amount from [2^63]
    on gives a posting of the negative amount [Amount - 2^64]. *)
Theorem SEND_postings (m : Machine) op s (f : Funding) dest :
  Instructions (Program m) !! P m = Some op ->
  opcode_of op = Some OP_SEND ->
  Stack m = s ++ [VFunding f; VAccount dest] ->
  exists ps,
    tick m = advance (set_Postings
                        (set_Balances (set_Stack m s)
                           (credit (Balances m) dest f))
                        (Postings m ++ ps)) /\
    map post_Source ps = map Account (filter (fun p => Amount p <> 0) (Parts f)) /\
    (Forall (fun p => 0 <= Amount p < 2 ^ 63) (Parts f) ->
     posted ps = sum_amounts (Parts f) /\
     Forall (fun q => post_Destination q = dest /\ post_Asset q = Asset f /\
                      0 < post_Amount q) ps) /\
    (forall p, p ∈ Parts f -> 2 ^ 63 <= Amount p ->
               mkPosting (Account p) dest (Asset f) (Amount p - two64) ∈ ps).
Proof.
  intros Hop Hdec Hstack.
  exists (send_postings dest (Asset f) (Parts f)). split; [|split; [|split]].
  - rewrite (tick_decode m op _ Hop Hdec). simpl. unfold bind.
    rewrite snoc2 in Hstack. rewrite (popAccount_top m _ _ Hstack).
    rewrite (popFunding_top (set_Stack m (s ++ [VFunding f])) s f eq_refl).
    reflexivity.
  - apply send_postings_sources.
  - apply send_postings_small.
  - intros p. apply send_postings_large.
Qed.

(** ** [OP_BUMP] *)

Lemma to_int_cases n : is_u64 n ->
  (n < 2 ^ 63 /\ to_int n = n) \/ (2 ^ 63 <= n /\ to_int n < 0).
Proof.
  intros [H0 H1]. unfold to_int, two64 in *.
  destruct (Z.ltb_spec n (2 ^ 63)); [left | right]; lia.
Qed.

(** X15. [OP_BUMP] with the Number [n] on top of the stack moves the value
    that lies [n] places below the top of the rest to the top and keeps the
    order of the others; when the rest has [n] values or fewer, the index is
    out of range and [tick] panics. *)
Theorem BUMP_moves (m : Machine) op :
  Instructions (Program m) !! P m = Some op ->
  opcode_of op = Some OP_BUMP ->
  (forall s v above,
      Stack m = s ++ [v] ++ above ++ [VNumber (Z.of_nat (length above))] ->
      Z.of_nat (length above) < 2 ^ 63 ->
      tick m = advance (set_Stack m (s ++ above ++ [v]))) /\
  (forall rest n,
      Stack m = rest ++ [VNumber n] ->
      is_u64 n -> Z.of_nat (length rest) <= n ->
      tick m = Panic).
Proof.
  intros Hop Hdec. split.
  - intros s v above Hstack Hsmall.
    rewrite (tick_decode m op _ Hop Hdec). simpl. unfold bind at 1.
    rewrite !app_assoc in Hstack. rewrite (popNumber_top m _ _ Hstack).
    unfold bind, get. simpl Stack.
    rewrite to_int_small by lia. cbn [Stack set_Stack].
    assert (Hlen : length ((s ++ [v]) ++ above) = (length s + 1 + length above)%nat)
      by (rewrite !length_app; reflexivity).
    assert (Hidx : Z.of_nat (length ((s ++ [v]) ++ above))
                   - Z.of_nat (length above) - 1 = Z.of_nat (length s)) by lia.
    rewrite Hidx, Nat2Z.id.
    destruct (Z.ltb_spec (Z.of_nat (length s)) 0) as [|_]; [lia|].
    destruct (Z.leb_spec (Z.of_nat (length ((s ++ [v]) ++ above)))
                (Z.of_nat (length s))) as [|_]; [lia|].
    cbn [orb].
    assert (Hv : ((s ++ [v]) ++ above) !! length s = Some v)
      by (rewrite <- app_assoc; now apply list_lookup_middle).
    rewrite Hv.
    assert (Htake : take (length s) ((s ++ [v]) ++ above) = s)
      by (rewrite <- app_assoc; apply take_app_length).
    assert (Hdrop : drop (length s + 1) ((s ++ [v]) ++ above) = above).
    { replace (length s + 1)%nat with (length (s ++ [v]))
        by (rewrite length_app; reflexivity).
      apply drop_app_length. }
    rewrite Htake, Hdrop. unfold put. rewrite <- (app_assoc s above [v]). reflexivity.
  - intros rest n Hstack Hn Hlen.
    rewrite (tick_decode m op _ Hop Hdec). simpl. unfold bind at 1.
    rewrite (popNumber_top m _ _ Hstack).
    unfold bind, get. cbn [Stack set_Stack].
    destruct (to_int_cases n Hn) as [[Hs ->]|[Hs Hneg]].
    + destruct (Z.ltb_spec (Z.of_nat (length rest) - n - 1) 0) as [_|]; [|lia].
      reflexivity.
    + destruct (Z.ltb_spec (Z.of_nat (length rest) - to_int n - 1) 0) as [_|_];
        [reflexivity|].
      destruct (Z.leb_spec (Z.of_nat (length rest))
                  (Z.of_nat (length rest) - to_int n - 1)) as [_|]; [|lia].
      reflexivity.
Qed.

End Instructions.

Lemma SEND_postings_witness :
  exists ps,
    tick (machine_of [Byte.x13]
            [VFunding (mkFunding "EUR/2" [mkPart 100 "alice"] false); VAccount "bob"] ∅)
    = advance (set_Postings
                 (set_Balances
                    (set_Stack
                       (machine_of [Byte.x13]
                          [VFunding (mkFunding "EUR/2" [mkPart 100 "alice"] false);
                           VAccount "bob"] ∅) [])
                    (credit (Some ∅) "bob" (mkFunding "EUR/2" [mkPart 100 "alice"] false)))
                 ([] ++ ps)) /\
    map post_Source ps
    = map Account (filter (fun p => Amount p <> 0) [mkPart 100 "alice"]) /\
    (Forall (fun p => 0 <= Amount p < 2 ^ 63) [mkPart 100 "alice"] ->
     posted ps = 100 + 0 /\
     Forall (fun q => post_Destination q = "bob" /\ post_Asset q = "EUR/2" /\
                      0 < post_Amount q) ps) /\
    (forall p, p ∈ [mkPart 100 "alice"] -> 2 ^ 63 <= Amount p ->
               mkPosting (Account p) "bob" "EUR/2" (Amount p - two64) ∈ ps).
Proof.
  apply (SEND_postings
           (machine_of [Byte.x13]
              [VFunding (mkFunding "EUR/2" [mkPart 100 "alice"] false); VAccount "bob"] ∅)
           Byte.x13 [] (mkFunding "EUR/2" [mkPart 100 "alice"] false) "bob");
    reflexivity.
Defined.

Lemma BUMP_moves_witness :
  tick (machine_of [Byte.x02] [VNumber 7; VNumber 8; VNumber 9; VNumber 1] ∅)
  = advance (set_Stack
               (machine_of [Byte.x02] [VNumber 7; VNumber 8; VNumber 9; VNumber 1] ∅)
               ([VNumber 7] ++ [VNumber 9] ++ [VNumber 8])).
Proof.
  apply (BUMP_moves
           (machine_of [Byte.x02] [VNumber 7; VNumber 8; VNumber 9; VNumber 1] ∅)
           Byte.x02 eq_refl eq_refl).
  - reflexivity.
  - reflexivity.
Defined.

(** ** Operands in the instructions *)

Lemma le_uint_bound (bytes : list Byte.byte) :
  0 <= le_uint bytes < 256 ^ Z.of_nat (length bytes).
Proof.
  induction bytes as [|b bytes IH]; [simpl; lia|].
  change (le_uint (b :: bytes)) with (Z.of_N (Byte.to_N b) + 256 * le_uint bytes).
  pose proof (Byte.to_N_bounded b) as Hb.
  replace (Z.of_nat (length (b :: bytes))) with (Z.succ (Z.of_nat (length bytes)))
    by (simpl length; lia).
  rewrite Z.pow_succ_r by lia. lia.
Qed.

Section Operands.
Context {ext : Extern}.

Lemma getResource_lookup (m : Machine) addr :
  0 <= addr -> getResource m addr = Resources m !! Z.to_nat addr.
Proof.
  intros Ha. unfold getResource.
  destruct (Z.leb_spec (Z.of_nat (length (Resources m))) addr) as [Hle|]; [|reflexivity].
  symmetry. apply lookup_ge_None. lia.
Qed.

(** X16. [OP_IPUSH] at the program counter [p]: when the eight bytes that
    follow the opcode are in the array of the instructions, the Number they
    spell in little-endian order, a [uint64] value, is pushed and the
    program counter moves past them; when fewer than eight bytes follow, the
    slice expression is out of range and [tick] panics. *)
Theorem IPUSH_operand (m : Machine) op :
  Instructions (Program m) !! P m = Some op ->
  opcode_of op = Some OP_IPUSH ->
  let arr := Instructions (Program m) ++ InstructionsSpare (Program m) in
  let n := le_uint (take 8 (drop (P m + 1) arr)) in
  ((P m + 9 <= length arr)%nat ->
   is_u64 n /\
   tick m = advance (set_P (set_Stack m (Stack m ++ [VNumber n])) (P m + 8))) /\
  ((length arr < P m + 9)%nat -> tick m = Panic).
Proof.
  intros Hop Hdec arr n.
  rewrite (tick_decode m op _ Hop Hdec). simpl.
  unfold operand, bind, get, instr_slice. fold arr.
  replace (P m + 9 - (P m + 1))%nat with 8%nat by lia. fold n.
  split; intros Hlen.
  - destruct (Nat.ltb_spec (length arr) (P m + 9)) as [|_]; [lia|].
    split; [|reflexivity].
    pose proof (le_uint_bound (take 8 (drop (P m + 1) arr))) as Hb. fold n in Hb.
    assert (Hl : length (take 8 (drop (P m + 1) arr)) = 8%nat)
      by (rewrite length_take, length_drop; lia).
    rewrite Hl in Hb. exact Hb.
  - destruct (Nat.ltb_spec (length arr) (P m + 9)) as [_|]; [reflexivity | lia].
Qed.

(** X17. [OP_APUSH] at the program counter [p]: the two bytes that follow
    spell an address below [65536]; when the machine has a resource at that
    address it is pushed and the program counter moves past the operand;
    when it has none [tick] returns [EXIT_FAIL] and leaves the machine as it
    is. *)
Theorem APUSH_operand (m : Machine) op :
  Instructions (Program m) !! P m = Some op ->
  opcode_of op = Some OP_APUSH ->
  let arr := Instructions (Program m) ++ InstructionsSpare (Program m) in
  let addr := le_uint (take 2 (drop (P m + 1) arr)) in
  (P m + 3 <= length arr)%nat ->
  0 <= addr < 65536 /\
  match Resources m !! Z.to_nat addr with
  | Some v => tick m = advance (set_P (set_Stack m (Stack m ++ [v])) (P m + 2))
  | None => tick m = Return m EXIT_FAIL
  end.
Proof.
  intros Hop Hdec arr addr Hlen.
  assert (Hb : 0 <= addr < 65536).
  { pose proof (le_uint_bound (take 2 (drop (P m + 1) arr))) as Hb. fold addr in Hb.
    assert (Hl : length (take 2 (drop (P m + 1) arr)) = 2%nat)
      by (rewrite length_take, length_drop; lia).
    rewrite Hl in Hb. exact Hb. }
  split; [exact Hb|].
  rewrite (tick_decode m op _ Hop Hdec). simpl.
  unfold operand, bind, get, instr_slice. fold arr.
  replace (P m + 3 - (P m + 1))%nat with 2%nat by lia. fold addr.
  destruct (Nat.ltb_spec (length arr) (P m + 3)) as [|_]; [lia|].
  unfold ret. rewrite getResource_lookup by lia.
  destruct (Resources m !! Z.to_nat addr) eqn:Hr; unfold addr in Hr; rewrite Hr;
    reflexivity.
Qed.

(** ** [OP_TAKE] *)

Lemma popMonetary_top (m : Machine) s mon :
  Stack m = s ++ [VMonetary mon] -> popMonetary m = Cont mon (set_Stack m s).
Proof. intros H. unfold popMonetary, bind. now rewrite (popValue_top m s _ H). Qed.

(** X18. [OP_TAKE] with the Monetary [mon] on top of the stack and a finite
    funding [f] below it, the amounts being [uint64] values. When the assets
    differ [tick] returns [EXIT_FAIL_INVALID]; when they agree and the
    amount exceeds the sum of the amounts of [f] it returns
    [EXIT_FAIL_INSUFFICIENT_FUNDS]; otherwise the remainder and, on top of
    it, the funding taken are pushed, and the two hold together what [f]
    held. *)
Theorem TAKE_outcomes (m : Machine) op s (f : Funding) (mon : Monetary) :
  Instructions (Program m) !! P m = Some op ->
  opcode_of op = Some OP_TAKE ->
  Stack m = s ++ [VFunding f; VMonetary mon] ->
  Infinite f = false -> u64_parts f -> is_u64 (mon_Amount mon) ->
  (Asset f <> mon_Asset mon ->
   tick m = Return (set_Stack m s) EXIT_FAIL_INVALID) /\
  (Asset f = mon_Asset mon -> sum_amounts (Parts f) < mon_Amount mon ->
   tick m = Return (set_Stack m s) EXIT_FAIL_INSUFFICIENT_FUNDS) /\
  (Asset f = mon_Asset mon -> mon_Amount mon <= sum_amounts (Parts f) ->
   exists t r,
     Take f (mon_Amount mon) = OK (t, r) /\
     tick m = advance (set_Stack m (s ++ [VFunding r; VFunding t])) /\
     sum_amounts (Parts t) = mon_Amount mon /\
     sum_amounts (Parts t) + sum_amounts (Parts r) = sum_amounts (Parts f)).
Proof.
  intros Hop Hdec Hstack Hfin Hall Hu.
  rewrite (tick_decode m op _ Hop Hdec). simpl. unfold bind.
  rewrite snoc2 in Hstack. rewrite (popMonetary_top m _ _ Hstack).
  rewrite (popFunding_top (set_Stack m (s ++ [VFunding f])) s f eq_refl).
  split; [|split].
  - intros Hne. destruct (String.eqb_spec (Asset f) (mon_Asset mon)); [contradiction|].
    reflexivity.
  - intros Heq Hlt. rewrite Heq, String.eqb_refl. simpl.
    unfold Take. rewrite (take_loop_short (Parts f) (mon_Amount mon) Hall)
      by (unfold is_u64 in Hu; lia).
    simpl.
    destruct (Z.eqb_spec (mon_Amount mon - sum_amounts (Parts f)) 0) as [|_]; [lia|].
    now rewrite Hfin.
  - intros Heq Hle. rewrite Heq, String.eqb_refl. simpl.
    destruct (take_loop_enough (Parts f) (mon_Amount mon) Hall)
      as (Hrem & Hres & Hdiv); [unfold is_u64 in Hu; lia | apply Hu|].
    pose proof (divides_sum _ _ _ _ Hdiv) as Hcons.
    unfold Take. rewrite Hrem, Hfin. simpl. rewrite copy_parts_id.
    eexists _, _. split; [reflexivity|]. simpl.
    split; [|split; [exact Hres | lia]].
    unfold pushValue. simpl. now rewrite <- app_assoc.
Qed.

(** ** [Execute] comes to an end *)

(** X19. Every round of [tick] that goes on moves the program counter
    forward inside the instructions and leaves the program as it is, and
    [tick] panics when the program counter is not inside the instructions.
    So the loop of [Execute] ends: [Execute] returns an error, ends in a
    panic, or returns an exit code after at most as many rounds as there are
    instructions left, the machine it leaves having the same program. *)
Theorem Execute_terminates (m : Machine) :
  (forall m' u, tick m = Cont u m' ->
     Program m' = Program m /\
     (P m < P m' < length (Instructions (Program m)))%nat) /\
  ((length (Instructions (Program m)) <= P m)%nat -> tick m = Panic) /\
  (exists r, Execute m = Some r) /\
  (forall m' code, Execute m = Some (Exited m' code) ->
     Program m' = Program m /\ exists c, halts m m' c).
Proof.
  split; [|split; [|split]].
  - intros m' u H. apply tick_cont in H as (Hp & Hlt & Hend & _). auto.
  - intros H. unfold tick. now rewrite (proj2 (lookup_ge_None _ _) H).
  - apply Execute_returns.
  - intros m' code. unfold Execute.
    destruct (negb _); [discriminate|].
    destruct (Balances m); [|discriminate].
    destruct (execute_loop_returns (length (Instructions (Program m)) - P m) m
                (S (length (Instructions (Program m)) - P m)))
      as [H|(m1 & c & Hh & H)]; try lia; rewrite H; [discriminate|].
    intros Heq. injection Heq as <- _.
    split; [now apply (halts_end m m1 c) | now exists c].
Qed.

End Operands.

Lemma APUSH_operand_witness :
  0 <= le_uint (take 2 (drop (0 + 1) ([Byte.x00; Byte.x00; Byte.x00] ++ []))) < 65536 /\
  tick (machine_of [Byte.x00; Byte.x00; Byte.x00] [] ∅)
  = Return (machine_of [Byte.x00; Byte.x00; Byte.x00] [] ∅) EXIT_FAIL.
Proof.
  apply (APUSH_operand (machine_of [Byte.x00; Byte.x00; Byte.x00] [] ∅) Byte.x00
           eq_refl eq_refl).
  simpl. lia.
Defined.

Lemma IPUSH_operand_witness :
  is_u64 (le_uint (take 8 (drop (0 + 1)
            ([Byte.x01; Byte.x2a; Byte.x00; Byte.x00; Byte.x00; Byte.x00;
              Byte.x00; Byte.x00; Byte.x00] ++ [])))) /\
  tick (machine_of [Byte.x01; Byte.x2a; Byte.x00; Byte.x00; Byte.x00; Byte.x00;
                    Byte.x00; Byte.x00; Byte.x00] [] ∅)
  = advance (set_P
               (set_Stack
                  (machine_of [Byte.x01; Byte.x2a; Byte.x00; Byte.x00; Byte.x00;
                               Byte.x00; Byte.x00; Byte.x00; Byte.x00] [] ∅)
                  ([] ++ [VNumber (le_uint (take 8 (drop (0 + 1)
                     ([Byte.x01; Byte.x2a; Byte.x00; Byte.x00; Byte.x00; Byte.x00;
                       Byte.x00; Byte.x00; Byte.x00] ++ []))))]))
               (0 + 8)).
Proof.
  apply (IPUSH_operand
           (machine_of [Byte.x01; Byte.x2a; Byte.x00; Byte.x00; Byte.x00; Byte.x00;
                        Byte.x00; Byte.x00; Byte.x00] [] ∅) Byte.x01
           eq_refl eq_refl).
  simpl. lia.
Defined.

Lemma TAKE_outcomes_witness :
  tick (machine_of [Byte.x0c]
          [VFunding (mkFunding "GEM" [mkPart 3 "users:001"; mkPart 12 "payments:001"] false);
           VMonetary (mkMonetary "GEM" 16)] ∅)
  = Return (set_Stack
              (machine_of [Byte.x0c]
                 [VFunding (mkFunding "GEM"
                              [mkPart 3 "users:001"; mkPart 12 "payments:001"] false);
                  VMonetary (mkMonetary "GEM" 16)] ∅) [])
      EXIT_FAIL_INSUFFICIENT_FUNDS.
Proof.
  apply (TAKE_outcomes
           (machine_of [Byte.x0c]
              [VFunding (mkFunding "GEM"
                           [mkPart 3 "users:001"; mkPart 12 "payments:001"] false);
               VMonetary (mkMonetary "GEM" 16)] ∅)
           Byte.x0c []
           (mkFunding "GEM" [mkPart 3 "users:001"; mkPart 12 "payments:001"] false)
           (mkMonetary "GEM" 16) eq_refl eq_refl eq_refl eq_refl).
  - repeat constructor; simpl; lia.
  - unfold is_u64, two64. simpl. lia.
  - reflexivity.
  - reflexivity.
Defined.


(** ** The messages of [ResolveBalances] *)

Section Requests.
Context {ext : Extern}.

Lemma error_last_error st msg :
  only_requests (rs_sent st) ->
  error_last (rs_sent (mkResolving (rs_balances st) (rs_sent st ++ [RequestError msg]))).
Proof. intros H. right. now exists (rs_sent st), msg. Qed.

Lemma requests_tracked_error st msg :
  requests_tracked st ->
  requests_tracked (mkResolving (rs_balances st) (rs_sent st ++ [RequestError msg])).
Proof.
  intros H account asset Hin. simpl in *.
  apply elem_of_app in Hin as [Hin|Hin]; [now apply (H account asset)|].
  apply list_elem_of_singleton in Hin. discriminate.
Qed.

Lemma requests_tracked_insert st account inner :
  requests_tracked st ->
  requests_tracked (mkResolving (<[account := inner]> (rs_balances st)) (rs_sent st)).
Proof.
  intros H a s Hin. simpl in *.
  destruct (decide (account = a)) as [->|Hne].
  - rewrite lookup_insert_eq. eauto.
  - rewrite lookup_insert_ne by exact Hne. now apply (H a s).
Qed.

Lemma resolve_assets_stream respond (m : Machine) account needed_assets :
  forall st,
    only_requests (rs_sent st) -> requests_tracked st ->
    is_Some (rs_balances st !! account) ->
    match resolve_assets respond m account needed_assets st with
    | Some (inl st') =>
        requests_tracked st' /\
        exists pre msg, rs_sent st' = pre ++ [RequestError msg] /\ only_requests pre
    | Some (inr st') =>
        requests_tracked st' /\ only_requests (rs_sent st') /\
        is_Some (rs_balances st' !! account)
    | None => exists k a s, respond k a s = None
    end.
Proof.
  induction needed_assets as [|addr rest IH]; intros st Hreq Htr Hacc; simpl.
  - auto.
  - destruct (getResource m addr) as [mon|];
      [|split; [now apply requests_tracked_error | eexists _, _; split; [reflexivity | exact Hreq]]].
    destruct (GetAsset mon) as [asset|];
      [|split; [now apply requests_tracked_error | eexists _, _; split; [reflexivity | exact Hreq]]].
    assert (Hreq' : only_requests (rs_sent st ++ [Request account asset])).
    { apply Forall_app. split; [exact Hreq|]. repeat constructor. eauto. }
    assert (Htr' : requests_tracked
                     (mkResolving (rs_balances st) (rs_sent st ++ [Request account asset]))).
    { intros a s Hin. simpl in Hin.
      apply elem_of_app in Hin as [Hin|Hin]; [now apply (Htr a s)|].
      apply list_elem_of_singleton in Hin. injection Hin as -> ->. exact Hacc. }
    destruct (respond (length (rs_sent st)) account asset) as [balance|] eqn:Hresp;
      [|now exists (length (rs_sent st)), account, asset].
    apply IH; simpl.
    + exact Hreq'.
    + now apply (requests_tracked_insert
                   (mkResolving (rs_balances st) (rs_sent st ++ [Request account asset]))).
    + rewrite lookup_insert_eq. eauto.
Qed.

Lemma resolve_accounts_stream respond (m : Machine) needed :
  forall st,
    only_requests (rs_sent st) -> requests_tracked st ->
    match resolve_accounts respond m needed st with
    | Some st' => requests_tracked st' /\ error_last (rs_sent st')
    | None => exists k a s, respond k a s = None
    end.
Proof.
  induction needed as [|[addr needed_assets] rest IH]; intros st Hreq Htr; simpl.
  - split; [exact Htr | now left].
  - destruct (getResource m addr) as [v|];
      [|split; [now apply requests_tracked_error | now apply error_last_error]].
    destruct v;
      try (split; [now apply requests_tracked_error | now apply error_last_error]).
    destruct (String.eqb a "world"); [now apply IH|].
    pose proof (resolve_assets_stream respond m a needed_assets
                  (mkResolving (<[a := ∅]> (rs_balances st)) (rs_sent st))
                  Hreq (requests_tracked_insert st a ∅ Htr)) as H.
    simpl in H. rewrite lookup_insert_eq in H. specialize (H ltac:(eauto)).
    destruct (resolve_assets respond m a needed_assets _) as [[st'|st']|].
    + destruct H as (Htr' & pre & msg & Hsent & Hpre).
      split; [exact Htr'|]. right. now exists pre, msg.
    + destruct H as (Htr' & Hreq' & _). now apply IH.
    + exact H.
Qed.




(** X20. [ResolveBalances], once the resources are resolved and at its first
    call. When the caller answers every request with a balance, the
    goroutine comes to its end; when it ends in a panic, the caller has
    closed a response channel instead of answering. When the goroutine comes
    to its end, the machine has a balances map that is not nil and the flag
    of the call set, the other fields as they were, so that a second call is
    an error; among the messages sent an error, if any, is the last one, and
    every request is for an account that has an entry in the map. Before the
    resources are resolved, or at a second call, [ResolveBalances] returns an
    error without a message. *)
Theorem ResolveBalances_once respond (m : Machine) :
  (length (Resources m) = length (UnresolvedResources m) ->
   set_balance_called m = false ->
   ((forall k account asset, is_Some (respond k account asset)) ->
    exists m1 sent, ResolveBalances respond m = OK (Some (m1, sent))) /\
   (ResolveBalances respond m = OK None ->
    exists k account asset, respond k account asset = None) /\
   (ResolveBalances respond m = OK None \/
    exists m1 sent, ResolveBalances respond m = OK (Some (m1, sent))) /\
   forall m1 sent,
     ResolveBalances respond m = OK (Some (m1, sent)) ->
     Balances m1 <> None /\ set_balance_called m1 = true /\
     P m1 = P m /\ Program m1 = Program m /\ Resources m1 = Resources m /\
     UnresolvedResources m1 = UnresolvedResources m /\ Stack m1 = Stack m /\
     error_last sent /\
     (forall account asset,
         Request account asset ∈ sent -> tracked (Balances m1) account) /\
     forall respond',
       ResolveBalances respond' m1 = Err "tried to call ResolveBalances twice") /\
  (length (Resources m) <> length (UnresolvedResources m) ->
   ResolveBalances respond m = Err "tried to resolve balances before resources") /\
  (length (Resources m) = length (UnresolvedResources m) ->
   set_balance_called m = true ->
   ResolveBalances respond m = Err "tried to call ResolveBalances twice").
Proof.
  unfold ResolveBalances. split; [|split].
  - intros Hres Hcalled. rewrite Hres, Nat.eqb_refl, Hcalled. simpl.
    pose proof (resolve_accounts_stream respond m (NeededBalances (Program m))
                  (mkResolving ∅ [])) as Hst.
    destruct (resolve_accounts respond m (NeededBalances (Program m))
                (mkResolving ∅ [])) as [st|].
    + destruct Hst as [Htr Hlast].
      { constructor. }
      { intros a s Hin. simpl in Hin. now apply not_elem_of_nil in Hin. }
      split; [intros _; eauto|]. split; [discriminate|]. split; [right; eauto|].
      intros m1 sent Heq. injection Heq as <- <-. simpl.
      do 7 (split; [first [reflexivity | discriminate]|]).
      split; [exact Hlast|]. split.
      * intros account asset Hin. unfold tracked. simpl. now apply (Htr account asset).
      * intros respond'. now rewrite Hres, Nat.eqb_refl.
    + destruct Hst as (k & a & s & Hnone).
      { constructor. }
      { intros a s Hin. simpl in Hin. now apply not_elem_of_nil in Hin. }
      split.
      * intros Hall. destruct (Hall k a s) as [z Hz]. congruence.
      * split; [intros _; now exists k, a, s|]. split; [now left | discriminate].
  - intros Hne. destruct (Nat.eqb_spec (length (Resources m))
                            (length (UnresolvedResources m))); [contradiction|].
    reflexivity.
  - intros Hres Hcalled. now rewrite Hres, Nat.eqb_refl, Hcalled.
Qed.

End Requests.


(** ** Resource resolution *)

Section ResourceProperties.
Context {ext : Extern}.
Variable type_name : ValueType -> string.
Variable respond : nat -> string -> string -> option Value.
Variable vars : gmap string Value.


Lemma resolve_loop_sent m unresolved : forall st,
  exists more,
    rr_sent (resolve_loop type_name respond vars m unresolved st) = rr_sent st ++ more.
Proof.
  induction unresolved as [|res rest IH]; intros st; simpl.
  - exists []. now rewrite app_nil_r.
  - destruct res as [inner|typ name|typ source key].
    + apply (IH (mkResolvingResources _ _)).
    + destruct (vars !! name); [apply (IH (mkResolvingResources _ _)) | simpl; eauto].
    + destruct (getResource _ source) as [[]|]; simpl; eauto.
      destruct (respond _ _ _) as [val|]; simpl.
      * destruct (bool_decide _); simpl.
        -- rewrite <- app_assoc. eauto.
        -- destruct (IH (mkResolvingResources (rr_resources st ++ [val])
                           (rr_sent st ++ [MetaRequest a key]))) as [more Hm].
           rewrite Hm. simpl. rewrite <- app_assoc. eauto.
      * rewrite <- app_assoc. eauto.
Qed.







(** ** From [NewMachine] to [Execute] *)


End ResourceProperties.


(** ** [Equals] and the loop of [OP_FUNDING_ASSEMBLE] *)

(** X23. [Equals] answers [true] exactly when the two fundings have the same
    asset and the same parts, in number, order, accounts and amounts; it is
    thereby reflexive, symmetric and transitive. *)
Theorem Equals_equivalence (f g h : Funding) :
  (Equals f g = true <-> Asset f = Asset g /\ Parts f = Parts g) /\
  Equals f f = true /\
  Equals f g = Equals g f /\
  (Equals f g = true -> Equals g h = true -> Equals f h = true).
Proof.
  split; [apply Equals_asset_parts|]. split; [|split].
  - now apply Equals_asset_parts.
  - destruct (Equals f g) eqn:Hfg, (Equals g f) eqn:Hgf; try reflexivity.
    + apply Equals_asset_parts in Hfg as [Ha Hp].
      assert (Equals g f = true) by now apply Equals_asset_parts.
      congruence.
    + apply Equals_asset_parts in Hgf as [Ha Hp].
      assert (Equals f g = true) by now apply Equals_asset_parts.
      congruence.
  - intros Hfg Hgh.
    apply Equals_asset_parts in Hfg as [Ha Hp].
    apply Equals_asset_parts in Hgh as [Ha' Hp'].
    apply Equals_asset_parts. split; congruence.
Qed.


Lemma assemble_sum (fs : list Funding) : forall result r,
  Infinite result = false ->
  Forall (fun f => Infinite f = false) fs ->
  assemble result fs = OK r ->
  Infinite r = false /\ Asset r = Asset result /\
  sum_amounts (Parts r) mod two64
  = (sum_amounts (Parts result) + sum_fundings fs) mod two64.
Proof.
  induction fs as [|f fs IH]; intros result r Hres Hall Hr; simpl in Hr.
  - injection Hr as <-. repeat split; [exact Hres|].
    unfold sum_fundings. simpl. now rewrite Z.add_0_r.
  - inversion Hall as [|? ? Hf Hfs]; subst.
    unfold Concat in Hr. destruct (negb (String.eqb _ _)); [discriminate|].
    rewrite Hres, Hf in Hr. simpl in Hr.
    apply IH in Hr as (Hinf & Hasset & Hsum); [|reflexivity|exact Hfs]. simpl in *.
    repeat split; [exact Hinf | exact Hasset |].
    rewrite Hsum.
    change (sum_fundings (f :: fs)) with (sum_amounts (Parts f) + sum_fundings fs).
    rewrite <- Zplus_mod_idemp_l, concat_parts_sum, Zplus_mod_idemp_l.
    f_equal. lia.
Qed.

(** X24. The concatenation that [OP_FUNDING_ASSEMBLE] makes of finite
    fundings of one asset is a finite funding of that asset, and its total is
    the sum of their amounts modulo [2^64], whatever parts are merged on the
    way. *)
Theorem assemble_Total (asset : string) (fs : list Funding) :
  Forall (fun f => Asset f = asset) fs ->
  Forall (fun f => Infinite f = false) fs ->
  exists r,
    assemble (mkFunding asset [] false) fs = OK r /\
    Infinite r = false /\ Asset r = asset /\
    Total r = OK (sum_fundings fs mod two64).
Proof.
  intros Hasset Hfin.
  destruct (assemble_same_asset fs (mkFunding asset [] false) Hasset)
    as (r & Hr & _).
  destruct (assemble_sum fs (mkFunding asset [] false) r eq_refl Hfin Hr)
    as (Hinf & Ha & Hsum).
  exists r. split; [exact Hr|]. split; [exact Hinf|]. split; [exact Ha|].
  rewrite Total_finite by exact Hinf. f_equal. rewrite Hsum. simpl.
  f_equal.
Qed.

Lemma assemble_Total_witness :
  exists r,
    assemble (mkFunding "COIN" [] false)
      [mkFunding "COIN" [mkPart 2 "bbb"] false; mkFunding "COIN" [mkPart 1 "bbb"] false]
    = OK r /\
    Infinite r = false /\ Asset r = "COIN" /\
    Total r = OK (sum_fundings
                    [mkFunding "COIN" [mkPart 2 "bbb"] false;
                     mkFunding "COIN" [mkPart 1 "bbb"] false] mod two64).
Proof.
  apply (assemble_Total "COIN"
           [mkFunding "COIN" [mkPart 2 "bbb"] false;
            mkFunding "COIN" [mkPart 1 "bbb"] false]).
  - repeat constructor.
  - repeat constructor.
Defined.

(** ** What the instructions leave in place *)

Section Frame.
Context {ext : Extern}.
Variable R : Machine -> Machine -> Prop.
Hypothesis R_refl : forall m, R m m.
Hypothesis R_trans : forall m1 m2 m3, R m1 m2 -> R m2 m3 -> R m1 m3.
Hypothesis R_stack : forall m s, R m (set_Stack m s).
Hypothesis R_P : forall m p, R m (set_P m p).

Lemma keeps_ret {A} (a : A) m : keeps R (ret a) m.
Proof. apply R_refl. Qed.

Lemma keeps_exit {A} code m : keeps R (@exit _ A code) m.
Proof. apply R_refl. Qed.

Lemma keeps_panic {A} m : keeps R (@panic _ A) m.
Proof. exact I. Qed.

Lemma keeps_bind {A B} (c : Step A) (k : A -> Step B) m :
  keeps R c m ->
  (forall a m1, c m = Cont a m1 -> keeps R (k a) m1) ->
  keeps R (bind c k) m.
Proof.
  unfold keeps, bind. intros Hc Hk.
  destruct (c m) as [a m1| |]; [|exact Hc|exact I].
  specialize (Hk a m1 eq_refl).
  destruct (k a m1); [| |exact I]; eapply R_trans; eauto.
Qed.

Lemma keeps_get_bind {B} (k : Machine -> Step B) m :
  keeps R (k m) m -> keeps R (bind get k) m.
Proof. intros H. exact H. Qed.

Lemma keeps_put m m' : R m m' -> keeps R (put m') m.
Proof. intros H. exact H. Qed.

Lemma keeps_modify f m : R m (f m) -> keeps R (modify f) m.
Proof. intros H. exact H. Qed.

Lemma keeps_popValue m : keeps R popValue m.
Proof.
  unfold keeps, popValue. destruct (last (Stack m)); [apply R_stack | apply R_refl].
Qed.

Lemma keeps_pushValue v m : keeps R (pushValue v) m.
Proof. apply R_stack. Qed.

Lemma keeps_instr_slice m0 lo hi m : keeps R (instr_slice m0 lo hi) m.
Proof.
  unfold keeps, instr_slice. destruct (_ <? _)%nat; [exact I | apply R_refl].
Qed.

Ltac keep :=
  repeat
    lazymatch goal with
    | |- keeps _ (ret _) _ => apply keeps_ret
    | |- keeps _ (exit _) _ => apply keeps_exit
    | |- keeps _ panic _ => apply keeps_panic
    | |- keeps _ popValue _ => apply keeps_popValue
    | |- keeps _ (pushValue _) _ => apply keeps_pushValue
    | |- keeps _ (instr_slice _ _ _) _ => apply keeps_instr_slice
    | |- keeps _ (bind get _) _ => apply keeps_get_bind
    | |- keeps _ (bind _ _) _ => apply keeps_bind; [|intros ? ? _]
    | |- keeps _ (put _) _ => apply keeps_put
    | |- keeps _ (modify _) _ => apply keeps_modify
    | |- keeps _ _ _ => progress case_match
    end.

Lemma keeps_popNumber m : keeps R popNumber m.
Proof. unfold popNumber. keep. Qed.
Lemma keeps_popAsset m : keeps R popAsset m.
Proof. unfold popAsset. keep. Qed.
Lemma keeps_popAccount m : keeps R popAccount m.
Proof. unfold popAccount. keep. Qed.
Lemma keeps_popString m : keeps R popString m.
Proof. unfold popString. keep. Qed.
Lemma keeps_popMonetary m : keeps R popMonetary m.
Proof. unfold popMonetary. keep. Qed.
Lemma keeps_popPortion m : keeps R popPortion m.
Proof. unfold popPortion. keep. Qed.
Lemma keeps_popAllotment m : keeps R popAllotment m.
Proof. unfold popAllotment. keep. Qed.
Lemma keeps_popFunding m : keeps R popFunding m.
Proof. unfold popFunding. keep. Qed.

Lemma keeps_pop_portions n : forall m, keeps R (pop_portions n) m.
Proof.
  induction n as [|n IH]; intros m; simpl; [apply keeps_ret|].
  apply keeps_bind; [apply keeps_popPortion|]. intros p m1 _.
  apply keeps_bind; [apply IH|]. intros ps m2 _. apply keeps_ret.
Qed.

Lemma keeps_pop_fundings asset n : forall m, keeps R (pop_fundings n asset) m.
Proof.
  induction n as [|n IH]; intros m; simpl; [apply keeps_ret|].
  apply keeps_bind; [apply keeps_popFunding|]. intros f m1 _.
  destruct (negb _); [apply keeps_exit|].
  apply keeps_bind; [apply IH|]. intros fs m2 _. apply keeps_ret.
Qed.

Lemma keeps_push_each vs : forall m, keeps R (push_each vs) m.
Proof.
  induction vs as [|v vs IH]; intros m; simpl; [apply keeps_ret|].
  apply keeps_bind; [apply keeps_pushValue|]. intros _ m1 _. apply IH.
Qed.

Ltac keep_all :=
  repeat
    lazymatch goal with
    | |- keeps _ popNumber _ => apply keeps_popNumber
    | |- keeps _ popAsset _ => apply keeps_popAsset
    | |- keeps _ popAccount _ => apply keeps_popAccount
    | |- keeps _ popString _ => apply keeps_popString
    | |- keeps _ popMonetary _ => apply keeps_popMonetary
    | |- keeps _ popPortion _ => apply keeps_popPortion
    | |- keeps _ popAllotment _ => apply keeps_popAllotment
    | |- keeps _ popFunding _ => apply keeps_popFunding
    | |- keeps _ (pop_portions _) _ => apply keeps_pop_portions
    | |- keeps _ (pop_fundings _ _) _ => apply keeps_pop_fundings
    | |- keeps _ (push_each _) _ => apply keeps_push_each
    | |- keeps _ _ _ => progress keep
    end.

(** The switch of [tick] keeps what the stack and the program counter have
    no part in, as long as the field that the instruction writes to has
    none either. *)
Lemma exec_keeps (op : option Opcode) (m : Machine) :
  (writes_balances op -> forall m b, R m (set_Balances m b)) ->
  (op = Some OP_SEND -> forall m ps, R m (set_Postings m (Postings m ++ ps))) ->
  (op = Some OP_PRINT -> forall m v, R m (set_print_chan m (print_chan m ++ [v]))) ->
  (op = Some OP_TX_META -> forall m k v, R m (set_TxMeta m (<[k := v]> (TxMeta m)))) ->
  keeps R (exec op) m.
Proof.
  unfold writes_balances. intros HB HS HP HT.
  destruct op as [[]|]; simpl; unfold operand; keep_all; cbv beta; auto.
Qed.

Lemma tick_keeps (m : Machine) op :
  Instructions (Program m) !! P m = Some op ->
  (writes_balances (opcode_of op) -> forall m b, R m (set_Balances m b)) ->
  (opcode_of op = Some OP_SEND ->
   forall m ps, R m (set_Postings m (Postings m ++ ps))) ->
  (opcode_of op = Some OP_PRINT ->
   forall m v, R m (set_print_chan m (print_chan m ++ [v]))) ->
  (opcode_of op = Some OP_TX_META ->
   forall m k v, R m (set_TxMeta m (<[k := v]> (TxMeta m)))) ->
  match tick m with
  | Cont _ m' => R m m'
  | Return m' _ => R m m'
  | Panic => True
  end.
Proof.
  intros Hop HB HS HP HT. unfold tick. rewrite Hop.
  pose proof (exec_keeps (opcode_of op) m HB HS HP HT) as H. unfold keeps in H.
  destruct (exec (opcode_of op) m) as [[] m1|m1 c|]; [|exact H|exact I].
  unfold advance. destruct (_ <=? _)%nat; (eapply R_trans; [exact H | apply R_P]).
Qed.

End Frame.

Section Record.
Context {ext : Extern}.

Lemma extends_refl (m : Machine) : extends m m.
Proof.
  repeat split; auto; exists []; now rewrite app_nil_r.
Qed.

Lemma extends_trans (m1 m2 m3 : Machine) :
  extends m1 m2 -> extends m2 m3 -> extends m1 m3.
Proof.
  intros (Hr & Hu & Hf & [ps Hps] & [vs Hvs] & Ht)
         (Hr' & Hu' & Hf' & [ps' Hps'] & [vs' Hvs'] & Ht').
  repeat split; try congruence.
  - exists (ps ++ ps'). now rewrite Hps', Hps, app_assoc.
  - exists (vs ++ vs'). now rewrite Hvs', Hvs, app_assoc.
  - intros k Hk. apply Ht', Ht, Hk.
Qed.

Lemma same_field_refl {X} (F : Machine -> X) m : same_field F m m.
Proof. reflexivity. Qed.

Lemma same_field_trans {X} (F : Machine -> X) m1 m2 m3 :
  same_field F m1 m2 -> same_field F m2 m3 -> same_field F m1 m3.
Proof. unfold same_field. congruence. Qed.

Lemma tick_extends (m m' : Machine) u c :
  tick m = Cont u m' \/ tick m = Return m' c -> extends m m'.
Proof.
  intros Ht.
  destruct (Instructions (Program m) !! P m) as [op|] eqn:Hop;
    [|unfold tick in Ht; rewrite Hop in Ht; destruct Ht; discriminate].
  pose proof (tick_keeps extends extends_refl extends_trans) as H.
  specialize (H (fun m s => extends_refl m) (fun m p => extends_refl m) m op Hop).
  destruct Ht as [Ht|Ht]; rewrite Ht in H; apply H; intros _ m0.
  all: try (intros b; apply (extends_refl m0)).
  all: try (intros x; repeat split; auto; simpl;
            first [now exists x | now exists [x] | exists []; now rewrite app_nil_r]).
  all: intros k v; repeat split; auto; simpl;
    try (exists []; now rewrite app_nil_r).
  all: intros k' Hk'; destruct (decide (k = k')) as [->|Hne];
    [rewrite lookup_insert_eq; eauto | now rewrite lookup_insert_ne].
Qed.

Lemma halts_extends (m m' : Machine) code : halts m m' code -> extends m m'.
Proof.
  induction 1 as [m m' code Htick | m m1 m' code Htick _ IH].
  - eapply (tick_extends m m' tt code). now right.
  - eapply extends_trans; [|exact IH].
    eapply (tick_extends m m1 tt 0). now left.
Qed.

(** X25. What a run of [Execute] leaves of the machine it was called on:
    when [Execute] returns an exit code, the resources, their table and the
    flag of [ResolveBalances] are as they were, the postings are those the
    machine had followed by the ones of the run, the values printed likewise,
    and every key of the transaction metadata is still set. *)
Theorem Execute_extends (m m' : Machine) (code : Z) :
  Execute m = Some (Exited m' code) ->
  Resources m' = Resources m /\
  UnresolvedResources m' = UnresolvedResources m /\
  set_balance_called m' = set_balance_called m /\
  Program m' = Program m /\
  (exists ps, Postings m' = Postings m ++ ps) /\
  (exists vs, print_chan m' = print_chan m ++ vs) /\
  (forall k, is_Some (TxMeta m !! k) -> is_Some (TxMeta m' !! k)).
Proof.
  unfold Execute.
  destruct (negb _); [discriminate|].
  destruct (Balances m); [|discriminate].
  destruct (execute_loop_returns (length (Instructions (Program m)) - P m) m
              (S (length (Instructions (Program m)) - P m)))
    as [H|(m1 & c & Hh & H)]; try lia; rewrite H; [discriminate|].
  intros Heq. injection Heq as <- _.
  destruct (halts_extends m m1 c Hh) as (Hr & Hu & Hf & Hps & Hvs & Ht).
  pose proof (halts_end m m1 c Hh) as [Hprog _].
  repeat split; assumption.
Qed.

(** X26. Which instruction writes to which field. A round of [tick] that
    returns, whatever it returns, leaves the postings as they are unless the
    instruction is [OP_SEND], the values sent to the printer unless it is
    [OP_PRINT], the transaction metadata unless it is [OP_TX_META], and the
    balances unless it is [OP_TAKE_ALL], [OP_REPAY] or [OP_SEND]; no
    instruction writes to the resources or to the program. *)
Theorem tick_frame (m m' : Machine) (op : Byte.byte) (code : Z) :
  Instructions (Program m) !! P m = Some op ->
  tick m = Cont tt m' \/ tick m = Return m' code ->
  (opcode_of op <> Some OP_SEND -> Postings m' = Postings m) /\
  (opcode_of op <> Some OP_PRINT -> print_chan m' = print_chan m) /\
  (opcode_of op <> Some OP_TX_META -> TxMeta m' = TxMeta m) /\
  (~ writes_balances (opcode_of op) -> Balances m' = Balances m) /\
  Resources m' = Resources m /\ Program m' = Program m.
Proof.
  intros Hop Ht.
  assert (Hfield : forall X (F : Machine -> X),
             (forall m s, F (set_Stack m s) = F m) ->
             (forall m p, F (set_P m p) = F m) ->
             (writes_balances (opcode_of op) -> forall m b, F (set_Balances m b) = F m) ->
             (opcode_of op = Some OP_SEND ->
              forall m ps, F (set_Postings m (Postings m ++ ps)) = F m) ->
             (opcode_of op = Some OP_PRINT ->
              forall m v, F (set_print_chan m (print_chan m ++ [v])) = F m) ->
             (opcode_of op = Some OP_TX_META ->
              forall m k v, F (set_TxMeta m (<[k := v]> (TxMeta m))) = F m) ->
             F m' = F m).
  { intros X F Hs Hp HB HS HP HT.
    pose proof (tick_keeps (same_field F) (same_field_refl F) (same_field_trans F)
                  Hs Hp m op Hop HB HS HP HT) as H.
    destruct Ht as [Ht|Ht]; rewrite Ht in H; exact H. }
  repeat split.
  - intros Hne. apply (Hfield _ Postings); try reflexivity; try contradiction;
      intros; reflexivity.
  - intros Hne. apply (Hfield _ print_chan); try reflexivity; try contradiction;
      intros; reflexivity.
  - intros Hne. apply (Hfield _ TxMeta); try reflexivity; try contradiction;
      intros; reflexivity.
  - intros Hne. apply (Hfield _ Balances); try reflexivity; try contradiction;
      intros; reflexivity.
  - apply (Hfield _ Resources); intros; reflexivity.
  - apply (Hfield _ Program); intros; reflexivity.
Qed.

End Record.

Lemma Execute_extends_witness :
  exists m',
    Execute (machine_of [Byte.x13]
               [VFunding (mkFunding "EUR/2" [mkPart 100 "alice"] false); VAccount "bob"] ∅)
    = Some (Exited m' EXIT_OK) /\
    Resources m' = [] /\
    (exists ps, Postings m' = [] ++ ps) /\
    (exists vs, print_chan m' = [] ++ vs).
Proof.
  eexists. split; [vm_compute; reflexivity|].
  match goal with |- Resources ?m1 = _ /\ _ =>
    destruct (Execute_extends
                (machine_of [Byte.x13]
                   [VFunding (mkFunding "EUR/2" [mkPart 100 "alice"] false);
                    VAccount "bob"] ∅) m1 EXIT_OK)
      as (Hr & _ & _ & _ & Hps & Hvs & _)
  end; [vm_compute; reflexivity|].
  split; [exact Hr|]. split; [exact Hps | exact Hvs].
Defined.

Lemma tick_frame_witness :
  exists m',
    tick (machine_of [Byte.x05; Byte.x06] [VNumber 7] ∅) = Cont tt m' /\
    Postings m' = [] /\ TxMeta m' = ∅ /\ Balances m' = Some ∅ /\
    Resources m' = [].
Proof.
  eexists. split; [vm_compute; reflexivity|].
  match goal with |- Postings ?m1 = _ /\ _ =>
    destruct (tick_frame (machine_of [Byte.x05; Byte.x06] [VNumber 7] ∅) m1
                Byte.x05 0 eq_refl)
      as (Hps & _ & Ht & Hb & Hr & _)
  end; [left; vm_compute; reflexivity|].
  split; [apply Hps; discriminate|]. split; [apply Ht; discriminate|].
  split; [|exact Hr].
  apply Hb. unfold writes_balances. intros [H|[H|H]]; discriminate.
Defined.

(** ** [OP_TAKE_MAX] *)

Section TakeMax.
Context {ext : Extern}.

(** X27. [OP_TAKE_MAX] with the Monetary [mon] on top of the stack and a
    finite funding [f] below it, the amounts being [uint64] values. When the
    assets differ [tick] returns [EXIT_FAIL_INVALID]. When they agree the
    instruction goes through whatever the amount, unlike [OP_TAKE]: the
    remainder and, on top of it, the funding taken are pushed; the funding
    taken holds the amount of [mon] or, if that is less, all that [f] holds,
    and the two hold together what [f] held. *)
Theorem TAKE_MAX_outcomes (m : Machine) op s (f : Funding) (mon : Monetary) :
  Instructions (Program m) !! P m = Some op ->
  opcode_of op = Some OP_TAKE_MAX ->
  Stack m = s ++ [VFunding f; VMonetary mon] ->
  Infinite f = false -> u64_parts f -> is_u64 (mon_Amount mon) ->
  (Asset f <> mon_Asset mon ->
   tick m = Return (set_Stack m s) EXIT_FAIL_INVALID) /\
  (Asset f = mon_Asset mon ->
   exists t r,
     TakeMax f (mon_Amount mon) = (t, r) /\
     tick m = advance (set_Stack m (s ++ [VFunding r; VFunding t])) /\
     sum_amounts (Parts t) = Z.min (mon_Amount mon) (sum_amounts (Parts f)) /\
     sum_amounts (Parts t) + sum_amounts (Parts r) = sum_amounts (Parts f)).
Proof.
  intros Hop Hdec Hstack Hfin Hall Hu.
  rewrite (tick_decode m op _ Hop Hdec). simpl. unfold bind.
  rewrite snoc2 in Hstack. rewrite (popMonetary_top m _ _ Hstack).
  rewrite (popFunding_top (set_Stack m (s ++ [VFunding f])) s f eq_refl).
  split.
  - intros Hne. destruct (String.eqb_spec (Asset f) (mon_Asset mon)); [contradiction|].
    reflexivity.
  - intros Heq. rewrite Heq, String.eqb_refl. cbn [negb].
    destruct (TakeMax f (mon_Amount mon)) as [t r] eqn:HT.
    exists t, r. split; [reflexivity|].
    split; [unfold pushValue; simpl; now rewrite <- app_assoc|].
    unfold TakeMax in HT.
    destruct (Z.le_gt_cases (mon_Amount mon) (sum_amounts (Parts f))) as [Hle|Hgt].
    + destruct (take_loop_enough (Parts f) (mon_Amount mon) Hall)
        as (Hrem & Hres & Hdiv); [unfold is_u64 in Hu; lia | apply Hu|].
      pose proof (divides_sum _ _ _ _ Hdiv) as Hcons.
      rewrite Hrem, Hfin in HT. simpl in HT. rewrite copy_parts_id in HT.
      injection HT as <- <-. simpl. lia.
    + rewrite (take_loop_short (Parts f) (mon_Amount mon) Hall) in HT
        by (unfold is_u64 in Hu; lia).
      simpl in HT. rewrite Hfin, andb_false_r in HT.
      injection HT as <- <-. simpl. change (sum_amounts []) with 0. lia.
Qed.

End TakeMax.

Lemma TAKE_MAX_outcomes_witness :
  exists t r,
    TakeMax (mkFunding "COIN" [mkPart 30 "aaa"] false) 80 = (t, r) /\
    tick (machine_of [Byte.x0d]
            [VFunding (mkFunding "COIN" [mkPart 30 "aaa"] false);
             VMonetary (mkMonetary "COIN" 80)] ∅)
    = advance (set_Stack
                 (machine_of [Byte.x0d]
                    [VFunding (mkFunding "COIN" [mkPart 30 "aaa"] false);
                     VMonetary (mkMonetary "COIN" 80)] ∅)
                 ([] ++ [VFunding r; VFunding t])) /\
    sum_amounts (Parts t) = Z.min 80 (30 + 0) /\
    sum_amounts (Parts t) + sum_amounts (Parts r) = 30 + 0.
Proof.
  apply (TAKE_MAX_outcomes
           (machine_of [Byte.x0d]
              [VFunding (mkFunding "COIN" [mkPart 30 "aaa"] false);
               VMonetary (mkMonetary "COIN" 80)] ∅)
           Byte.x0d [] (mkFunding "COIN" [mkPart 30 "aaa"] false)
           (mkMonetary "COIN" 80) eq_refl eq_refl eq_refl eq_refl).
  - repeat constructor; simpl; lia.
  - split; [simpl; lia | reflexivity].
  - reflexivity.
Defined.

(** ** A transfer between two accounts *)

Lemma amount_of_all account parts :
  Forall (fun p => Account p = account) parts ->
  amount_of account parts = sum_amounts parts.
Proof.
  induction 1 as [|p parts Hp _ IH]; [reflexivity|].
  rewrite amount_of_cons, sum_amounts_cons, IH. now rewrite decide_True.
Qed.

Lemma balance_of_inner (bal : balances) account asset v :
  balance_of bal account asset = Some v ->
  exists inner, bal ≫= (fun b => b !! account) = Some inner /\ inner !! asset = Some v.
Proof.
  unfold balance_of. destruct (bal ≫= (fun b => b !! account)) as [inner|];
    [|discriminate].
  intros H. now exists inner.
Qed.

(** [Take] on the funding that [withdrawAll] returns. *)
Lemma Take_one_part asset account v m :
  is_u64 v -> 0 <= m <= v ->
  exists t r,
    Take (mkFunding asset [mkPart v account] false) m = OK (t, r) /\
    Asset t = asset /\ Asset r = asset /\
    Forall (fun p => Account p = account) (Parts r) /\
    sum_amounts (Parts t) = m /\ sum_amounts (Parts r) = v - m.
Proof.
  intros Hu Hm. unfold Take, is_u64 in *. cbn [Parts Asset Infinite take_loop].
  destruct (Z.ltb_spec 0 m) as [Hpos|Hz].
  - cbn [Amount Account]. destruct (Z.ltb_spec m v) as [Hlt|Hge].
    + unfold sub64. rewrite Z.sub_diag, Zmod_0_l. simpl.
      eexists _, _. split; [reflexivity|]. simpl.
      rewrite (Z.mod_small (v - m)) by lia.
      repeat split; try lia. repeat constructor.
    + assert (m = v) as -> by lia.
      unfold sub64. rewrite Z.sub_diag, Zmod_0_l. simpl.
      eexists _, _. split; [reflexivity|]. simpl.
      repeat split; try lia. constructor.
  - assert (m = 0) as -> by lia. simpl.
    eexists _, _. split; [reflexivity|]. simpl.
    repeat split; try lia. repeat constructor.
Qed.

(** X28. A transfer as the machine makes it: [withdrawAll] on the source,
    [Take] of the amount, [credit] of the funding taken to the destination
    and [repay] of the remainder. For two different accounts other than
    [world] that both have an entry for the asset, [uint64] values, and an
    amount that the source covers, every step goes through; in the end the
    source holds the amount less, the destination the amount more (modulo
    [2^64], the sum being unchecked) and every other entry is as it was. *)
Theorem transfer_moves (bal : balances) (account dest asset : string) (v w m : Z) :
  account <> "world" -> dest <> "world" -> account <> dest ->
  balance_of bal account asset = Some v ->
  balance_of bal dest asset = Some w ->
  is_u64 v -> is_u64 w -> 0 <= m <= v ->
  exists f bal1 t r bal3,
    withdrawAll bal account asset = (OK f, bal1) /\
    Take f m = OK (t, r) /\
    repay (credit bal1 dest t) r = Some bal3 /\
    forall a s,
      balance_of bal3 a s
      = if decide (a = account /\ s = asset) then Some (v - m)
        else if decide (a = dest /\ s = asset) then Some ((w + m) mod two64)
        else balance_of bal a s.
Proof.
  intros Hsw Hdw Hne Hv Hw Huv Huw Hm.
  destruct (balance_of_inner _ _ _ _ Hv) as (inner & Hacc & Hin).
  destruct (Take_one_part asset account v m Huv Hm)
    as (t & r & HT & Hat & Har & Hracc & Hst & Hsr).
  (* withdrawAll *)
  set (bal1 := (fun b => <[account := <[asset := 0]> inner]> b) <$> bal).
  assert (HW : withdrawAll bal account asset
               = (OK (mkFunding asset [mkPart v account] false), bal1)).
  { unfold withdrawAll. destruct (String.eqb_spec account "world"); [contradiction|].
    now rewrite Hacc, Hin. }
  assert (Hb1 : forall a s,
             balance_of bal1 a s
             = if decide (a = account /\ s = asset) then Some 0 else balance_of bal a s).
  { intros a s. now apply balance_of_write. }
  (* credit *)
  assert (Hw1 : balance_of bal1 dest asset = Some w).
  { rewrite Hb1, decide_False by (intros [? _]; congruence). exact Hw. }
  destruct (balance_of_inner _ _ _ _ Hw1) as (inner1 & Hacc1 & Hin1).
  set (bal2 := credit bal1 dest t).
  assert (Hb2 : forall a s,
             balance_of bal2 a s
             = if decide (a = dest /\ s = asset) then Some ((w + m) mod two64)
               else balance_of bal1 a s).
  { intros a s. unfold bal2, credit.
    destruct (String.eqb_spec dest "world"); [contradiction|].
    rewrite Hacc1, Hat, Hin1.
    rewrite (credit_loop_lookup _ _ inner1 w Hin1), total_loop_mod, Hst by exact Huw.
    now apply balance_of_write. }
  (* repay *)
  assert (Htr : tracked bal2 account).
  { apply credit_tracked. unfold tracked, bal1.
    apply (tracked_insert bal account _ inner account Hacc).
    unfold tracked. rewrite Hacc. eauto. }
  destruct (proj2 (repay_total_iff bal2 r)) as [bal3 Hrep].
  { eapply Forall_impl; [exact Hracc|]. simpl. intros p ->. now right. }
  exists (mkFunding asset [mkPart v account] false), bal1, t, r, bal3.
  split; [exact HW|]. split; [exact HT|]. split; [exact Hrep|].
  intros a s. unfold repay in Hrep.
  destruct (repay_loop_balance _ _ _ _ Hrep a s) as (Hother & Hskip & Hadd).
  rewrite Har in Hother, Hskip, Hadd.
  destruct (decide (s = asset)) as [->|Hs].
  - destruct (decide (a = account)) as [->|Ha].
    + rewrite decide_True by tauto.
      destruct (Parts r) as [|p ps] eqn:Hparts.
      * rewrite Hskip by (right; intros H; now apply not_elem_of_nil in H).
        rewrite Hb2, decide_False by (intros [? _]; congruence).
        rewrite Hb1, decide_True by tauto.
        change (sum_amounts []) with 0 in Hsr. f_equal. lia.
      * rewrite Hadd.
        -- rewrite Hb2, decide_False by (intros [? _]; congruence).
           rewrite Hb1, decide_True by tauto. simpl.
           rewrite (amount_of_all account (p :: ps) Hracc), Hsr.
           unfold is_u64 in Huv. f_equal. apply Z.mod_small. lia.
        -- exact Hsw.
        -- inversion Hracc as [|? ? Hp _]. simpl. rewrite Hp. left.
    + rewrite decide_False by tauto.
      rewrite Hskip.
      * rewrite Hb2. destruct (decide (a = dest /\ asset = asset)); [reflexivity|].
        rewrite Hb1. now rewrite decide_False by tauto.
      * right. intros Hin'. apply list_elem_of_fmap in Hin' as (p & -> & Hp).
        rewrite Forall_forall in Hracc. apply Ha. apply Hracc.
        exact Hp.
  - rewrite decide_False by tauto. rewrite decide_False by tauto.
    rewrite Hother by exact Hs.
    rewrite Hb2, decide_False by tauto. rewrite Hb1. now rewrite decide_False by tauto.
Qed.

Lemma transfer_moves_witness :
  exists f bal1 t r bal3,
    withdrawAll (Some {["alice" := {["EUR/2" := 100]}; "bob" := {["EUR/2" := 1]}]})
      "alice" "EUR/2" = (OK f, bal1) /\
    Take f 30 = OK (t, r) /\
    repay (credit bal1 "bob" t) r = Some bal3 /\
    forall a s,
      balance_of bal3 a s
      = if decide (a = "alice" /\ s = "EUR/2") then Some (100 - 30)
        else if decide (a = "bob" /\ s = "EUR/2") then Some ((1 + 30) mod two64)
        else balance_of
               (Some {["alice" := {["EUR/2" := 100]}; "bob" := {["EUR/2" := 1]}]}) a s.
Proof.
  apply (transfer_moves
           (Some {["alice" := {["EUR/2" := 100]}; "bob" := {["EUR/2" := 1]}]})
           "alice" "bob" "EUR/2" 100 1 30);
    try discriminate; try (vm_compute; reflexivity);
    try (split; [lia | reflexivity]); lia.
Defined.
